(** * Maestro: declarative workflow compiler

    A shallow embedding of the compiler pipeline of the repository
    (templating, schema validation, handler registry, graph compiler) and
    the properties its specification states about it. *)

From Stdlib Require Import ZArith Ascii String List Lia.
From stdpp Require Import base option strings list gmap pretty.

Local Open Scope Z_scope.
Local Open Scope stdpp_scope.

#[local] Set Warnings "-clear-no-such-hyp".

(* ===================================================================== *)
(** * JavaScript values                                                   *)
(* ===================================================================== *)

(** The data the compiler handles ([unknown], [Record<string, unknown>],
    JSON schemas, step parameters) is plain JSON-like data.  Objects are
    association lists in insertion order (the order [Object.entries]
    reports); numbers are the integers.  A JavaScript [undefined] is the
    [None] of [option JValue].  [Js.getProp] looks up own properties; the
    names a value inherits from [Object.prototype] or [Array.prototype]
    are listed by [Js.inherits], and [Js.isIn] is the [in] operator over
    both. *)
#[warnings="-register-all"] Inductive JValue : Type :=
| JNull
| JBool (b : bool)
| JNum (n : Z)
| JStr (s : string)
| JArr (items : list JValue)
| JObj (fields : list (string * JValue)).

(** Thrown [Error]s: a computation either returns or throws a message. *)
Inductive Result (A : Type) : Type :=
| Ok (a : A)
| Err (msg : string).
Arguments Ok {A} a.
Arguments Err {A} msg.

#[global] Instance Result_ret : MRet Result := fun _ a => Ok a.
#[global] Instance Result_bind : MBind Result := fun _ _ f r =>
  match r with Ok a => f a | Err m => Err m end.
#[global] Instance Result_fmap : FMap Result := fun _ _ f r =>
  match r with Ok a => Ok (f a) | Err m => Err m end.

Definition isOk {A} (r : Result A) : bool :=
  match r with Ok _ => true | Err _ => false end.

(** [array.map(f)] for a callback that may throw: left to right, the first
    throw wins. *)
Definition mapR {A B} (f : A -> Result B) : list A -> Result (list B) :=
  fix go l :=
    match l with
    | [] => Ok []
    | x :: r =>
        match f x with
        | Err m => Err m
        | Ok y => match go r with Err m => Err m | Ok ys => Ok (y :: ys) end
        end
    end.

Module Js.

(** [Boolean(v)], the truthiness test of [if (v)] and [!v]. *)
Definition truthy (v : JValue) : bool :=
  match v with
  | JNull => false
  | JBool b => b
  | JNum n => negb (n =? 0)%Z
  | JStr s => negb (String.eqb s "")
  | JArr _ | JObj _ => true
  end.

Definition truthyOpt (o : option JValue) : bool :=
  match o with Some v => truthy v | None => false end.

(** [typeof v === "object"] (true of [null], arrays and objects). *)
Definition typeofObject (v : JValue) : bool :=
  match v with
  | JNull | JArr _ | JObj _ => true
  | _ => false
  end.

Definition isString (o : option JValue) : option string :=
  match o with Some (JStr s) => Some s | _ => None end.

(** [o === s] for a string [s] *)
Definition isStr (o : option JValue) (s : string) : bool :=
  match o with Some (JStr x) => String.eqb x s | _ => false end.

(** [Array.isArray(v)] *)
Definition isArray (v : JValue) : bool :=
  match v with JArr _ => true | _ => false end.

Fixpoint assoc (key : string) (fields : list (string * JValue))
  : option JValue :=
  match fields with
  | [] => None
  | (k, v) :: rest => if String.eqb k key then Some v else assoc key rest
  end.

(** The index an array property key denotes: the canonical decimal
    rendering of a position below the length. *)
Definition arrayIndex (key : string) (len : nat) : option nat :=
  List.find (fun i => String.eqb (pretty i) key) (seq 0 len).

(** [v[key]] on a value whose [typeof] is ["object"]. *)
Definition getProp (v : JValue) (key : string) : option JValue :=
  match v with
  | JObj fields => assoc key fields
  | JArr items =>
      if String.eqb key "length" then Some (JNum (Z.of_nat (length items)))
      else match arrayIndex key (length items) with
           | Some i => items !! i
           | None => None
           end
  | _ => None
  end.

(** [key in v] for a key that names no inherited member (the literal keys
    the schema helpers read). *)
Definition hasProp (key : string) (v : JValue) : bool :=
  match getProp v key with Some _ => true | None => false end.

(** The string-keyed members of [Object.prototype], which every object
    literal and every array inherits. *)
Definition objectMembers : list string :=
  ["constructor"; "__defineGetter__"; "__defineSetter__"; "hasOwnProperty";
   "__lookupGetter__"; "__lookupSetter__"; "isPrototypeOf";
   "propertyIsEnumerable"; "toString"; "valueOf"; "__proto__";
   "toLocaleString"].

(** The string-keyed members of [Array.prototype] ([length] is an own
    property of each array). *)
Definition arrayMembers : list string :=
  ["constructor"; "at"; "concat"; "copyWithin"; "fill"; "find"; "findIndex";
   "findLast"; "findLastIndex"; "lastIndexOf"; "pop"; "push"; "reverse";
   "shift"; "unshift"; "slice"; "sort"; "splice"; "includes"; "indexOf";
   "join"; "keys"; "entries"; "values"; "forEach"; "filter"; "flat";
   "flatMap"; "map"; "every"; "some"; "reduce"; "reduceRight";
   "toLocaleString"; "toString"; "toReversed"; "toSorted"; "toSpliced";
   "with"].

Definition named (key : string) (names : list string) : bool :=
  existsb (String.eqb key) names.

(** [key] names a member that [v] finds on its prototype chain. *)
Definition inherits (v : JValue) (key : string) : bool :=
  match v with
  | JObj _ => named key objectMembers
  | JArr _ => named key arrayMembers || named key objectMembers
  | _ => false
  end.

(** [key in v], on a value whose [typeof] is ["object"]: an own property
    or an inherited member. *)
Definition isIn (key : string) (v : JValue) : bool :=
  hasProp key v || inherits v key.

Definition getPropOpt (o : option JValue) (key : string) : option JValue :=
  match o with Some v => getProp v key | None => None end.

Definition keys (fields : list (string * JValue)) : list string :=
  map fst fields.

(** [String(v)]; a number is an integer, printed in decimal digits as
    JavaScript prints the safe integers. *)
Fixpoint toString (v : JValue) : string :=
  match v with
  | JNull => "null"
  | JBool true => "true"
  | JBool false => "false"
  | JNum n => pretty n
  | JStr s => s
  | JArr items =>
      String.concat ","
        (map (fun x => match x with JNull => "" | _ => toString x end) items)
  | JObj _ => "[object Object]"
  end.

Definition toStringOpt (o : option JValue) : string :=
  match o with Some v => toString v | None => "undefined" end.

(** [s.split(".")] and [parts.join(".")] *)
Fixpoint split (sep : ascii) (s : string) : list string :=
  match s with
  | EmptyString => [""]
  | String c rest =>
      if Ascii.eqb c sep then "" :: split sep rest
      else match split sep rest with
           | h :: t => String c h :: t
           | [] => [String c ""]
           end
  end.

Definition join (sep : string) (parts : list string) : string :=
  String.concat sep parts.

(** [s.trim()], over the ASCII white space characters (all the white
    space there is in an ASCII text). *)
Fixpoint trimStart (s : string) : string :=
  match s with
  | EmptyString => ""
  | String c rest => if Ascii.is_space c then trimStart rest else s
  end.

Definition trimEnd (s : string) : string :=
  String.rev (trimStart (String.rev s)).

Definition trim (s : string) : string := trimEnd (trimStart s).

Definition startsWith (p s : string) : bool := String.prefix p s.

Definition slice (n : nat) (s : string) : string :=
  String.substring n (String.length s - n) s.

(** [s.includes(c)] for a one-character pattern. *)
Fixpoint includes (c : ascii) (s : string) : bool :=
  match s with
  | EmptyString => false
  | String d rest => Ascii.eqb d c || includes c rest
  end.

End Js.

(* ===================================================================== *)
(** * Templating (the expression resolver)                                *)
(* ===================================================================== *)

Module Templating.

Record TemplateContext : Type := {
  inputData : option JValue;
  steps : JValue;
  initData : option JValue;
  requestContext : JValue
}.

(** The loop of [getPathValue] over the path's parts.  [current[part]] is
    read among the own properties; a part that names an inherited member
    ([Js.inherits]) is outside what this loop describes. *)
Fixpoint walkPath (current : option JValue) (parts : list string)
  : option JValue :=
  match parts with
  | [] => current
  | part :: rest =>
      match current with
      | None => None
      | Some c =>
          if negb (Js.truthy c) || negb (Js.typeofObject c) then None
          else match Js.getProp c part with
               | None => None
               | Some value => walkPath (Some value) rest
               end
      end
  end.

Definition getPathValue (source : option JValue) (path : string)
  : option JValue :=
  if String.eqb path "" then source
  else walkPath source (Js.split "." path).

(** The four roots of the [switch (root)]. *)
Definition rootSource (context : TemplateContext) (root : string)
  : option (option JValue) :=
  if String.eqb root "input" then Some (inputData context)
  else if String.eqb root "steps" then Some (Some (steps context))
  else if String.eqb root "init" then Some (initData context)
  else if String.eqb root "requestContext"
       then Some (Some (requestContext context))
  else None.

Definition resolutionFailed (root path : string) : string :=
  Js.trim ("Template resolution failed for " +:+ root +:+ "." +:+ path).

Definition unknownRoot (root : string) : string :=
  "Unknown template root: " +:+ root.

(** Shared body of the two resolvers: split a dotted expression into root
    and path, pick the source, look the path up, throw when it is
    [undefined]. *)
Definition resolveDotted (expression : string) (context : TemplateContext)
  : Result JValue :=
  match Js.split "." expression with
  | [] => Err (unknownRoot "undefined")
  | root :: rest =>
      let path := Js.join "." rest in
      match rootSource context root with
      | None => Err (unknownRoot root)
      | Some source =>
          match getPathValue source path with
          | None => Err (resolutionFailed root path)
          | Some resolved => Ok resolved
          end
      end
  end.

(** ** The pattern [/\$\{([^}]+)\}/g] *)

(** The text up to the first closing brace, and what follows it. *)
Fixpoint untilClose (s : string) : option (string * string) :=
  match s with
  | EmptyString => None
  | String c rest =>
      if Ascii.eqb c "}" then Some ("", rest)
      else match untilClose rest with
           | Some (e, after) => Some (String c e, after)
           | None => None
           end
  end.

(** A match of the pattern at the head of [s]: the captured group. *)
Definition matchHere (s : string) : option string :=
  match s with
  | String c (String d body) =>
      if Ascii.eqb c "$" && Ascii.eqb d "{" then
        match untilClose body with
        | Some (String x e, _) => Some (String x e)
        | _ => None
        end
      else None
  | _ => None
  end.

Inductive Piece : Type :=
| Lit (c : ascii)
| Hole (expr : string).

(** All matches, leftmost first and not overlapping; [skip] counts the
    characters of the current match still to be passed over. *)
Fixpoint scan (skip : nat) (s : string) : list Piece :=
  match s with
  | EmptyString => []
  | String c rest =>
      match skip with
      | S k => scan k rest
      | O =>
          match matchHere s with
          | Some e => Hole e :: scan (String.length e + 2) rest
          | None => Lit c :: scan 0 rest
          end
      end
  end.

(** The replacement callback of [resolveTemplateString]. *)
Definition replaceMatch (expr : string) (context : TemplateContext)
  : Result string :=
  match resolveDotted (Js.trim expr) context with
  | Err m => Err m
  | Ok resolved => Ok (Js.toString resolved)
  end.

Definition resolvePiece (context : TemplateContext) (p : Piece)
  : Result string :=
  match p with
  | Lit c => Ok (String c "")
  | Hole e => replaceMatch e context
  end.

Definition resolveTemplateString (value : string) (context : TemplateContext)
  : Result string :=
  match mapR (resolvePiece context) (scan 0 value) with
  | Err m => Err m
  | Ok parts => Ok (String.concat "" parts)
  end.

Definition normalizePathExpression (expression : string) : string :=
  let trimmed := Js.trim expression in
  if Js.startsWith "$." trimmed then Js.slice 2 trimmed
  else if Js.startsWith "$" trimmed then Js.slice 1 trimmed
  else trimmed.

Definition resolvePathExpression (expression : string)
  (context : TemplateContext) : Result JValue :=
  resolveDotted (normalizePathExpression expression) context.

Definition isPathExpression (fields : list (string * JValue)) : bool :=
  match Js.keys fields with
  | [k] => String.eqb k "$path" || String.eqb k "$jsonPath"
  | _ => false
  end.

(** [record.$path ?? record.$jsonPath] *)
Definition pathExpressionOf (fields : list (string * JValue))
  : option JValue :=
  match Js.assoc "$path" fields with
  | Some JNull | None => Js.assoc "$jsonPath" fields
  | Some v => Some v
  end.

(** The record the loop [result[key] = ...] leaves, starting from [{}]:
    one own entry per key, except that an assignment to ["__proto__"]
    goes to the setter inherited from [Object.prototype] and creates no
    entry. *)
Definition assigned (entries : list (string * JValue))
  : list (string * JValue) :=
  List.filter (fun entry => negb (String.eqb (fst entry) "__proto__")) entries.

Fixpoint resolveTemplates (value : JValue) (context : TemplateContext)
  : Result JValue :=
  match value with
  | JStr s =>
      match resolveTemplateString s context with
      | Err m => Err m
      | Ok r => Ok (JStr r)
      end
  | JArr items =>
      match mapR (fun item => resolveTemplates item context) items with
      | Err m => Err m
      | Ok rs => Ok (JArr rs)
      end
  | JObj fields =>
      if isPathExpression fields then
        match pathExpressionOf fields with
        | Some (JStr expression) => resolvePathExpression expression context
        | _ => Err "Path expression must be a string."
        end
      else
        match mapR (fun entry =>
                      match resolveTemplates (snd entry) context with
                      | Err m => Err m
                      | Ok r => Ok (fst entry, r)
                      end) fields with
        | Err m => Err m
        | Ok rs => Ok (JObj (assigned rs))
        end
  | _ => Ok value
  end.

End Templating.

(* ===================================================================== *)
(** * The specification model ([spec.ts])                                 *)
(* ===================================================================== *)

Module Spec.

Inductive SchemaCompatibility : Type := Strict | Warn.

Record WorkflowOptions : Type := {
  validateInputs : option bool;
  schemaCompatibility : option SchemaCompatibility;
  retryConfig : option (Z * Z)
}.

(** The [when] of a branch arm and the [condition] of a loop. *)
Record Condition : Type := {
  handler : string;
  cond_inputSchema : JValue;
  cond_outputSchema : JValue;
  cond_params : option JValue
}.

(** The step variants built on [StepBase], with the field that names their
    target. *)
Inductive LeafKind : Type :=
| KStep (action : string)
| KAgent (agent : string)
| KTool (tool : string)
| KMcp (server tool : string)
| KNetwork (network : string)
| KTts
| KListen
| KDocumentChunk
| KDocumentMetadata
| KDocumentTransform
| KGraphRag
| KGraphRagQuery
| KEvals (scorer : string)
| KMemory (handler : string)
| KVectorStore (handler : string)
| KRag (handler : string)
| KHttp (handler : string)
| KLogger (handler : string)
| KRequestContext (handler : string).

(** [StepBase] and the fields of its extensions the compiler reads; the
    remaining fields ([input], [output], [text], ...) are carried by the
    document and never read by validation or compilation. *)
Record LeafStep : Type := {
  leaf_kind : LeafKind;
  leaf_id : string;
  leaf_inputSchema : JValue;
  leaf_outputSchema : JValue;
  leaf_description : option string;
  leaf_params : option JValue;
  leaf_retries : option Z
}.

(** [StepNode]: the union of the step schemas.  Parsing strips the keys a
    variant does not declare, so [foreach], [branch], [parallel], the loops
    and [workflow] carry no [id]. *)
#[warnings="-register-all"] Inductive StepSpec : Type :=
| SLeaf (leaf : LeafStep)
| SSleep (ms : Z) (id : option string)
| SSleepUntil (date : string) (id : option string)
| SHumanInput (prompt inputType : string) (options : option (list string))
    (timeout : option Z) (id : option string)
| SBail (when : option string) (payload : JValue) (id : option string)
| SMap (mappings : list (string * JValue)) (id : option string)
| SForeach (concurrency : option Z) (step : StepSpec)
| SBranch (branches : list (Condition * list StepSpec))
| SParallel (steps : list StepSpec)
| SDoWhile (step : StepSpec) (condition : Condition)
| SDoUntil (step : StepSpec) (condition : Condition)
| SWorkflow (workflowId : string) (inputMapping : option (list (string * JValue)))
| SSuspend (id : option string) (prompt waitFor : string) (timeout : option Z)
    (resumeSchema : option JValue)
| SResume (id : option string) (data : JValue).

Record WorkflowSpec : Type := {
  spec_id : string;
  spec_inputSchema : JValue;
  spec_outputSchema : JValue;
  spec_stateSchema : option JValue;
  spec_requestContextSchema : option JValue;
  spec_options : option WorkflowOptions;
  spec_steps : list StepSpec
}.

(** [step.type] *)
Definition leafType (k : LeafKind) : string :=
  match k with
  | KStep _ => "step"
  | KAgent _ => "agent"
  | KTool _ => "tool"
  | KMcp _ _ => "mcp"
  | KNetwork _ => "network"
  | KTts => "tts"
  | KListen => "listen"
  | KDocumentChunk => "documentChunk"
  | KDocumentMetadata => "documentMetadata"
  | KDocumentTransform => "documentTransform"
  | KGraphRag => "graphRag"
  | KGraphRagQuery => "graphRagQuery"
  | KEvals _ => "evals"
  | KMemory _ => "memory"
  | KVectorStore _ => "vectorStore"
  | KRag _ => "rag"
  | KHttp _ => "http"
  | KLogger _ => "logger"
  | KRequestContext _ => "requestContext"
  end.

Definition stepType (s : StepSpec) : string :=
  match s with
  | SLeaf l => leafType (leaf_kind l)
  | SSleep _ _ => "sleep"
  | SSleepUntil _ _ => "sleepUntil"
  | SHumanInput _ _ _ _ _ => "humanInput"
  | SBail _ _ _ => "bail"
  | SMap _ _ => "map"
  | SForeach _ _ => "foreach"
  | SBranch _ => "branch"
  | SParallel _ => "parallel"
  | SDoWhile _ _ => "dowhile"
  | SDoUntil _ _ => "dountil"
  | SWorkflow _ _ => "workflow"
  | SSuspend _ _ _ _ _ => "suspend"
  | SResume _ _ => "resume"
  end.

(** ["id" in step && typeof step.id === "string"] *)
Definition stepId (s : StepSpec) : option string :=
  match s with
  | SLeaf l => Some (leaf_id l)
  | SSleep _ id | SSleepUntil _ id | SHumanInput _ _ _ _ id | SBail _ _ id
  | SMap _ id | SSuspend id _ _ _ _ | SResume id _ => id
  | SForeach _ _ | SBranch _ | SParallel _ | SDoWhile _ _ | SDoUntil _ _
  | SWorkflow _ _ => None
  end.

End Spec.

(* ===================================================================== *)
(** * The runtime boundary                                                *)
(* ===================================================================== *)

(** What the external runtime hands over and receives.  Handlers, agents
    and tools are opaque callables; a workflow under construction is the
    record of the builder calls made on it, in order. *)
Module Runtime.

Inductive StepHandler : Type := StepHandlerRef (n : nat).
Inductive Agent : Type := AgentRef (n : nat).
Inductive Tool : Type := ToolRef (n : nat).

(** The schemas given to [createStep] and [createWorkflow]. *)
Inductive Zod : Type :=
| ToZod (schema : JValue)
| ZAny
| ZHumanInputOutput
| ZBailOutput
| ZSuspendOutput
| ZResumeOutput.

(** A step id: the declared one, or [prefix.<Date.now()>] when the
    declaration has none. *)
Inductive StepName : Type :=
| Named (id : string)
| Stamped (prefix : string).

(** The callable [resolveHandler] returns: an entry of a registry bucket,
    or the wrapper closure around an agent or a tool. *)
Inductive Resolved : Type :=
| RegistryEntry (bucket name : string)
| AgentWrapper (name handlerId : string)
| ToolWrapper (name handlerId : string).

(** The [execute] closure of a created step, by what it closes over. *)
Inductive Execute : Type :=
| ExecHandler (h : Resolved) (params : JValue)
| ExecHumanInput (prompt inputType : string) (options : option (list string))
    (timeout : option Z)
| ExecBail (when : option string) (payload : JValue)
| ExecSuspend (prompt waitFor : string) (timeout : option Z)
    (resumeSchema : option JValue)
| ExecResume (data : JValue).

(** A condition function: the resolved handler and the parameters it
    resolves at each call. *)
Record CondFn : Type := {
  cond_handler : Resolved;
  cond_fn_params : option JValue
}.

(** One entry of the configuration given to [workflow.map]. *)
Inductive MapEntry : Type :=
| MapValue (value : option JValue)
| MapRequestContextPath (path : option JValue) (schema : Zod)
| MapInitData (path : option JValue)
| MapStep (stepId path : option JValue).

#[warnings="-register-all"] Inductive Step : Type :=
| CreatedStep (id : StepName) (description : option string)
    (inputSchema outputSchema : Zod) (retries : option Z) (execute : Execute)
| WorkflowAsStep (id : string) (inputSchema outputSchema : Zod)
    (stateSchema requestContextSchema : option Zod)
    (options : option Spec.WorkflowOptions) (graph : list Op) (committed : bool)
with Op : Type :=
| OpThen (s : Step)
| OpMap (config : list (string * MapEntry)) (id : option (option string))
| OpSleep (ms : Z)
| OpSleepUntil (date : string)
| OpParallel (steps : list Step)
| OpBranch (branches : list (CondFn * Step))
| OpForeach (s : Step) (concurrency : Z)
| OpDoWhile (s : Step) (cond : CondFn)
| OpDoUntil (s : Step) (cond : CondFn).

Record Workflow : Type := {
  wf_id : string;
  wf_inputSchema : Zod;
  wf_outputSchema : Zod;
  wf_stateSchema : option Zod;
  wf_requestContextSchema : option Zod;
  wf_options : option Spec.WorkflowOptions;
  wf_graph : list Op;
  wf_committed : bool
}.

(** [createWorkflow(opts)] *)
Definition createWorkflow (id : string) (inputSchema outputSchema : Zod)
  (stateSchema requestContextSchema : option Zod)
  (options : option Spec.WorkflowOptions) : Workflow :=
  {| wf_id := id; wf_inputSchema := inputSchema;
     wf_outputSchema := outputSchema; wf_stateSchema := stateSchema;
     wf_requestContextSchema := requestContextSchema; wf_options := options;
     wf_graph := []; wf_committed := false |}.

(** A builder call appends to the graph and returns the workflow. *)
Definition addOp (w : Workflow) (op : Op) : Workflow :=
  {| wf_id := wf_id w; wf_inputSchema := wf_inputSchema w;
     wf_outputSchema := wf_outputSchema w; wf_stateSchema := wf_stateSchema w;
     wf_requestContextSchema := wf_requestContextSchema w;
     wf_options := wf_options w; wf_graph := wf_graph w ++ [op];
     wf_committed := wf_committed w |}.

(** [workflow.commit()] *)
Definition commit (w : Workflow) : Workflow :=
  {| wf_id := wf_id w; wf_inputSchema := wf_inputSchema w;
     wf_outputSchema := wf_outputSchema w; wf_stateSchema := wf_stateSchema w;
     wf_requestContextSchema := wf_requestContextSchema w;
     wf_options := wf_options w; wf_graph := wf_graph w;
     wf_committed := true |}.

(** [cloneWorkflow(workflow, { id })] *)
Definition cloneWorkflow (w : Workflow) (id : string) : Workflow :=
  {| wf_id := id; wf_inputSchema := wf_inputSchema w;
     wf_outputSchema := wf_outputSchema w; wf_stateSchema := wf_stateSchema w;
     wf_requestContextSchema := wf_requestContextSchema w;
     wf_options := wf_options w; wf_graph := wf_graph w;
     wf_committed := wf_committed w |}.

(** A workflow used where a step is expected ([workflow as Step]). *)
Definition asStep (w : Workflow) : Step :=
  WorkflowAsStep (wf_id w) (wf_inputSchema w) (wf_outputSchema w)
    (wf_stateSchema w) (wf_requestContextSchema w) (wf_options w)
    (wf_graph w) (wf_committed w).

End Runtime.

(* ===================================================================== *)
(** * The handler registry                                                *)
(* ===================================================================== *)

Module Registry.

Import Runtime.

Record HandlerRegistry : Type := {
  handlers : gmap string StepHandler;
  agents : option (gmap string Agent);
  tools : option (gmap string Tool);
  workflows : option (gmap string Workflow);
  networks : option (gmap string StepHandler);
  voice : option (gmap string StepHandler);
  document : option (gmap string StepHandler);
  graphRag : option (gmap string StepHandler);
  evals : option (gmap string StepHandler);
  memory : option (gmap string StepHandler);
  vectorStore : option (gmap string StepHandler);
  rag : option (gmap string StepHandler);
  http : option (gmap string StepHandler);
  logger : option (gmap string StepHandler);
  requestContext : option (gmap string StepHandler);
  mcp : option (gmap string StepHandler)
}.

(** [Boolean(bucket?.[name])]: the values of a bucket are functions and
    objects, so an entry is truthy exactly when it is there.  The test is
    on the entries the bucket owns; a bucket written as an object literal
    also answers to the names of [Js.objectMembers], which are no
    handlers. *)
Definition present {V} (bucket : option (gmap string V)) (name : string) : bool :=
  match bucket with
  | Some b => bool_decide (is_Some (b !! name))
  | None => false
  end.

(** [(registry as Record<string, unknown>)[namespace]?.[name]], as a
    presence test: the bucket is whichever property of the registry object
    the namespace names. *)
Definition presentIn (registry : HandlerRegistry) (namespace name : string)
  : bool :=
  if String.eqb namespace "handlers" then present (Some (handlers registry)) name
  else if String.eqb namespace "agents" then present (agents registry) name
  else if String.eqb namespace "tools" then present (tools registry) name
  else if String.eqb namespace "workflows" then present (workflows registry) name
  else if String.eqb namespace "networks" then present (networks registry) name
  else if String.eqb namespace "voice" then present (voice registry) name
  else if String.eqb namespace "document" then present (document registry) name
  else if String.eqb namespace "graphRag" then present (graphRag registry) name
  else if String.eqb namespace "evals" then present (evals registry) name
  else if String.eqb namespace "memory" then present (memory registry) name
  else if String.eqb namespace "vectorStore" then present (vectorStore registry) name
  else if String.eqb namespace "rag" then present (rag registry) name
  else if String.eqb namespace "http" then present (http registry) name
  else if String.eqb namespace "logger" then present (logger registry) name
  else if String.eqb namespace "requestContext"
       then present (requestContext registry) name
  else if String.eqb namespace "mcp" then present (mcp registry) name
  else false.

(** [const [namespace, name] = handlerId.includes(".") ? handlerId.split(".")
    : ["handlers", handlerId]] *)
Definition splitHandlerId (handlerId : string) : string * option string :=
  if Js.includes "." handlerId then
    match Js.split "." handlerId with
    | namespace :: name :: _ => (namespace, Some name)
    | namespace :: [] => (namespace, None)
    | [] => ("", None)
    end
  else ("handlers", Some handlerId).

Definition resolveHandler (registry : HandlerRegistry) (handlerId : string)
  : Result Resolved :=
  match splitHandlerId handlerId with
  | (namespace, None) => Err ("Missing handler: " +:+ handlerId)
  | (namespace, Some name) =>
      if String.eqb namespace "handlers" then
        if present (Some (handlers registry)) name
        then Ok (RegistryEntry "handlers" name)
        else Err ("Missing handler: " +:+ handlerId)
      else if String.eqb namespace "agent" then
        if present (agents registry) name
        then Ok (AgentWrapper name handlerId)
        else Err ("Missing agent: " +:+ handlerId)
      else if String.eqb namespace "tool" then
        if present (tools registry) name
        then Ok (ToolWrapper name handlerId)
        else Err ("Missing tool: " +:+ handlerId)
      else if String.eqb namespace "mcp" then
        match Js.split "." handlerId with
        | _ :: serverName :: toolParts =>
            match toolParts with
            | [] => Err ("Invalid MCP handler ID format: " +:+ handlerId)
            | _ =>
                let toolName := Js.join "." toolParts in
                let key := serverName +:+ "." +:+ toolName in
                if present (mcp registry) key
                then Ok (RegistryEntry "mcp" key)
                else Err ("Missing MCP handler: " +:+ handlerId)
            end
        | _ => Err ("Invalid MCP handler ID format: " +:+ handlerId)
        end
      else if String.eqb namespace "network" then
        if present (networks registry) name
        then Ok (RegistryEntry "networks" name)
        else Err ("Missing network handler: " +:+ handlerId)
      else if String.eqb namespace "tts" || String.eqb namespace "listen" then
        if present (voice registry) name
        then Ok (RegistryEntry "voice" name)
        else Err ("Missing voice handler: " +:+ handlerId)
      else if String.eqb namespace "documentChunk"
              || String.eqb namespace "documentMetadata"
              || String.eqb namespace "documentTransform" then
        if present (document registry) name
        then Ok (RegistryEntry "document" name)
        else Err ("Missing document handler: " +:+ handlerId)
      else if String.eqb namespace "graphRag"
              || String.eqb namespace "graphRagQuery" then
        if present (graphRag registry) name
        then Ok (RegistryEntry "graphRag" name)
        else Err ("Missing GraphRAG handler: " +:+ handlerId)
      else if String.eqb namespace "evals" then
        if present (evals registry) name
        then Ok (RegistryEntry "evals" name)
        else Err ("Missing eval scorer: " +:+ handlerId)
      else
        if presentIn registry namespace name
        then Ok (RegistryEntry namespace name)
        else Err ("Missing handler: " +:+ handlerId)
  end.

End Registry.

(* ===================================================================== *)
(** * The schema compatibility validator ([validation.ts])                *)
(* ===================================================================== *)

Module Validation.

Import Spec.

Inductive Severity : Type := Warning | Error.

Record SchemaIssue : Type := {
  message : string;
  path : string;
  severity : Severity
}.

(** [mode === "strict" ? "error" : "warning"] *)
Definition modeSeverity (mode : SchemaCompatibility) : Severity :=
  match mode with Strict => Error | Warn => Warning end.

(** [string | string[] | undefined], the [undefined] being [None]. *)
Inductive SchemaType : Type :=
| TypeName (t : string)
| TypeNames (ts : list string).

(** [typeValue.every((t) => typeof t === "string")], with the strings. *)
Fixpoint allStrings (l : list JValue) : option (list string) :=
  match l with
  | [] => Some []
  | JStr s :: rest =>
      match allStrings rest with Some ss => Some (s :: ss) | None => None end
  | _ :: _ => None
  end.

(** [!schema || Array.isArray(schema)] *)
Definition notRecord (schema : JValue) : bool :=
  negb (Js.truthy schema) || Js.isArray schema.

Definition getSchemaType (schema : JValue) : option SchemaType :=
  if notRecord schema then None
  else match Js.getProp schema "type" with
       | Some (JStr t) => Some (TypeName t)
       | Some (JArr ts) =>
           match allStrings ts with
           | Some l => Some (TypeNames l)
           | None => None
           end
       | _ => None
       end.

Definition getUnionSchemas (schema : JValue) : list JValue :=
  if notRecord schema then []
  else match Js.getProp schema "oneOf" with
       | Some (JArr value) => value
       | _ => match Js.getProp schema "anyOf" with
              | Some (JArr value) => value
              | _ => []
              end
       end.

Definition inb (x : string) (l : list string) : bool :=
  existsb (String.eqb x) l.

Definition isTypeName (t : option SchemaType) (name : string) : bool :=
  match t with Some (TypeName s) => String.eqb s name | _ => false end.

Definition isNullable (schema : JValue) : bool :=
  let type := getSchemaType schema in
  match type with
  | Some (TypeNames ts) => inb "null" ts
  | _ =>
      if isTypeName type "null" then true
      else existsb (fun candidate => isTypeName (getSchemaType candidate) "null")
             (getUnionSchemas schema)
  end.

Definition normalizeSchema (schema : JValue) : JValue :=
  if notRecord schema then schema
  else if (0 <? length (getUnionSchemas schema))%nat then schema
  else schema.

Definition constraintKeys : list string :=
  ["minLength"; "maxLength"; "pattern"; "minimum"; "maximum";
   "exclusiveMinimum"; "exclusiveMaximum"; "enum"].

(** The keys of the record [getScalarConstraints] returns. *)
Definition getScalarConstraints (schema : JValue) : list string :=
  if notRecord schema then []
  else List.filter (fun key => Js.hasProp key schema) constraintKeys.

(** [Array.prototype.includes] compares with SameValueZero: primitives by
    value, objects and arrays by identity (two literals are never the same
    object). *)
Definition sameValueZero (a b : JValue) : bool :=
  match a, b with
  | JNull, JNull => true
  | JBool x, JBool y => Bool.eqb x y
  | JNum x, JNum y => (x =? y)%Z
  | JStr x, JStr y => String.eqb x y
  | _, _ => false
  end.

Definition isEnumCompatible (outputSchema inputSchema : JValue) : bool :=
  if notRecord outputSchema || notRecord inputSchema then true
  else match Js.getProp outputSchema "enum", Js.getProp inputSchema "enum" with
       | Some (JArr outputEnum), Some (JArr inputEnum) =>
           forallb (fun value => existsb (sameValueZero value) outputEnum)
             inputEnum
       | _, _ => true
       end.

(** [!t] on a [SchemaType | undefined] *)
Definition typeFalsy (t : option SchemaType) : bool :=
  match t with
  | None => true
  | Some (TypeName s) => String.eqb s ""
  | Some (TypeNames _) => false
  end.

Definition typeList (t : SchemaType) : list string :=
  match t with TypeName s => [s] | TypeNames ts => ts end.

Definition typeIncludes (outputType inputType : option SchemaType) : bool :=
  if typeFalsy inputType || typeFalsy outputType then true
  else match outputType, inputType with
       | Some o, Some i =>
           forallb (fun t => inb t (typeList o)) (typeList i)
       | _, _ => true
       end.

Definition getObjectProps (schema : JValue) : option JValue :=
  if notRecord schema then None
  else if negb (Js.isStr (Js.getProp schema "type") "object") then None
  else match Js.getProp schema "properties" with
       | Some props =>
           if negb (Js.truthy props) || negb (Js.typeofObject props)
           then None else Some props
       | None => None
       end.

Definition getRequired (schema : JValue) : list string :=
  if notRecord schema then []
  else match Js.getProp schema "required" with
       | Some (JArr required) =>
           omap (fun item => match item with JStr s => Some s | _ => None end)
             required
       | _ => []
       end.

Definition getArrayItems (schema : JValue) : option JValue :=
  if notRecord schema then None
  else if negb (Js.isStr (Js.getProp schema "type") "array") then None
  else match Js.getProp schema "items" with
       | Some items =>
           if negb (Js.truthy items) || negb (Js.typeofObject items)
           then None else Some items
       | None => None
       end.

Definition isArraySchema (schema : option JValue) : bool :=
  match schema with
  | None => false
  | Some s =>
      if notRecord s then false
      else if Js.isStr (Js.getProp s "type") "array" then true
      else match Js.getProp s "type" with
           | Some (JArr typeValue) =>
               existsb (sameValueZero (JStr "array")) typeValue
           | _ => false
           end
  end.

(** ** [JSON.stringify] of a schema type *)

Definition hexDigit (n : nat) : ascii :=
  match n with
  | 0 => "0" | 1 => "1" | 2 => "2" | 3 => "3" | 4 => "4" | 5 => "5"
  | 6 => "6" | 7 => "7" | 8 => "8" | 9 => "9" | 10 => "a" | 11 => "b"
  | 12 => "c" | 13 => "d" | 14 => "e" | _ => "f"
  end%char%nat.

Definition dquote : ascii := ascii_of_nat 34.
Definition backslash : ascii := ascii_of_nat 92.

Definition escapeChar (c : ascii) : string :=
  let n := nat_of_ascii c in
  if (n =? 34)%nat then String backslash (String dquote "")
  else if (n =? 92)%nat then String backslash (String backslash "")
  else if (n =? 8)%nat then String backslash "b"
  else if (n =? 12)%nat then String backslash "f"
  else if (n =? 10)%nat then String backslash "n"
  else if (n =? 13)%nat then String backslash "r"
  else if (n =? 9)%nat then String backslash "t"
  else if (n <? 32)%nat
       then String backslash
              ("u00" +:+ String (hexDigit (n / 16))
                           (String (hexDigit (n mod 16)) ""))
  else String c "".

Fixpoint escapeString (s : string) : string :=
  match s with
  | EmptyString => ""
  | String c rest => escapeChar c +:+ escapeString rest
  end.

Definition quote (s : string) : string :=
  String dquote (escapeString s) +:+ String dquote "".

Definition stringifyType (t : option SchemaType) : string :=
  match t with
  | None => "undefined"
  | Some (TypeName s) => quote s
  | Some (TypeNames ts) => "[" +:+ String.concat "," (map quote ts) +:+ "]"
  end.

(** ** Compatibility of a producer and a consumer schema *)

Definition typeMismatch (path : string) (mode : SchemaCompatibility)
  (outputType inputType : option SchemaType) : SchemaIssue :=
  {| path := path;
     severity := modeSeverity mode;
     message := "Schema type mismatch. Output type " +:+ stringifyType outputType
                +:+ " does not satisfy input type " +:+ stringifyType inputType
                +:+ "." |}.

Definition nullableIssue (path : string) : SchemaIssue :=
  {| path := path; severity := Warning;
     message := "Input allows null but output does not appear to be nullable." |}.

Definition enumIssue (path : string) (mode : SchemaCompatibility) : SchemaIssue :=
  {| path := path; severity := modeSeverity mode;
     message := "Output enum does not cover all values required by input enum." |}.

Definition constraintIssue (path : string) : SchemaIssue :=
  {| path := path; severity := Warning;
     message := "Input schema has constraints that are not present in output schema." |}.

Definition missingKeyIssue (path key : string) : SchemaIssue :=
  {| path := path; severity := Warning;
     message := "Output schema missing required key '" +:+ key
                +:+ "' expected by next step input." |}.

(** [key in outputProps], where [outputProps] is [getObjectProps(...) ?? {}]:
    the operator finds the declared properties and the members the record
    inherits. *)
Definition inProps (outputProps : option JValue) (key : string) : bool :=
  match outputProps with
  | Some props => Js.isIn key props
  | None => Js.isIn key (JObj [])
  end.

(** The body of [validateSchemaCompatibility]; [recur] is the function
    itself, called on the item schemas. *)
Definition compatibilityBody
  (recur : option JValue -> option JValue -> string -> list SchemaIssue)
  (outputSchema inputSchema : option JValue) (path : string)
  (mode : SchemaCompatibility) : list SchemaIssue :=
  match outputSchema, inputSchema with
  | Some outputSchema, Some inputSchema =>
    if negb (Js.truthy outputSchema) || negb (Js.truthy inputSchema) then []
    else
      let normalizedOutput := normalizeSchema outputSchema in
      let normalizedInput := normalizeSchema inputSchema in
      let outputType := getSchemaType normalizedOutput in
      let inputType := getSchemaType normalizedInput in
      if negb (typeIncludes outputType inputType)
      then [typeMismatch path mode outputType inputType]
      else
        (if isNullable normalizedInput && negb (isNullable normalizedOutput)
         then [nullableIssue path] else [])
        ++ (if negb (isEnumCompatible normalizedOutput normalizedInput)
            then [enumIssue path mode] else [])
        ++ (if (0 <? length (getScalarConstraints normalizedInput))%nat
               && (length (getScalarConstraints normalizedOutput) =? 0)%nat
            then [constraintIssue path] else [])
        ++ (if isTypeName inputType "object" && isTypeName outputType "object"
            then map (missingKeyIssue path)
                   (List.filter (fun key =>
                              negb (inProps (getObjectProps normalizedOutput) key))
                      (getRequired normalizedInput))
            else [])
        ++ (if isTypeName inputType "array" && isTypeName outputType "array"
            then match getArrayItems normalizedOutput,
                       getArrayItems normalizedInput with
                 | Some outputItems, Some inputItems =>
                     recur (Some outputItems) (Some inputItems)
                       (path +:+ ".items")
                 | _, _ => []
                 end
            else [])
  | _, _ => []
  end.

(** Nesting depth of a value: the recursion descends one level of the
    producer schema at each call. *)
Fixpoint depth (v : JValue) : nat :=
  match v with
  | JArr items => S (foldr (fun x acc => Nat.max (depth x) acc) O items)
  | JObj fields => S (foldr (fun kv acc => Nat.max (depth (snd kv)) acc) O fields)
  | _ => O
  end.

Fixpoint compatibilityFuel (fuel : nat)
  (outputSchema inputSchema : option JValue) (path : string)
  (mode : SchemaCompatibility) : list SchemaIssue :=
  match fuel with
  | O => []
  | S fuel' =>
      compatibilityBody
        (fun o i p => compatibilityFuel fuel' o i p mode)
        outputSchema inputSchema path mode
  end.

Definition validateSchemaCompatibility
  (outputSchema inputSchema : option JValue) (path : string)
  (mode : SchemaCompatibility) : list SchemaIssue :=
  compatibilityFuel
    (S (match outputSchema with Some o => depth o | None => O end))
    outputSchema inputSchema path mode.

(** ** Mapping tables *)

Definition entryIssue (path key : string) (sev : Severity) (msg : string)
  : SchemaIssue :=
  {| path := path +:+ "." +:+ key; severity := sev; message := msg |}.

Definition isFrom (from : option JValue) (name : string) : bool :=
  Js.isStr from name.

(** [typeof stepId !== "string" || !availableSteps.has(stepId)] *)
Definition unknownStep (availableSteps : gset string) (stepId : option JValue)
  : bool :=
  match stepId with
  | Some (JStr s) => negb (bool_decide (s ∈ availableSteps))
  | _ => true
  end.

(** One round of the loop of [validateMappings]. *)
Definition mappingIssues (availableSteps : gset string) (path : string)
  (entry : string * JValue) : list SchemaIssue :=
  let (key, mapping) := entry in
  if negb (Js.truthy mapping) || negb (Js.typeofObject mapping)
  then [entryIssue path key Error "Mapping entry must be an object."]
  else if Js.hasProp "value" mapping then []
  else
    let from := Js.getProp mapping "from" in
    (if isFrom from "step" && unknownStep availableSteps (Js.getProp mapping "stepId")
     then [entryIssue path key Error
             ("Mapping references unknown step '"
              +:+ Js.toStringOpt (Js.getProp mapping "stepId") +:+ "'.")]
     else [])
    ++ (if negb (isFrom from "step") && negb (isFrom from "init")
           && negb (isFrom from "requestContext")
        then [entryIssue path key Error
                "Mapping 'from' must be one of 'step', 'init', or 'requestContext'."]
        else [])
    ++ (if negb (isFrom from "step")
           && negb (bool_decide (is_Some (Js.isString (Js.getProp mapping "path"))))
        then [entryIssue path key Warning "Mapping path should be a string."]
        else []).

Definition validateMappings (mappings : list (string * JValue))
  (availableSteps : gset string) (path : string) : list SchemaIssue :=
  flat_map (mappingIssues availableSteps path) mappings.

(** ** The sequence walk *)

Definition schemaFromStep (step : StepSpec) : option JValue :=
  match step with SLeaf l => Some (leaf_outputSchema l) | _ => None end.

Definition inputSchemaFromStep (step : StepSpec) : option JValue :=
  match step with SLeaf l => Some (leaf_inputSchema l) | _ => None end.

Definition computeForeachOutput (step : StepSpec) : option JValue :=
  match step with
  | SForeach _ body =>
      match schemaFromStep body with
      | Some itemOutput =>
          if negb (Js.truthy itemOutput) then None
          else Some (JObj [("type", JStr "array"); ("items", itemOutput)])
      | None => None
      end
  | _ => schemaFromStep step
  end.

(** The first loop of [validateSequence]: the string ids of the members of
    the sequence. *)
Definition collectIds (steps : list StepSpec) : gset string :=
  foldl (fun acc step =>
           match stepId step with Some id => acc ∪ {[id]} | None => acc end)
    ∅ steps.

Definition opaqueObject : JValue := JObj [("type", JStr "object")].

Definition foreachIssue (path : string) (index : nat)
  (mode : SchemaCompatibility) : SchemaIssue :=
  {| path := path +:+ ".steps." +:+ pretty index;
     severity := modeSeverity mode;
     message := "Foreach expects previous output to be an array schema." |}.

(** [branch.steps[0] ? inputSchemaFromStep(branch.steps[0]) : undefined] *)
Definition branchInput (steps : list StepSpec) : option JValue :=
  match steps with
  | first :: _ => inputSchemaFromStep first
  | [] => None
  end.

(** [step.steps.forEach((parallelStep, parallelIndex) => ...)] *)
Fixpoint parallelIssues (prevOutput : option JValue) (path : string)
  (index : nat) (mode : SchemaCompatibility) (parallelIndex : nat)
  (members : list StepSpec) : list SchemaIssue :=
  match members with
  | [] => []
  | parallelStep :: rest =>
      validateSchemaCompatibility prevOutput (inputSchemaFromStep parallelStep)
        (path +:+ ".parallel." +:+ pretty index +:+ "." +:+ pretty parallelIndex)
        mode
      ++ parallelIssues prevOutput path index mode (S parallelIndex) rest
  end.

(** One round of the [steps.forEach] of [validateSequence]: the issues
    pushed and the new carried-forward shape [prevOutput]. *)
Fixpoint validateStep (step : StepSpec) (availableSteps : gset string)
  (path : string) (mode : SchemaCompatibility) (index : nat)
  (prevOutput : option JValue) {struct step}
  : list SchemaIssue * option JValue :=
  match step with
  | SBranch branches =>
      ((fix eachBranch (bs : list (Condition * list StepSpec))
          (branchIndex : nat) : list SchemaIssue :=
          match bs with
          | [] => []
          | branch :: rest =>
              let armPath :=
                path +:+ ".branch." +:+ pretty index +:+ ".branches."
                +:+ pretty branchIndex in
              validateSchemaCompatibility prevOutput (branchInput (snd branch))
                armPath mode
              ++ (fix eachStep (l : list StepSpec) (i : nat)
                    (prev : option JValue) : list SchemaIssue :=
                    match l with
                    | [] => []
                    | s :: l' =>
                        let r := validateStep s (collectIds (snd branch))
                                   (armPath +:+ ".steps") mode i prev in
                        fst r ++ eachStep l' (S i) (snd r)
                    end) (snd branch) O prevOutput
              ++ eachBranch rest (S branchIndex)
          end) branches O, None)
  | SParallel members =>
      (parallelIssues prevOutput path index mode O members, None)
  | SMap mappings _ =>
      (validateMappings mappings availableSteps
         (path +:+ ".map." +:+ pretty index), Some opaqueObject)
  | SWorkflow _ inputMapping =>
      (match inputMapping with
       | Some m =>
           validateMappings m availableSteps
             (path +:+ ".workflow." +:+ pretty index)
       | None => []
       end, Some opaqueObject)
  | SSleep _ _ | SSleepUntil _ _ => ([], prevOutput)
  | SForeach _ _ =>
      ((if Js.truthyOpt prevOutput && negb (isArraySchema prevOutput)
        then [foreachIssue path index mode] else [])
       ++ validateSchemaCompatibility prevOutput (inputSchemaFromStep step)
            (path +:+ ".steps." +:+ pretty index) mode,
       computeForeachOutput step)
  | _ =>
      (validateSchemaCompatibility prevOutput (inputSchemaFromStep step)
         (path +:+ ".steps." +:+ pretty index) mode,
       schemaFromStep step)
  end.

(** The [steps.forEach] of [validateSequence], from position [index]. *)
Fixpoint sequenceLoop (availableSteps : gset string) (path : string)
  (mode : SchemaCompatibility) (steps : list StepSpec) (index : nat)
  (prevOutput : option JValue) : list SchemaIssue :=
  match steps with
  | [] => []
  | step :: rest =>
      let r := validateStep step availableSteps path mode index prevOutput in
      fst r ++ sequenceLoop availableSteps path mode rest (S index) (snd r)
  end.

Definition validateSequence (steps : list StepSpec) (path : string)
  (mode : SchemaCompatibility) (inputSchema : option JValue)
  : list SchemaIssue :=
  sequenceLoop (collectIds steps) path mode steps O inputSchema.

(** The validation of a branch's arms, as [validateStep] runs it. *)
Fixpoint branchIssues (prevOutput : option JValue) (path : string)
  (index : nat) (mode : SchemaCompatibility) (branchIndex : nat)
  (branches : list (Condition * list StepSpec)) : list SchemaIssue :=
  match branches with
  | [] => []
  | branch :: rest =>
      let armPath :=
        path +:+ ".branch." +:+ pretty index +:+ ".branches."
        +:+ pretty branchIndex in
      validateSchemaCompatibility prevOutput (branchInput (snd branch))
        armPath mode
      ++ validateSequence (snd branch) (armPath +:+ ".steps") mode prevOutput
      ++ branchIssues prevOutput path index mode (S branchIndex) rest
  end.

(** ** The tree walk *)

(** [visitSteps]: the calls of the visitor, in order, each with the step
    and its path. *)
Fixpoint visitStep (step : StepSpec) (stepPath : string) {struct step}
  : list (StepSpec * string) :=
  (step, stepPath) ::
  match step with
  | SBranch branches =>
      (fix eachBranch (bs : list (Condition * list StepSpec))
         (branchIndex : nat) : list (StepSpec * string) :=
         match bs with
         | [] => []
         | branch :: rest =>
             (fix eachStep (l : list StepSpec) (i : nat)
                : list (StepSpec * string) :=
                match l with
                | [] => []
                | s :: l' =>
                    visitStep s
                      ((stepPath +:+ ".branches." +:+ pretty branchIndex
                        +:+ ".steps") +:+ "." +:+ pretty i)
                    ++ eachStep l' (S i)
                end) (snd branch) O
             ++ eachBranch rest (S branchIndex)
         end) branches O
  | SParallel members =>
      (fix eachStep (l : list StepSpec) (i : nat) : list (StepSpec * string) :=
         match l with
         | [] => []
         | s :: l' =>
             visitStep s ((stepPath +:+ ".steps") +:+ "." +:+ pretty i)
             ++ eachStep l' (S i)
         end) members O
  | SForeach _ body | SDoWhile body _ | SDoUntil body _ =>
      visitStep body ((stepPath +:+ ".step") +:+ "." +:+ pretty O)
  | _ => []
  end.

Fixpoint visitFrom (steps : list StepSpec) (basePath : string) (index : nat)
  : list (StepSpec * string) :=
  match steps with
  | [] => []
  | step :: rest =>
      visitStep step (basePath +:+ "." +:+ pretty index)
      ++ visitFrom rest basePath (S index)
  end.

Definition visitSteps (steps : list StepSpec) (basePath : string)
  : list (StepSpec * string) :=
  visitFrom steps basePath O.

(** ** Unique step ids *)

Definition duplicateIssue (path id existing : string) : SchemaIssue :=
  {| path := path +:+ ".id";
     severity := Error;
     message := "Duplicate step id '" +:+ id +:+ "' previously defined at "
                +:+ existing +:+ "." |}.

(** The visitor of [validateUniqueStepIds], on the state [(seen, issues)]. *)
Definition visitUnique (state : gmap string string * list SchemaIssue)
  (visit : StepSpec * string) : gmap string string * list SchemaIssue :=
  let (seen, issues) := state in
  let (step, path) := visit in
  match stepId step with
  | None => state
  | Some id =>
      match seen !! id with
      | Some existing =>
          if negb (String.eqb existing "")
          then (seen, issues ++ [duplicateIssue path id existing])
          else (<[id := path +:+ ".id"]> seen, issues)
      | None => (<[id := path +:+ ".id"]> seen, issues)
      end
  end.

Definition validateUniqueStepIds (steps : list StepSpec) (basePath : string)
  : list SchemaIssue :=
  snd (foldl visitUnique (∅, []) (visitSteps steps basePath)).

(** ** Handler existence *)

Import Registry.

Definition handlerExists (registry : HandlerRegistry) (handlerId : string)
  : bool :=
  match splitHandlerId handlerId with
  | (namespace, None) => false
  | (namespace, Some name) =>
      if String.eqb namespace "handlers"
      then present (Some (handlers registry)) name
      else if String.eqb namespace "agent" then present (agents registry) name
      else if String.eqb namespace "tool" then present (tools registry) name
      else presentIn registry namespace name
  end.

Definition missingIssue (path field kind name : string) : SchemaIssue :=
  {| path := path +:+ field; severity := Error;
     message := "Missing " +:+ kind +:+ ": " +:+ name +:+ "." |}.

(** ["action" in step], ["agent" in step], ["tool" in step] *)
Definition actionOf (step : StepSpec) : option string :=
  match step with
  | SLeaf l => match leaf_kind l with KStep a => Some a | _ => None end
  | _ => None
  end.

Definition agentOf (step : StepSpec) : option string :=
  match step with
  | SLeaf l => match leaf_kind l with KAgent a => Some a | _ => None end
  | _ => None
  end.

Definition toolOf (step : StepSpec) : option string :=
  match step with
  | SLeaf l =>
      match leaf_kind l with
      | KTool t | KMcp _ t => Some t
      | _ => None
      end
  | _ => None
  end.

Fixpoint branchHandlerIssues (registry : HandlerRegistry) (path : string)
  (branchIndex : nat) (branches : list (Condition * list StepSpec))
  : list SchemaIssue :=
  match branches with
  | [] => []
  | branch :: rest =>
      (if negb (handlerExists registry (handler (fst branch)))
       then [missingIssue path
               (".branches." +:+ pretty branchIndex +:+ ".when.handler")
               "handler" (handler (fst branch))]
       else [])
      ++ branchHandlerIssues registry path (S branchIndex) rest
  end.

(** The visitor of [validateHandlers]. *)
Definition visitHandlers (registry : HandlerRegistry)
  (visit : StepSpec * string) : list SchemaIssue :=
  let (step, path) := visit in
  (match actionOf step with
   | Some action =>
       if negb (handlerExists registry ("handlers." +:+ action))
       then [missingIssue path ".action" "handler" action] else []
   | None => []
   end)
  ++ (match agentOf step with
      | Some agent =>
          if negb (handlerExists registry ("agent." +:+ agent))
          then [missingIssue path ".agent" "agent" agent] else []
      | None => []
      end)
  ++ (match toolOf step with
      | Some tool =>
          if negb (handlerExists registry ("tool." +:+ tool))
          then [missingIssue path ".tool" "tool" tool] else []
      | None => []
      end)
  ++ (match step with
      | SBranch branches => branchHandlerIssues registry path O branches
      | _ => []
      end)
  ++ (match step with
      | SDoWhile _ condition | SDoUntil _ condition =>
          if negb (handlerExists registry (handler condition))
          then [missingIssue path ".condition.handler" "handler"
                  (handler condition)]
          else []
      | _ => []
      end)
  ++ (match step with
      | SWorkflow workflowId _ =>
          if negb (present (workflows registry) workflowId)
          then [missingIssue path ".workflowId" "workflow" workflowId]
          else []
      | _ => []
      end).

Definition validateHandlers (steps : list StepSpec) (basePath : string)
  (registry : HandlerRegistry) : list SchemaIssue :=
  flat_map (visitHandlers registry) (visitSteps steps basePath).

(** [spec.options?.schemaCompatibility ?? "warn"] *)
Definition modeOf (spec : WorkflowSpec) : SchemaCompatibility :=
  match spec_options spec with
  | Some options =>
      match schemaCompatibility options with
      | Some mode => mode
      | None => Warn
      end
  | None => Warn
  end.

Definition validateWorkflowSchemas (spec : WorkflowSpec)
  (registry : option HandlerRegistry) : list SchemaIssue :=
  let basePath := spec_id spec +:+ ".steps" in
  let mode := modeOf spec in
  validateSequence (spec_steps spec) (spec_id spec) mode
    (Some (spec_inputSchema spec))
  ++ validateUniqueStepIds (spec_steps spec) basePath
  ++ match registry with
     | Some registry => validateHandlers (spec_steps spec) basePath registry
     | None => []
     end.

End Validation.

(* ===================================================================== *)
(** * The graph compiler ([compiler.ts])                                  *)
(* ===================================================================== *)

Module Compiler.

Import Spec Runtime Registry Validation.

(** [toZod(schema)] hands the schema to the external converter. *)
Definition toZod (schema : JValue) : Zod := ToZod schema.

(** One round of the loop of [buildMapping]. *)
Definition buildMappingEntry (entry : string * JValue)
  : Result (string * MapEntry) :=
  let (key, mapping) := entry in
  match mapping with
  | JObj _ | JArr _ =>
      if Js.hasProp "value" mapping
      then Ok (key, MapValue (Js.getProp mapping "value"))
      else if isFrom (Js.getProp mapping "from") "requestContext"
      then Ok (key, MapRequestContextPath (Js.getProp mapping "path")
                      (toZod (JObj [])))
      else if isFrom (Js.getProp mapping "from") "init"
      then Ok (key, MapInitData (Js.getProp mapping "path"))
      else Ok (key, MapStep (Js.getProp mapping "stepId")
                      (Js.getProp mapping "path"))
  | _ =>
      Err ("Cannot use 'in' operator to search for 'value' in "
           +:+ Js.toString mapping)
  end.

Definition buildMapping (mappings : list (string * JValue))
  : Result (list (string * MapEntry)) :=
  mapR buildMappingEntry mappings.

(** The handler id [buildStep] derives for a leaf step. *)
Definition deriveHandlerId (l : LeafStep) : Result string :=
  match leaf_kind l with
  | KAgent agent => Ok ("agent." +:+ agent)
  | KStep action =>
      if String.eqb action ""
      then Err "Missing handler/agent/action/tool for step"
      else Ok ("handlers." +:+ action)
  | KTool tool => Ok ("tool." +:+ tool)
  | KMemory h => Ok ("memory." +:+ h)
  | KVectorStore h => Ok ("vectorStore." +:+ h)
  | KRag h => Ok ("rag." +:+ h)
  | KHttp h => Ok ("http." +:+ h)
  | KLogger h => Ok ("logger." +:+ h)
  | KRequestContext h => Ok ("requestContext." +:+ h)
  | KMcp server tool => Ok ("mcp." +:+ server +:+ "." +:+ tool)
  | KNetwork network => Ok ("network." +:+ network)
  | KTts | KListen | KDocumentChunk | KDocumentMetadata | KDocumentTransform
  | KGraphRag | KGraphRagQuery =>
      Ok (leafType (leaf_kind l) +:+ "." +:+ leaf_id l)
  | KEvals scorer => Ok ("evals." +:+ scorer)
  end.

Definition buildStep (spec : StepSpec) (registry : HandlerRegistry)
  : Result Step :=
  match spec with
  | SSleep _ _ | SSleepUntil _ _ | SMap _ _ | SHumanInput _ _ _ _ _
  | SBail _ _ _ | SSuspend _ _ _ _ _ | SResume _ _ =>
      Err ("buildStep cannot handle control step type: " +:+ stepType spec)
  | SWorkflow workflowId _ =>
      match workflows registry with
      | Some ws =>
          match ws !! workflowId with
          | Some nested => Ok (asStep nested)
          | None => Err ("Missing nested workflow: " +:+ workflowId)
          end
      | None => Err ("Missing nested workflow: " +:+ workflowId)
      end
  | SLeaf l =>
      match deriveHandlerId l with
      | Err m => Err m
      | Ok handlerId =>
          match resolveHandler registry handlerId with
          | Err m => Err m
          | Ok h =>
              Ok (CreatedStep (Named (leaf_id l)) (leaf_description l)
                    (toZod (leaf_inputSchema l)) (toZod (leaf_outputSchema l))
                    (leaf_retries l)
                    (ExecHandler h
                       (match leaf_params l with
                        | Some params => params
                        | None => JObj []
                        end)))
          end
      end
  | SForeach _ _ | SBranch _ | SParallel _ | SDoWhile _ _ | SDoUntil _ _ =>
      Err ("Unknown step type: " +:+ stepType spec)
  end.

Definition isSchemaStep (step : StepSpec) : bool :=
  match step with SLeaf _ => true | _ => false end.

(** [x ?? {}] on a schema *)
Definition orEmpty (schema : option JValue) : JValue :=
  match schema with
  | Some JNull | None => JObj []
  | Some s => s
  end.

Definition deriveWorkflowSchemas (steps : list StepSpec) : JValue * JValue :=
  (orEmpty (match List.find isSchemaStep steps with
            | Some s => inputSchemaFromStep s
            | None => None
            end),
   orEmpty (match List.find isSchemaStep (rev steps) with
            | Some s => schemaFromStep s
            | None => None
            end)).

(** [step.id || `prefix.${Date.now()}`] *)
Definition nameOr (id : option string) (prefix : string) : StepName :=
  match id with
  | Some s => if String.eqb s "" then Stamped prefix else Named s
  | None => Stamped prefix
  end.

(** The condition function built for a branch arm or a loop. *)
Definition buildCondFn (registry : HandlerRegistry) (c : Condition)
  : Result CondFn :=
  match resolveHandler registry (handler c) with
  | Err m => Err m
  | Ok h => Ok {| cond_handler := h; cond_fn_params := cond_params c |}
  end.

(** The leaf types [applySteps] hands to [buildStep]; [mcp] is not among
    them. *)
Definition appliedAsLeaf (k : LeafKind) : bool :=
  match k with KMcp _ _ => false | _ => true end.

(** One round of the loop of [applySteps].  [workflow] is the workflow the
    function was called with, [current] the one built so far. *)
Fixpoint applyStep (step : StepSpec) (workflow : Workflow)
  (registry : HandlerRegistry) (current : Workflow) {struct step}
  : Result Workflow :=
  match step with
  | SLeaf l =>
      if appliedAsLeaf (leaf_kind l) then
        match buildStep step registry with
        | Err m => Err m
        | Ok built => Ok (addOp current (OpThen built))
        end
      else Err ("Unsupported step type: " +:+ stepType step)
  | SWorkflow workflowId inputMapping =>
      match match workflows registry with
            | Some ws => ws !! workflowId
            | None => None
            end with
      | None => Err ("Missing nested workflow: " +:+ workflowId)
      | Some nested =>
          let nestedWorkflow :=
            cloneWorkflow nested (wf_id workflow +:+ "." +:+ wf_id nested) in
          match inputMapping with
          | Some m =>
              let mappingWorkflow :=
                createWorkflow
                  (wf_id workflow +:+ "." +:+ wf_id nested +:+ ".mapping")
                  (wf_inputSchema workflow) (wf_inputSchema workflow)
                  None None None in
              match buildMapping m with
              | Err e => Err e
              | Ok mappingConfig =>
                  let mapped :=
                    commit (addOp (addOp mappingWorkflow (OpMap mappingConfig None))
                              (OpThen (asStep nestedWorkflow))) in
                  Ok (addOp current (OpThen (asStep mapped)))
              end
          | None => Ok (addOp current (OpThen (asStep nestedWorkflow)))
          end
      end
  | SMap mappings id =>
      match buildMapping mappings with
      | Err e => Err e
      | Ok mappingConfig => Ok (addOp current (OpMap mappingConfig (Some id)))
      end
  | SSleep ms _ => Ok (addOp current (OpSleep ms))
  | SSleepUntil date _ => Ok (addOp current (OpSleepUntil date))
  | SHumanInput prompt inputType options timeout id =>
      Ok (addOp current
            (OpThen (CreatedStep (nameOr id "humanInput") None ZAny
                       ZHumanInputOutput None
                       (ExecHumanInput prompt inputType options timeout))))
  | SBail when payload id =>
      Ok (addOp current
            (OpThen (CreatedStep (nameOr id "bail") None ZAny ZBailOutput None
                       (ExecBail when payload))))
  | SSuspend id prompt waitFor timeout resumeSchema =>
      Ok (addOp current
            (OpThen (CreatedStep (nameOr id "suspend") None ZAny
                       ZSuspendOutput None
                       (ExecSuspend prompt waitFor timeout resumeSchema))))
  | SResume id data =>
      Ok (addOp current
            (OpThen (CreatedStep (nameOr id "resume") None ZAny ZResumeOutput
                       None (ExecResume data))))
  | SParallel members =>
      match mapR (fun s => buildStep s registry) members with
      | Err m => Err m
      | Ok builtSteps => Ok (addOp current (OpParallel builtSteps))
      end
  | SBranch branches =>
      match (fix eachBranch (bs : list (Condition * list StepSpec))
               (index : nat) : Result (list (CondFn * Step)) :=
               match bs with
               | [] => Ok []
               | branch :: rest =>
                   match buildCondFn registry (fst branch) with
                   | Err m => Err m
                   | Ok condFn =>
                       let schemas := deriveWorkflowSchemas (snd branch) in
                       let fresh :=
                         createWorkflow
                           (wf_id workflow +:+ ".branch." +:+ pretty index)
                           (toZod (fst schemas)) (toZod (snd schemas))
                           None None None in
                       match (fix eachStep (l : list StepSpec) (cur : Workflow)
                                : Result Workflow :=
                                match l with
                                | [] => Ok cur
                                | s :: l' =>
                                    match applyStep s fresh registry cur with
                                    | Err m => Err m
                                    | Ok cur' => eachStep l' cur'
                                    end
                                end) (snd branch) fresh with
                       | Err m => Err m
                       | Ok built =>
                           match eachBranch rest (S index) with
                           | Err m => Err m
                           | Ok entries =>
                               Ok ((condFn, asStep (commit built)) :: entries)
                           end
                       end
                   end
               end) branches O with
      | Err m => Err m
      | Ok entries => Ok (addOp current (OpBranch entries))
      end
  | SForeach concurrency body =>
      match buildStep body registry with
      | Err m => Err m
      | Ok built =>
          Ok (addOp current
                (OpForeach built
                   (match concurrency with Some n => n | None => 1 end)))
      end
  | SDoWhile body condition =>
      match buildStep body registry with
      | Err m => Err m
      | Ok built =>
          match buildCondFn registry condition with
          | Err m => Err m
          | Ok condFn => Ok (addOp current (OpDoWhile built condFn))
          end
      end
  | SDoUntil body condition =>
      match buildStep body registry with
      | Err m => Err m
      | Ok built =>
          match buildCondFn registry condition with
          | Err m => Err m
          | Ok condFn => Ok (addOp current (OpDoUntil built condFn))
          end
      end
  end.

(** The loop of [applySteps], with [current] so far. *)
Fixpoint applyLoop (workflow : Workflow) (registry : HandlerRegistry)
  (steps : list StepSpec) (current : Workflow) : Result Workflow :=
  match steps with
  | [] => Ok current
  | step :: rest =>
      match applyStep step workflow registry current with
      | Err m => Err m
      | Ok current' => applyLoop workflow registry rest current'
      end
  end.

Definition applySteps (workflow : Workflow) (steps : list StepSpec)
  (registry : HandlerRegistry) : Result Workflow :=
  applyLoop workflow registry steps workflow.

Definition buildBranchWorkflow (parentId : string) (branchIndex : nat)
  (steps : list StepSpec) (registry : HandlerRegistry) : Result Workflow :=
  let schemas := deriveWorkflowSchemas steps in
  let workflow :=
    createWorkflow (parentId +:+ ".branch." +:+ pretty branchIndex)
      (toZod (fst schemas)) (toZod (snd schemas)) None None None in
  match applySteps workflow steps registry with
  | Err m => Err m
  | Ok built => Ok (commit built)
  end.

(** The map over the arms of a branch, as [applySteps] runs it. *)
Fixpoint buildBranches (workflow : Workflow) (registry : HandlerRegistry)
  (index : nat) (branches : list (Condition * list StepSpec))
  : Result (list (CondFn * Step)) :=
  match branches with
  | [] => Ok []
  | branch :: rest =>
      match buildCondFn registry (fst branch) with
      | Err m => Err m
      | Ok condFn =>
          match buildBranchWorkflow (wf_id workflow) index (snd branch)
                  registry with
          | Err m => Err m
          | Ok branchWorkflow =>
              match buildBranches workflow registry (S index) rest with
              | Err m => Err m
              | Ok entries => Ok ((condFn, asStep branchWorkflow) :: entries)
              end
          end
      end
  end.

Record CompileResult : Type := {
  workflow : Workflow;
  warnings : list SchemaIssue
}.

Definition isError (issue : SchemaIssue) : bool :=
  match severity issue with Error => true | Warning => false end.

Definition isWarning (issue : SchemaIssue) : bool :=
  match severity issue with Warning => true | Error => false end.

(** [`${issue.path}: ${issue.message}`] *)
Definition formatIssue (issue : SchemaIssue) : string :=
  path issue +:+ ": " +:+ message issue.

Definition newline : string := String (ascii_of_nat 10) "".

Definition validationFailure (errors : list SchemaIssue) : string :=
  "Schema validation failed:" +:+ newline
  +:+ Js.join newline (map formatIssue errors).

(** [schema ? toZod(schema) : undefined] *)
Definition toZodIfSet (schema : option JValue) : option Zod :=
  match schema with
  | Some s => if Js.truthy s then Some (toZod s) else None
  | None => None
  end.

Definition compileWorkflow (spec : WorkflowSpec) (registry : HandlerRegistry)
  : Result CompileResult :=
  let issues := validateWorkflowSchemas spec (Some registry) in
  let errors := List.filter isError issues in
  if (0 <? length errors)%nat then Err (validationFailure errors)
  else
    let workflow :=
      createWorkflow (spec_id spec) (toZod (spec_inputSchema spec))
        (toZod (spec_outputSchema spec))
        (toZodIfSet (spec_stateSchema spec))
        (toZodIfSet (spec_requestContextSchema spec))
        (spec_options spec) in
    match applySteps workflow (spec_steps spec) registry with
    | Err m => Err m
    | Ok built =>
        Ok {| workflow := commit built;
              warnings := List.filter isWarning issues |}
    end.

(** ** Running a compiled [bail] step *)

(** What the [execute] of a bail step does: it returns a value, or calls
    the runtime's [bail] with a payload. *)
Inductive Outcome : Type :=
| Returned (value : JValue)
| Bailed (payload : JValue).

Definition bailContext (inputData : option JValue)
  : Templating.TemplateContext :=
  {| Templating.inputData := inputData;
     Templating.steps := JObj [];
     Templating.initData := Some (JObj []);
     Templating.requestContext := JObj [] |}.

Definition notBailed : JValue :=
  JObj [("bailed", JBool false); ("payload", JNull)].

(** The condition part of the closure: the value of [shouldBail]. *)
Definition shouldBail (when : option string) (inputData : option JValue)
  : Result bool :=
  match when with
  | None => Ok true
  | Some bailWhen =>
      if String.eqb bailWhen "" then Ok true
      else
        match Templating.resolveTemplates
                (JObj [("condition", JStr bailWhen)])
                (bailContext inputData) with
        | Err m => Err m
        | Ok conditionResult =>
            Ok (Js.truthyOpt (Js.getProp conditionResult "condition"))
        end
  end.

Definition executeBail (when : option string) (payload : JValue)
  (inputData : option JValue) : Result Outcome :=
  match shouldBail when inputData with
  | Err m => Err m
  | Ok true =>
      match Templating.resolveTemplates payload (bailContext inputData) with
      | Err m => Err m
      | Ok resolvedPayload => Ok (Bailed resolvedPayload)
      end
  | Ok false => Ok (Returned notBailed)
  end.


End Compiler.

(* ===================================================================== *)
(** * Mapping sources ([mappings.ts])                                     *)
(* ===================================================================== *)

(** The helpers that build the entries of a mapping table.  An entry is a
    plain object; the literal value is a value of the data model. *)
Module Mappings.

Definition fromStep (stepId path : string) : JValue :=
  JObj [("from", JStr "step"); ("stepId", JStr stepId); ("path", JStr path)].



Definition literal (value : JValue) : JValue :=
  JObj [("value", value)].

End Mappings.

(* ===================================================================== *)
(** * Running the steps that pause ([compiler.ts])                        *)
(* ===================================================================== *)

(** The [execute] closures [applySteps] creates for [humanInput],
    [suspend] and [resume] steps.  The identifier drawn from
    [crypto.randomUUID()] and the time stamp are inputs of the model. *)
Module Pause.

(** What such a closure does: it returns a result, or it calls the
    runtime's [suspend] with metadata and returns a result after it. *)
Inductive Run (M R : Type) : Type :=
| Returns (result : R)
| Suspends (metadata : M) (result : R).
Arguments Returns {M R} result.
Arguments Suspends {M R} metadata result.

Record HumanInputRequest : Type := {
  request_requestId : string;
  request_prompt : string;
  request_inputType : string;
  request_options : option (list string);
  request_timeout : option Z;
  request_status : string
}.

Record HumanInputOutput : Type := {
  answer : option JValue;
  requestId : JValue
}.

(** [x || fallback] *)
Definition orElse (x : option JValue) (fallback : JValue) : JValue :=
  match x with
  | Some v => if Js.truthy v then v else fallback
  | None => fallback
  end.

Definition executeHumanInput (prompt inputType : string)
  (options : option (list string)) (timeout : option Z)
  (uuid : string) (resumeData : option JValue)
  : Run HumanInputRequest HumanInputOutput :=
  let requestId := uuid in
  if Js.truthyOpt resumeData then
    Returns {| answer := resumeData;
               requestId := orElse (Js.getPropOpt resumeData "requestId")
                              (JStr requestId) |}
  else
    Suspends {| request_requestId := requestId;
                request_prompt := prompt;
                request_inputType := inputType;
                request_options := options;
                request_timeout := timeout;
                request_status := "waiting_for_human_input" |}
      {| answer := None; requestId := JStr requestId |}.

Record SuspendRequest : Type := {
  suspend_suspendId : string;
  suspend_prompt : string;
  suspend_waitFor : string;
  suspend_timeout : option Z;
  suspend_resumeSchema : option JValue;
  suspend_status : string;
  suspend_timestamp : string
}.

Record SuspendOutput : Type := {
  resumed : bool;
  data : option JValue;
  suspendId : string
}.

Definition executeSuspend (prompt waitFor : string) (timeout : option Z)
  (resumeSchema : option JValue) (uuid timestamp : string)
  (resumeData : option JValue) : Run SuspendRequest SuspendOutput :=
  let suspendId := uuid in
  if Js.truthyOpt resumeData then
    Returns {| resumed := true; data := resumeData; suspendId := suspendId |}
  else
    Suspends {| suspend_suspendId := suspendId;
                suspend_prompt := prompt;
                suspend_waitFor := waitFor;
                suspend_timeout := timeout;
                suspend_resumeSchema := resumeSchema;
                suspend_status := "suspended";
                suspend_timestamp := timestamp |}
      {| resumed := false; data := None; suspendId := suspendId |}.

Record ResumeOutput : Type := {
  resume_resumed : bool;
  resume_data : JValue
}.

Definition executeResume (data : JValue) (inputData : option JValue)
  : ResumeOutput :=
  {| resume_resumed := true;
     resume_data := orElse (Js.getPropOpt inputData "data") data |}.

End Pause.


(* ===================================================================== *)
(** * Notions the properties are stated with                              *)
(* ===================================================================== *)

Import Templating Spec Runtime Validation Compiler Registry.

(** ** Path traversal *)

(** A value that path traversal can enter: an object or an array. *)
Definition isContainer (v : JValue) : bool :=
  match v with JObj _ | JArr _ => true | _ => false end.








(** No occurrence of the two characters that open a placeholder. *)
Fixpoint noOpening (s : string) : bool :=
  match s with
  | EmptyString => true
  | String c rest =>
      negb (Ascii.eqb c "$"
            && match rest with
               | String d _ => Ascii.eqb d "{"
               | EmptyString => false
               end)
      && noOpening rest
  end.

(** The pieces of a text without placeholder. *)
Definition literal (s : string) : list Piece :=
  map Lit (list_ascii_of_string s).

(** A context whose input holds a list. *)
Definition listContext : TemplateContext :=
  {| Templating.inputData := Some (JObj [("items", JArr [JStr "a"; JStr "b"])]);
     Templating.steps := JObj [("a", JObj [("value", JStr "x")])];
     Templating.initData := Some (JObj []);
     Templating.requestContext := JObj [("requestId", JNum 42)] |}.


(** ** Fixtures *)

Definition emptyRegistry : HandlerRegistry :=
  {| handlers := ∅; agents := None; tools := None; workflows := None;
     networks := None; voice := None; document := None; graphRag := None;
     evals := None; memory := None; vectorStore := None; rag := None;
     http := None; logger := None; Registry.requestContext := None;
     mcp := None |}.

Definition objectSchema : JValue := JObj [("type", JStr "object")].

Definition emptyWorkflow : Workflow :=
  createWorkflow "wf" (toZod objectSchema) (toZod objectSchema) None None None.


Definition donePayload : JValue := JObj [("reason", JStr "done")].

Definition flagInput (flag : JValue) : option JValue :=
  Some (JObj [("flag", flag)]).

(** ** Issues by kind *)



Definition isMissingKey (issue : SchemaIssue) : bool :=
  String.prefix "Output schema missing required key '" (message issue).


Definition isDuplicateIssue (issue : SchemaIssue) : bool :=
  String.prefix "Duplicate step id '" (message issue).

(** The issues with exactly this message. *)
Definition withMessage (msg : string) (issues : list SchemaIssue)
  : list SchemaIssue :=
  List.filter (fun issue => String.eqb (message issue) msg) issues.

Definition depthOpt (schema : option JValue) : nat :=
  match schema with Some s => depth s | None => O end.

Definition stringSchema : JValue := JObj [("type", JStr "string")].

(** Scenario A of the specification: the producer declares [result], the
    consumer requires [value]. *)
Definition resultSchema : JValue :=
  JObj [("type", JStr "object");
        ("properties", JObj [("result", JObj [("type", JStr "number")])])].

Definition valueSchema : JValue :=
  JObj [("type", JStr "object");
        ("properties", JObj [("value", JObj [("type", JStr "number")])]);
        ("required", JArr [JStr "value"])].

(** The required keys of the consumer that the producer's properties lack. *)
Definition missingKeys (outputSchema inputSchema : JValue) : list string :=
  List.filter (fun key => negb (inProps (getObjectProps outputSchema) key))
    (getRequired inputSchema).

(** A producer schema as the specification describes it: it declares the
    type [object] and the properties [declared], none when it has no
    [properties]. *)
Inductive DeclaresProperties : JValue -> list string -> Prop :=
| declares_properties (fields props : list (string * JValue)) :
    Js.assoc "type" fields = Some (JStr "object") ->
    Js.assoc "properties" fields = Some (JObj props) ->
    DeclaresProperties (JObj fields) (Js.keys props)
| declares_none (fields : list (string * JValue)) :
    Js.assoc "type" fields = Some (JStr "object") ->
    Js.assoc "properties" fields = None ->
    DeclaresProperties (JObj fields) [].

(** A consumer schema: it declares the type [object] and lists the keys
    [required], none when it has no [required]. *)
Inductive RequiresKeys : JValue -> list string -> Prop :=
| requires_keys (fields : list (string * JValue)) (required : list string) :
    Js.assoc "type" fields = Some (JStr "object") ->
    Js.assoc "required" fields = Some (JArr (map JStr required)) ->
    RequiresKeys (JObj fields) required
| requires_none (fields : list (string * JValue)) :
    Js.assoc "type" fields = Some (JStr "object") ->
    Js.assoc "required" fields = None ->
    RequiresKeys (JObj fields) [].

(** A consumer that lists the key [value] twice, and one that requires a
    key named as a member every object inherits. *)
Definition twiceRequired : JValue :=
  JObj [("type", JStr "object");
        ("required", JArr [JStr "value"; JStr "value"])].

Definition inheritedRequired : JValue :=
  JObj [("type", JStr "object"); ("required", JArr [JStr "toString"])].

(** ** The carried-forward shape *)

(** The shape [validateSequence] carries past a step: [prevOutput] after
    the round for [step], given [prevOutput] before it. *)
Definition carry (step : StepSpec) (prevOutput : option JValue)
  : option JValue :=
  match step with
  | SBranch _ | SParallel _ => None
  | SMap _ _ | SWorkflow _ _ => Some opaqueObject
  | SSleep _ _ | SSleepUntil _ _ => prevOutput
  | SForeach _ _ => computeForeachOutput step
  | _ => schemaFromStep step
  end.

(** The shape carried forward to the end of [steps], from [inputSchema] at
    the start. *)
Definition carriedShape (steps : list StepSpec) (inputSchema : option JValue)
  : option JValue :=
  foldl (fun prev step => carry step prev) inputSchema steps.

(** ** Steps of a tree *)

(** [child] is directly nested in [parent]: a step of a branch arm, a
    member of a parallel group, or the body of a foreach or of a loop. *)
Inductive Child (child : StepSpec) : StepSpec -> Prop :=
| child_branch (branches : list (Condition * list StepSpec))
    (condition : Condition) (arm : list StepSpec) :
    In (condition, arm) branches -> In child arm ->
    Child child (SBranch branches)
| child_parallel (members : list StepSpec) :
    In child members -> Child child (SParallel members)
| child_foreach (concurrency : option Z) :
    Child child (SForeach concurrency child)
| child_dowhile (condition : Condition) :
    Child child (SDoWhile child condition)
| child_dountil (condition : Condition) :
    Child child (SDoUntil child condition).

(** [step] occurs in the tree of [steps], at any depth. *)
Inductive Within (steps : list StepSpec) : StepSpec -> Prop :=
| within_top (step : StepSpec) : In step steps -> Within steps step
| within_nested (step parent : StepSpec) :
    Within steps parent -> Child step parent -> Within steps step.

(** The visits of the steps of the arms of a branch, as [visitSteps] makes
    them. *)
Fixpoint visitBranches (branches : list (Condition * list StepSpec))
  (stepPath : string) (branchIndex : nat) : list (StepSpec * string) :=
  match branches with
  | [] => []
  | branch :: rest =>
      visitSteps (snd branch)
        (stepPath +:+ ".branches." +:+ pretty branchIndex +:+ ".steps")
      ++ visitBranches rest stepPath (S branchIndex)
  end.

(** ** Mapping tables of a sequence *)


Definition unknownStepIssue (path key : string) (stepId : option JValue)
  : SchemaIssue :=
  entryIssue path key Error
    ("Mapping references unknown step '" +:+ Js.toStringOpt stepId +:+ "'.").

Definition schemaLeaf (kind : LeafKind) (id : string)
  (inputSchema outputSchema : JValue) : StepSpec :=
  SLeaf {| leaf_kind := kind; leaf_id := id; leaf_inputSchema := inputSchema;
           leaf_outputSchema := outputSchema; leaf_description := None;
           leaf_params := None; leaf_retries := None |}.

Definition stepReference (stepId : string) : JValue :=
  JObj [("from", JStr "step"); ("stepId", JStr stepId); ("path", JStr "value")].


(** Scenario C of the specification. *)
Definition missingReference : list StepSpec :=
  [SMap [("v", stepReference "missing")] (Some "reshape")].


(** ** Occurrences of step ids *)

(** The string ids met by the tree walk, each with the path of the step
    that carries it, in the order of the walk. *)
Fixpoint idOccurrences (visits : list (StepSpec * string))
  : list (string * string) :=
  match visits with
  | [] => []
  | (step, p) :: rest =>
      match stepId step with
      | Some id => (id, p) :: idOccurrences rest
      | None => idOccurrences rest
      end
  end.

(** The path of the first occurrence of [id] among [earlier]. *)
Fixpoint firstOccurrence (id : string) (earlier : list (string * string))
  : option string :=
  match earlier with
  | [] => None
  | (id', p) :: rest =>
      if String.eqb id' id then Some p else firstOccurrence id rest
  end.

(** The error the specification asks for when the step at [later] repeats
    the [id] that the step at [first] had before it: an error at the [id]
    field of the repeating step, whose message cites the [id] field of the
    first. *)
Definition duplicateError (id later first : string) : SchemaIssue :=
  {| path := later +:+ ".id";
     severity := Error;
     message := "Duplicate step id '" +:+ id +:+ "' previously defined at "
                +:+ first +:+ ".id." |}.

(** What the specification asks for: one error for each occurrence of an
    id after the first, at the location of that occurrence and citing the
    location of the first. *)
Fixpoint duplicateErrors (earlier occurrences : list (string * string))
  : list SchemaIssue :=
  match occurrences with
  | [] => []
  | (id, p) :: rest =>
      match firstOccurrence id earlier with
      | Some first =>
          duplicateError id p first
          :: duplicateErrors (earlier ++ [(id, p)]) rest
      | None => duplicateErrors (earlier ++ [(id, p)]) rest
      end
  end.


(** ** Handler targets *)

(** A tree with the same id at three depths, and one with distinct ids. *)
Definition repeatedIds : list StepSpec :=
  [schemaLeaf (KStep "a") "dup" objectSchema objectSchema;
   SParallel [schemaLeaf (KStep "b") "dup" objectSchema objectSchema];
   SForeach None (schemaLeaf (KStep "c") "dup" objectSchema objectSchema)].


Definition specOf (steps : list StepSpec)
  (mode : option SchemaCompatibility) : WorkflowSpec :=
  {| spec_id := "wf"; spec_inputSchema := objectSchema;
     spec_outputSchema := objectSchema; spec_stateSchema := None;
     spec_requestContextSchema := None;
     spec_options :=
       match mode with
       | Some m => Some {| validateInputs := None;
                           schemaCompatibility := Some m;
                           retryConfig := None |}
       | None => None
       end;
     spec_steps := steps |}.

(** A leaf step that targets the handler [recall] of the [memory] bucket. *)
Definition memoryStep : StepSpec :=
  schemaLeaf (KMemory "recall") "remember" objectSchema objectSchema.

(** The handler id a leaf step declares, as [buildStep] derives it. *)
Definition declaredTarget (step : StepSpec) : option string :=
  match step with
  | SLeaf l =>
      match deriveHandlerId l with Ok id => Some id | Err _ => None end
  | _ => None
  end.

(** ** What it means for a target to be absent from the registry *)

(** A name that a bucket may lack: one segment, and not the name of a
    member that every object inherits. *)
Definition plainName (name : string) : Prop :=
  Js.includes "." name = false /\ Js.named name Js.objectMembers = false.

(** The bucket holds nothing under the name. *)
Definition lacks {V} (bucket : option (gmap string V)) (name : string) : Prop :=
  match bucket with
  | Some entries => entries !! name = None
  | None => True
  end.

(** The handler a condition names is not registered: a bare name or the
    id [handlers.<name>] that the [handlers] bucket lacks, an id
    [agent.<name>] that the [agents] lack, an id [tool.<name>] that the
    [tools] lack. *)
Inductive Unregistered (registry : HandlerRegistry) : string -> Prop :=
| unregistered_bare (name : string) :
    plainName name -> handlers registry !! name = None ->
    Unregistered registry name
| unregistered_handler (name : string) :
    plainName name -> handlers registry !! name = None ->
    Unregistered registry ("handlers." +:+ name)
| unregistered_agent (name : string) :
    plainName name -> lacks (agents registry) name ->
    Unregistered registry ("agent." +:+ name)
| unregistered_tool (name : string) :
    plainName name -> lacks (tools registry) name ->
    Unregistered registry ("tool." +:+ name).

(** The leaf steps that name their target by a field other than [action],
    [agent] or [tool]. *)
Definition namesTargetOtherwise (k : LeafKind) : bool :=
  match k with
  | KStep _ | KAgent _ | KTool _ | KMcp _ _ => false
  | _ => true
  end.

Definition isSchemaFailure (m : string) : bool :=
  String.prefix "Schema validation failed:" m.

(** A step with a missing action, nested in a parallel group. *)
Definition sendStep : StepSpec :=
  schemaLeaf (KStep "send") "notify" objectSchema objectSchema.

Definition nestedMissing : list StepSpec := [SParallel [sendStep]].

(** The workflow [compileWorkflow] starts from. *)
Definition initialWorkflow (spec : WorkflowSpec) : Workflow :=
  createWorkflow (spec_id spec) (toZod (spec_inputSchema spec))
    (toZod (spec_outputSchema spec))
    (toZodIfSet (spec_stateSchema spec))
    (toZodIfSet (spec_requestContextSchema spec))
    (spec_options spec).

(** [errors.length > 0] *)
Definition validationErrors (spec : WorkflowSpec) (registry : HandlerRegistry)
  : list SchemaIssue :=
  List.filter isError (validateWorkflowSchemas spec (Some registry)).

(** A foreach with a declared bound, as in the repository's test. *)
Definition itemStep : StepSpec :=
  schemaLeaf (KStep "processItem") "item" objectSchema objectSchema.

Definition itemRegistry : HandlerRegistry :=
  {| handlers := {[ "processItem" := StepHandlerRef 0 ]};
     agents := None; tools := None; workflows := None;
     networks := None; voice := None; document := None; graphRag := None;
     evals := None; memory := None; vectorStore := None; rag := None;
     http := None; logger := None; Registry.requestContext := None;
     mcp := None |}.

(** [step.concurrency ?? 1] *)
Definition forwardedConcurrency (concurrency : option Z) : Z :=
  match concurrency with Some n => n | None => 1%Z end.

(** ** Invariants used in the proofs *)

(** The [seen] map of the visitor holds, for each id met so far, the
    location of its first occurrence. *)
Definition seenAgrees (seen : gmap string string)
  (earlier : list (string * string)) : Prop :=
  forall id, seen !! id
             = match firstOccurrence id earlier with
               | Some p => Some (p +:+ ".id")
               | None => None
               end.

(** The five kinds of issue a pair of schemas can yield. *)
Definition compatibilityIssue (mode : SchemaCompatibility)
  (issue : SchemaIssue) : Prop :=
  exists q,
    (exists outputType inputType,
       issue = typeMismatch q mode outputType inputType)
    \/ issue = nullableIssue q
    \/ issue = enumIssue q mode
    \/ issue = constraintIssue q
    \/ exists key, issue = missingKeyIssue q key.

(** A failure of the round of [step] is no schema validation failure. *)
Definition buildFailsCleanly (step : StepSpec) : Prop :=
  forall workflow registry current m,
    applyStep step workflow registry current = Err m ->
    isSchemaFailure m = false.



(** The name a leaf target is looked up by: its text up to the first dot. *)
Definition firstSegment (name : string) : string :=
  match Js.split "." name with
  | first :: _ => first
  | [] => ""
  end.

(** ** The size of a tree *)



(** ** Values and their resolution *)

(** A value that holds no expression: no string in it has the two
    characters that open a placeholder, and no object in it is a path
    expression. *)
Fixpoint plain (v : JValue) : bool :=
  match v with
  | JStr s => noOpening s
  | JArr items => forallb plain items
  | JObj fields =>
      negb (isPathExpression fields)
      && forallb (fun kv => plain (snd kv)) fields
  | _ => true
  end.

(** The key that an object literal cannot be given by assignment. *)
Definition isProtoKey (key : string) : bool := String.eqb key "__proto__".

(** No object of the value, at any depth, has an entry under that key. *)
Fixpoint protoFree (v : JValue) : bool :=
  match v with
  | JArr items => forallb protoFree items
  | JObj fields =>
      forallb (fun kv => negb (isProtoKey (fst kv)) && protoFree (snd kv))
        fields
  | _ => true
  end.

(** The value without the entries under that key, at every depth. *)
Fixpoint withoutProto (v : JValue) : JValue :=
  match v with
  | JArr items => JArr (map withoutProto items)
  | JObj fields =>
      JObj (List.filter (fun kv => negb (isProtoKey (fst kv)))
              (map (fun kv => (fst kv, withoutProto (snd kv))) fields))
  | _ => v
  end.

(** [resolved] is [value] with its members resolved one by one: the shape
    [resolveTemplates] keeps.  For an object, [results] are the entries in
    the order they are resolved, and the object returned holds those whose
    key is not ["__proto__"]. *)
Definition resolvedMemberwise (context : TemplateContext)
  (value resolved : JValue) : Prop :=
  match value with
  | JStr _ => exists text, resolved = JStr text
  | JArr items =>
      exists results,
        resolved = JArr results
        /\ Forall2 (fun item result => resolveTemplates item context = Ok result)
             items results
  | JObj fields =>
      isPathExpression fields = false ->
      exists results,
        resolved
        = JObj (List.filter (fun kv => negb (isProtoKey (fst kv))) results)
        /\ Js.keys results = Js.keys fields
        /\ Forall2 (fun field result =>
                      resolveTemplates (snd field) context = Ok (snd result))
             fields results
  | _ => resolved = value
  end.






(** ** Handler ids *)

(** The namespace of a handler id: its text up to the first dot, or
    [handlers] when it has no dot. *)
Definition namespaceOf (handlerId : string) : string :=
  fst (splitHandlerId handlerId).

(** The namespaces the resolver serves from a bucket, or under a key, that
    the validator does not look at. *)
Definition divergentNamespaces : list string :=
  ["mcp"; "network"; "tts"; "listen"; "documentChunk"; "documentMetadata";
   "documentTransform"; "graphRagQuery"].

(** Those of them that name no property of a registry. *)
Definition unvalidatedNamespaces : list string :=
  ["network"; "tts"; "listen"; "documentChunk"; "documentMetadata";
   "documentTransform"; "graphRagQuery"].

(** The conditions a step carries: the [when] of each arm of a branch, the
    [condition] of a loop. *)
Definition conditionsOf (step : StepSpec) : list Condition :=
  match step with
  | SBranch branches => map fst branches
  | SDoWhile _ condition | SDoUntil _ condition => [condition]
  | _ => []
  end.

(** The step [buildStep] creates for a leaf whose handler resolved to
    [h]. *)
Definition createdLeaf (l : LeafStep) (h : Resolved) : Step :=
  CreatedStep (Named (leaf_id l)) (leaf_description l)
    (toZod (leaf_inputSchema l)) (toZod (leaf_outputSchema l))
    (leaf_retries l)
    (ExecHandler h (match leaf_params l with
                    | Some params => params
                    | None => JObj []
                    end)).

(** A condition guarded by the handler [handlerId]. *)
Definition conditionOn (handlerId : string) : Condition :=
  {| handler := handlerId; cond_inputSchema := objectSchema;
     cond_outputSchema := objectSchema; cond_params := None |}.

(** A registry that serves the network handler [route]. *)
Definition networkRegistry : HandlerRegistry :=
  {| handlers := {[ "processItem" := StepHandlerRef 0 ]};
     agents := None; tools := None; workflows := None;
     networks := Some {[ "route" := StepHandlerRef 1 ]};
     voice := None; document := None; graphRag := None;
     evals := None; memory := None; vectorStore := None; rag := None;
     http := None; logger := None; Registry.requestContext := None;
     mcp := Some {[ "files.read.text" := StepHandlerRef 2 ]} |}.

(** ** Mapping tables built with the helpers *)






(** How [buildMapping] reads an entry that validation let pass:
    by its [value] when it has one, else by its [from]; an entry read as a
    step reference names an available step. *)
Definition translatedAs (availableSteps : gset string) (mapping : JValue)
  (entry : MapEntry) : Prop :=
  if Js.hasProp "value" mapping
  then entry = MapValue (Js.getProp mapping "value")
  else
    (isFrom (Js.getProp mapping "from") "requestContext" = true
     /\ entry = MapRequestContextPath (Js.getProp mapping "path")
                  (toZod (JObj [])))
    \/ (isFrom (Js.getProp mapping "from") "init" = true
        /\ entry = MapInitData (Js.getProp mapping "path"))
    \/ (isFrom (Js.getProp mapping "from") "step" = true
        /\ exists stepId,
             Js.getProp mapping "stepId" = Some (JStr stepId)
             /\ stepId ∈ availableSteps
             /\ entry = MapStep (Some (JStr stepId)) (Js.getProp mapping "path")).

(** ** The compatibility mode *)

(** Two issues that differ at most in severity, the first being an error
    whenever the second is. *)
Definition sameButSeverity (strict warn : SchemaIssue) : Prop :=
  message strict = message warn
  /\ path strict = path warn
  /\ (severity warn = Error -> severity strict = Error).

(** [spec] with its [schemaCompatibility] option set to [mode]. *)
Definition withMode (spec : WorkflowSpec) (mode : SchemaCompatibility)
  : WorkflowSpec :=
  {| spec_id := spec_id spec;
     spec_inputSchema := spec_inputSchema spec;
     spec_outputSchema := spec_outputSchema spec;
     spec_stateSchema := spec_stateSchema spec;
     spec_requestContextSchema := spec_requestContextSchema spec;
     spec_options :=
       Some {| validateInputs :=
                 match spec_options spec with
                 | Some options => validateInputs options
                 | None => None
                 end;
               schemaCompatibility := Some mode;
               retryConfig :=
                 match spec_options spec with
                 | Some options => retryConfig options
                 | None => None
                 end |};
     spec_steps := spec_steps spec |}.

(** The three kinds of error that do not depend on the mode. *)
Definition isStructuralError (issue : SchemaIssue) : bool :=
  String.prefix "Mapping " (message issue)
  || isDuplicateIssue issue
  || String.prefix "Missing " (message issue).

(** What a round of [applySteps] does to the workflow built so far. *)
Definition appendTo (current : Workflow) (r : Result Op) : Result Workflow :=
  match r with
  | Ok op => Ok (addOp current op)
  | Err m => Err m
  end.

(** ** Steps in sequence *)

(** [step] stands in a sequence the compiler applies: the top-level
    sequence, or an arm of a branch that stands in such a sequence. *)
Inductive Sequenced (steps : list StepSpec) : StepSpec -> Prop :=
| sequenced_top (step : StepSpec) : In step steps -> Sequenced steps step
| sequenced_arm (step : StepSpec)
    (branches : list (Condition * list StepSpec))
    (condition : Condition) (arm : list StepSpec) :
    Sequenced steps (SBranch branches) ->
    In (condition, arm) branches -> In step arm ->
    Sequenced steps step.

(** A step that may stand as a member of a parallel group or as the body
    of a foreach or of a loop: a leaf step or a reference to a registered
    workflow. *)
Definition isMemberStep (step : StepSpec) : bool :=
  match step with
  | SLeaf _ | SWorkflow _ _ => true
  | _ => false
  end.

(** The steps nested directly in a step that is no branch. *)
Definition membersOf (step : StepSpec) : list StepSpec :=
  match step with
  | SParallel members => members
  | SForeach _ body | SDoWhile body _ | SDoUntil body _ => [body]
  | _ => []
  end.

Definition isMcpStep (step : StepSpec) : bool :=
  match step with
  | SLeaf l => negb (appliedAsLeaf (leaf_kind l))
  | _ => false
  end.

(** ** Shapes *)

(** The schema of the arrays whose items have the schema [items]. *)
Definition arrayOf (items : JValue) : JValue :=
  JObj [("type", JStr "array"); ("items", items)].

(** The path of the arm [branchIndex] of the branch at [index] of the
    sequence at [p]. *)
Definition armPath (p : string) (index branchIndex : nat) : string :=
  p +:+ ".branch." +:+ pretty index +:+ ".branches." +:+ pretty branchIndex.

(** ** Branch arms *)

(** No step of the sequence carries schemas. *)
Definition noSchemaStep (steps : list StepSpec) : Prop :=
  Forall (fun step => isSchemaStep step = false) steps.

(** The step an arm of a branch is compiled to: a committed workflow named
    after its parent and its position, with the schemas derived from the
    arm and a graph of [size] operations. *)
Definition isArmWorkflow (parentId : string) (branchIndex : nat)
  (arm : list StepSpec) (step : Step) : Prop :=
  exists graph,
    step = WorkflowAsStep (parentId +:+ ".branch." +:+ pretty branchIndex)
             (toZod (fst (deriveWorkflowSchemas arm)))
             (toZod (snd (deriveWorkflowSchemas arm)))
             None None None graph true
    /\ length graph = length arm.

(** ** Steps that pause *)

(** The run returned without suspending. *)
Definition returned {M R} (run : Pause.Run M R) : option R :=
  match run with
  | Pause.Returns result => Some result
  | Pause.Suspends _ _ => None
  end.

(** The run suspended: the metadata handed over and the result returned
    after it. *)
Definition suspended {M R} (run : Pause.Run M R) : option (M * R) :=
  match run with
  | Pause.Returns _ => None
  | Pause.Suspends metadata result => Some (metadata, result)
  end.

(** ** The steps validation answers for *)

(** A leaf step whose target the validator looks up where the builder
    does: an action that is not empty, an agent or a tool. *)
Definition isCheckedLeaf (l : LeafStep) : bool :=
  match leaf_kind l with
  | KStep action => negb (String.eqb action "")
  | KAgent _ | KTool _ => true
  | _ => false
  end.

(** Such a leaf, or a reference to a workflow: what may stand in a
    parallel group, a foreach or a loop. *)
Definition isCheckedMember (step : StepSpec) : bool :=
  match step with
  | SLeaf l => isCheckedLeaf l
  | SWorkflow _ _ => true
  | _ => false
  end.

(** A condition whose handler lies in a namespace on which the validator
    and the resolver agree. *)
Definition isCheckedCondition (c : Condition) : bool :=
  negb (inb (namespaceOf (handler c)) divergentNamespaces).

(** The steps built from these: in sequence, checked leaves, the control
    steps, [map] and [workflow] steps; groups, foreach and loops over
    checked members; branches whose arms are such sequences.  Loops and
    branches are guarded by checked conditions. *)
Fixpoint isChecked (step : StepSpec) : bool :=
  match step with
  | SLeaf l => isCheckedLeaf l
  | SForeach _ body => isCheckedMember body
  | SParallel members => forallb isCheckedMember members
  | SDoWhile body condition | SDoUntil body condition =>
      isCheckedMember body && isCheckedCondition condition
  | SBranch branches =>
      forallb (fun branch =>
                 isCheckedCondition (fst branch)
                 && forallb isChecked (snd branch)) branches
  | _ => true
  end.

(** The validator finds every target of [step] in the registry. *)
Definition targetsFound (registry : HandlerRegistry) (step : StepSpec)
  : Prop :=
  exists stepPath, visitHandlers registry (step, stepPath) = [].

(** What validation without error gives for a round of [applySteps]:
    the round of a checked step whose targets, and those of the steps
    nested in it, are found, and whose issues are warnings, succeeds. *)
Definition roundSucceeds (registry : HandlerRegistry) (step : StepSpec)
  : Prop :=
  isChecked step = true ->
  (forall nested, Within [step] nested -> targetsFound registry nested) ->
  forall avail p mode index prev,
    (forall issue,
       In issue (fst (validateStep step avail p mode index prev)) ->
       severity issue = Warning) ->
    forall w current, isOk (applyStep step w registry current) = true.

(** ** A schema against itself *)

Definition isPrimitive (v : JValue) : bool :=
  match v with
  | JArr _ | JObj _ => false
  | _ => true
  end.

(** The members of the [enum] of the schema, and of the [enum]s of the
    item schemas below it, are primitive values: values that compare by
    what they hold. *)
Inductive PrimitiveEnums : JValue -> Prop :=
| primitive_enums (schema : JValue) :
    (forall values, Js.getProp schema "enum" = Some (JArr values) ->
                    forallb isPrimitive values = true) ->
    (forall items, getArrayItems schema = Some items -> PrimitiveEnums items) ->
    PrimitiveEnums schema.

(** A schema that requires a key it does not declare. *)
Definition requiringSchema : JValue :=
  JObj [("type", JStr "object"); ("required", JArr [JStr "value"])].

(* ===================================================================== *)
(** * Properties                                                          *)
(* ===================================================================== *)

(** ** Strings and results *)

#[local] Arguments String.append !s1 s2 : simpl nomatch.

Lemma string_app_nil_r (s : string) : s +:+ "" = s.
Proof. induction s as [|c s IH]; simpl; [reflexivity | now rewrite IH]. Qed.

Lemma string_app_assoc (a b c : string) : (a +:+ b) +:+ c = a +:+ b +:+ c.
Proof. induction a as [|x a IH]; simpl; [reflexivity | now rewrite IH]. Qed.

Lemma string_app_length (a b : string) :
  String.length (a +:+ b) = (String.length a + String.length b)%nat.
Proof. induction a as [|x a IH]; simpl; [reflexivity | now rewrite IH]. Qed.

Lemma string_app_cons (c : ascii) (a b : string) :
  String c a +:+ b = String c (a +:+ b).
Proof. reflexivity. Qed.

Lemma concat_empty_cons (x : string) (l : list string) :
  String.concat "" (x :: l) = x +:+ String.concat "" l.
Proof. destruct l; simpl; [now rewrite string_app_nil_r | reflexivity]. Qed.



(** ** The expression resolver *)

Lemma container_guard (c : JValue) :
  negb (Js.truthy c) || negb (Js.typeofObject c) = negb (isContainer c).
Proof.
  destruct c as [|[]|n|s| |]; try reflexivity; simpl.
  - now destruct (n =? 0)%Z.
  - now destruct (String.eqb s "").
Qed.







(** ** The interpolation pattern *)






Lemma resolve_literal (context : TemplateContext) (pre : string) :
  mapR (resolvePiece context) (literal pre)
  = Ok (map (fun c => String c "") (list_ascii_of_string pre)).
Proof.
  unfold literal. induction pre as [|c pre IH]; [reflexivity|].
  simpl. now rewrite IH.
Qed.

Lemma concat_chars (pre : string) :
  String.concat "" (map (fun c => String c "") (list_ascii_of_string pre)) = pre.
Proof.
  induction pre as [|c pre IH]; [reflexivity|].
  change (list_ascii_of_string (String c pre)) with (c :: list_ascii_of_string pre).
  rewrite map_cons, concat_empty_cons, IH. reflexivity.
Qed.







(** ** The bail step *)





(** The condition is resolved to a text, so a flag that is [false] reads
    as the non-empty text ["false"] and the step bails all the same. *)
Example bail_on_false_flag :
  executeBail (Some "${input.flag}") donePayload (flagInput (JBool false))
  = Ok (Bailed donePayload).
Proof. reflexivity. Qed.

(** ** Schema compatibility *)

Lemma string_app_inv_tail (a b c : string) : a +:+ c = b +:+ c -> a = b.
Proof.
  revert b. induction a as [|x a IH]; intros [|y b] H; simpl in H.
  - reflexivity.
  - exfalso. apply (f_equal String.length) in H. simpl in H.
    rewrite string_app_length in H. lia.
  - exfalso. apply (f_equal String.length) in H. simpl in H.
    rewrite string_app_length in H. lia.
  - injection H as -> H. f_equal. now apply IH.
Qed.


Lemma prefix_nil (s : string) : String.prefix "" s = true.
Proof. now destruct s. Qed.

Lemma prefix_app (p s : string) : String.prefix p (p +:+ s) = true.
Proof.
  induction p as [|c p IH]; simpl; [apply prefix_nil|].
  destruct (ascii_dec c c); [exact IH | contradiction].
Qed.


Lemma normalizeSchema_id (schema : JValue) : normalizeSchema schema = schema.
Proof.
  unfold normalizeSchema. destruct (notRecord schema); [reflexivity|].
  now destruct (0 <? length (getUnionSchemas schema))%nat.
Qed.

Lemma assoc_depth (key : string) (fields : list (string * JValue)) (v : JValue) :
  Js.assoc key fields = Some v ->
  (depth v <= foldr (fun kv acc => Nat.max (depth (snd kv)) acc) O fields)%nat.
Proof.
  induction fields as [|[k x] rest IH]; simpl; [discriminate|].
  destruct (String.eqb k key).
  - intros H. injection H as ->. lia.
  - intros H. specialize (IH H). lia.
Qed.

Lemma getArrayItems_depth (schema items : JValue) :
  getArrayItems schema = Some items -> (depth items < depth schema)%nat.
Proof.
  unfold getArrayItems. destruct (notRecord schema) eqn:Hn; [discriminate|].
  destruct (negb (Js.isStr (Js.getProp schema "type") "array")); [discriminate|].
  destruct schema as [| | | |xs|fields]; try discriminate.
  simpl Js.getProp.
  destruct (Js.assoc "items" fields) as [v|] eqn:Hv; [|discriminate].
  destruct (negb (Js.truthy v) || negb (Js.typeofObject v)); [discriminate|].
  intros H. injection H as <-. apply assoc_depth in Hv. simpl. lia.
Qed.

(** The body only calls itself on the item schemas of the producer. *)
Lemma compatibilityBody_ext
  (r1 r2 : option JValue -> option JValue -> string -> list SchemaIssue)
  (o i : option JValue) (p : string) (mode : SchemaCompatibility) :
  (forall o' i' items, o = Some o' -> getArrayItems o' = Some items ->
                       r1 (Some items) i' (p +:+ ".items")
                       = r2 (Some items) i' (p +:+ ".items")) ->
  compatibilityBody r1 o i p mode = compatibilityBody r2 o i p mode.
Proof.
  intros H. unfold compatibilityBody.
  destruct o as [o'|]; [|reflexivity]. destruct i as [i'|]; [|reflexivity].
  rewrite !normalizeSchema_id.
  destruct (negb (Js.truthy o') || negb (Js.truthy i')); [reflexivity|].
  destruct (negb (typeIncludes _ _)); [reflexivity|].
  do 4 f_equal.
  destruct (isTypeName _ "array" && isTypeName _ "array"); [|reflexivity].
  destruct (getArrayItems o') as [oi|] eqn:Ho; [|reflexivity].
  destruct (getArrayItems i') as [ii|]; [|reflexivity].
  now apply (H o').
Qed.

Lemma compatibilityFuel_enough (f1 f2 : nat) (o i : option JValue)
  (p : string) (mode : SchemaCompatibility) :
  (depthOpt o < f1)%nat -> (depthOpt o < f2)%nat ->
  compatibilityFuel f1 o i p mode = compatibilityFuel f2 o i p mode.
Proof.
  revert f2 o i p. induction f1 as [|f1 IH]; intros f2 o i p H1 H2; [lia|].
  destruct f2 as [|f2]; [lia|]. simpl.
  apply compatibilityBody_ext. intros o' i' items -> Hitems.
  apply getArrayItems_depth in Hitems. simpl in H1, H2.
  apply IH; simpl; lia.
Qed.

(** The recursive equation of [validateSchemaCompatibility], as the source
    has it: the depth of the producer schema is fuel enough. *)
Lemma validateSchemaCompatibility_unfold (o i : option JValue) (p : string)
  (mode : SchemaCompatibility) :
  validateSchemaCompatibility o i p mode =
  compatibilityBody
    (fun o' i' p' => validateSchemaCompatibility o' i' p' mode) o i p mode.
Proof.
  unfold validateSchemaCompatibility at 1. simpl.
  apply compatibilityBody_ext. intros o' i' items -> Hitems.
  apply getArrayItems_depth in Hitems. unfold validateSchemaCompatibility.
  apply compatibilityFuel_enough; simpl; lia.
Qed.

Lemma getSchemaType_record (schema : JValue) (t : SchemaType) :
  getSchemaType schema = Some t -> Js.truthy schema = true.
Proof.
  unfold getSchemaType, notRecord. destruct (Js.truthy schema); [reflexivity|].
  discriminate.
Qed.

Lemma compatibilityFuel_paths (fuel : nat) (o i : option JValue) (p : string)
  (mode : SchemaCompatibility) (issue : SchemaIssue) :
  In issue (compatibilityFuel fuel o i p mode) ->
  exists suffix, path issue = p +:+ suffix.
Proof.
  revert o i p.
  induction fuel as [|fuel IH]; intros o i p H; [simpl in H; contradiction|].
  simpl in H. unfold compatibilityBody in H.
  destruct o as [o'|]; [|contradiction]. destruct i as [i'|]; [|contradiction].
  destruct (negb (Js.truthy o') || negb (Js.truthy i')); [contradiction|].
  assert (Hhere : forall x, path x = p -> exists suffix, path x = p +:+ suffix).
  { intros x ->. exists "". now rewrite string_app_nil_r. }
  destruct (negb (typeIncludes _ _)).
  { destruct H as [<-|[]]. now apply Hhere. }
  repeat (apply in_app_or in H as [H|H]).
  - destruct (_ && _); [|contradiction]. destruct H as [<-|[]]. now apply Hhere.
  - destruct (negb _); [|contradiction]. destruct H as [<-|[]]. now apply Hhere.
  - destruct (_ && _); [|contradiction]. destruct H as [<-|[]]. now apply Hhere.
  - destruct (_ && _); [|contradiction].
    apply in_map_iff in H as (key & <- & _). now apply Hhere.
  - destruct (_ && _); [|contradiction].
    destruct (getArrayItems _) as [oi|]; [|contradiction].
    destruct (getArrayItems _) as [ii|]; [|contradiction].
    apply IH in H as [suffix Hs]. exists (".items" +:+ suffix).
    now rewrite Hs, string_app_assoc.
Qed.

(** Every issue of a pair lies at the pair's path or below it. *)
Lemma compatibility_paths (o i : option JValue) (p : string)
  (mode : SchemaCompatibility) (issue : SchemaIssue) :
  In issue (validateSchemaCompatibility o i p mode) ->
  exists suffix, path issue = p +:+ suffix.
Proof. apply compatibilityFuel_paths. Qed.


Lemma inb_In (x : string) (l : list string) : inb x l = true <-> In x l.
Proof.
  unfold inb. rewrite existsb_exists. split.
  - intros (y & Hy & E). apply String.eqb_eq in E. now subst.
  - intros H. exists x. split; [assumption | apply String.eqb_refl].
Qed.




(** ** Required keys *)

Lemma filter_app_list {A} (f : A -> bool) (l1 l2 : list A) :
  List.filter f (l1 ++ l2) = List.filter f l1 ++ List.filter f l2.
Proof. induction l1 as [|x l1 IH]; simpl; [reflexivity|]. destruct (f x); simpl; now rewrite IH. Qed.

Lemma filter_all {A} (f : A -> bool) (l : list A) :
  (forall x, In x l -> f x = true) -> List.filter f l = l.
Proof.
  induction l as [|x l IH]; intros H; [reflexivity|]. simpl.
  rewrite (H x (or_introl eq_refl)). f_equal. apply IH. intros y Hy.
  apply H. now right.
Qed.

Lemma filter_none {A} (f : A -> bool) (l : list A) :
  (forall x, In x l -> f x = false) -> List.filter f l = [].
Proof.
  induction l as [|x l IH]; intros H; [reflexivity|]. simpl.
  rewrite (H x (or_introl eq_refl)). apply IH. intros y Hy. apply H. now right.
Qed.

Lemma isMissingKey_missingKeyIssue (p key : string) :
  isMissingKey (missingKeyIssue p key) = true.
Proof.
  apply prefix_app with (p := "Output schema missing required key '")
                        (s := key +:+ "' expected by next step input.").
Qed.

Lemma missingKeyIssue_inj (p k1 k2 : string) :
  message (missingKeyIssue p k1) = message (missingKeyIssue p k2) -> k1 = k2.
Proof.
  simpl. intros H. injection H as H.
  change (k1 +:+ "' expected by next step input." =
          k2 +:+ "' expected by next step input.") in H.
  now apply string_app_inv_tail in H.
Qed.

(** What an object-typed pair yields: the three optional issues of the
    null, enum and constraint rules, then one issue per missing key. *)
Lemma object_pair_issues (outputSchema inputSchema : JValue) (p : string)
  (mode : SchemaCompatibility) :
  getSchemaType outputSchema = Some (TypeName "object") ->
  getSchemaType inputSchema = Some (TypeName "object") ->
  validateSchemaCompatibility (Some outputSchema) (Some inputSchema) p mode =
  (if isNullable inputSchema && negb (isNullable outputSchema)
   then [nullableIssue p] else [])
  ++ (if negb (isEnumCompatible outputSchema inputSchema)
      then [enumIssue p mode] else [])
  ++ (if (0 <? length (getScalarConstraints inputSchema))%nat
         && (length (getScalarConstraints outputSchema) =? 0)%nat
      then [constraintIssue p] else [])
  ++ map (missingKeyIssue p) (missingKeys outputSchema inputSchema).
Proof.
  intros Ho Hi.
  pose proof (getSchemaType_record _ _ Ho) as Hto.
  pose proof (getSchemaType_record _ _ Hi) as Hti.
  rewrite validateSchemaCompatibility_unfold. unfold compatibilityBody.
  rewrite !normalizeSchema_id, Hto, Hti, Ho, Hi. simpl.
  now rewrite app_nil_r.
Qed.

Lemma assoc_named (key : string) (fields : list (string * JValue)) :
  match Js.assoc key fields with Some _ => true | None => false end
  = Js.named key (Js.keys fields).
Proof.
  unfold Js.named, Js.keys.
  induction fields as [|[k v] fields IH]; [reflexivity|].
  cbn [Js.assoc map fst existsb]. rewrite (String.eqb_sym key k).
  now destruct (String.eqb k key).
Qed.

(** What the validator reads off a producer that declares properties: its
    type, and for a key that names no inherited member, whether the key
    is declared. *)
Lemma declared_properties (schema : JValue) (declared : list string) :
  DeclaresProperties schema declared ->
  getSchemaType schema = Some (TypeName "object")
  /\ forall key, Js.named key Js.objectMembers = false ->
                 inProps (getObjectProps schema) key = Js.named key declared.
Proof.
  intros [fields props Ht Hp | fields Ht Hp].
  - split.
    + unfold getSchemaType. cbn [notRecord Js.truthy Js.isArray negb orb Js.getProp].
      now rewrite Ht.
    + intros key Hk. unfold getObjectProps.
      cbn [notRecord Js.truthy Js.isArray negb orb Js.getProp].
      rewrite Ht, Hp. cbn [Js.isStr Js.truthy Js.typeofObject negb orb inProps].
      rewrite ?String.eqb_refl. cbn [negb inProps].
      unfold Js.isIn, Js.hasProp. cbn [Js.getProp Js.inherits].
      now rewrite Hk, orb_false_r, assoc_named.
  - split.
    + unfold getSchemaType. cbn [notRecord Js.truthy Js.isArray negb orb Js.getProp].
      now rewrite Ht.
    + intros key Hk. unfold getObjectProps.
      cbn [notRecord Js.truthy Js.isArray negb orb Js.getProp].
      rewrite Ht, Hp. cbn [Js.isStr negb inProps].
      rewrite ?String.eqb_refl. cbn [negb inProps].
      unfold Js.isIn, Js.hasProp. cbn [Js.getProp Js.assoc Js.inherits].
      now rewrite Hk.
Qed.

Lemma omap_strings (keys : list string) :
  omap (fun item => match item with JStr s => Some s | _ => None end)
    (map JStr keys) = keys.
Proof.
  induction keys as [|k keys IH]; [reflexivity|].
  simpl. f_equal. exact IH.
Qed.

Lemma required_keys (schema : JValue) (required : list string) :
  RequiresKeys schema required ->
  getSchemaType schema = Some (TypeName "object")
  /\ getRequired schema = required.
Proof.
  intros [fields keys Ht Hr | fields Ht Hr]; split;
    unfold getSchemaType, getRequired;
    cbn [notRecord Js.truthy Js.isArray negb orb Js.getProp];
    rewrite ?Ht, ?Hr; try reflexivity.
  apply omap_strings.
Qed.

Lemma filter_ext_in_list {A} (f g : A -> bool) (l : list A) :
  (forall x, In x l -> f x = g x) -> List.filter f l = List.filter g l.
Proof.
  induction l as [|x l IH]; intros H; [reflexivity|]. cbn [List.filter].
  rewrite (H x (or_introl eq_refl)), IH; [reflexivity|].
  intros y Hy. apply H. now right.
Qed.

(** The issues that carry the message for [key], among the issues for the
    missing listings: one for each listing of the key. *)
Lemma withMessage_listings (p key : string) (keep : string -> bool)
  (keys : list string) :
  keep key = true ->
  length (withMessage (message (missingKeyIssue p key))
            (map (missingKeyIssue p) (List.filter keep keys)))
  = count_occ string_dec keys key.
Proof.
  intros Hkeep. unfold withMessage.
  induction keys as [|k keys IH]; [reflexivity|].
  cbn [List.filter count_occ]. destruct (string_dec k key) as [->|Hne].
  - rewrite Hkeep. cbn [map List.filter]. rewrite String.eqb_refl.
    cbn [length]. now rewrite IH.
  - assert (Hmsg : String.eqb (message (missingKeyIssue p k))
                     (message (missingKeyIssue p key)) = false).
    { apply String.eqb_neq. intros E. now apply missingKeyIssue_inj in E. }
    destruct (keep k); [|exact IH].
    cbn [map List.filter]. now rewrite Hmsg.
Qed.

Lemma withMessage_declared (p key : string) (keep : string -> bool)
  (keys : list string) :
  keep key = false ->
  withMessage (message (missingKeyIssue p key))
    (map (missingKeyIssue p) (List.filter keep keys)) = [].
Proof.
  intros Hkeep. unfold withMessage. apply filter_none.
  intros x Hx. apply in_map_iff in Hx as (k & <- & Hk).
  apply filter_In in Hk as [_ Hk].
  apply String.eqb_neq. intros E. apply missingKeyIssue_inj in E.
  subst k. congruence.
Qed.

(** C9 (as amended).  For a producer and a consumer schema that both
    declare the type [object], in either mode: the missing-key issues of
    the pair are, in order, one for each entry of the consumer's
    [required] list whose key is not among the properties the producer
    declares; each is a warning at the path of the pair, never an error;
    a missing key has as many issues as the list has entries for it, and a
    declared key has none.  The required keys are taken not to name a
    member that every object inherits. *)
Theorem missing_required_keys (outputSchema inputSchema : JValue)
  (declared required : list string) (p : string) (mode : SchemaCompatibility) :
  DeclaresProperties outputSchema declared ->
  RequiresKeys inputSchema required ->
  Forall (fun key => Js.named key Js.objectMembers = false) required ->
  let issues :=
    validateSchemaCompatibility (Some outputSchema) (Some inputSchema) p mode in
  let warning := fun key =>
    {| path := p; severity := Warning;
       message := "Output schema missing required key '" +:+ key
                  +:+ "' expected by next step input." |} in
  List.filter isMissingKey issues
  = map warning
      (List.filter (fun key => negb (Js.named key declared)) required)
  /\ (forall issue,
        In issue issues -> isMissingKey issue = true ->
        severity issue = Warning)
  /\ (forall key,
        Js.named key declared = false ->
        length (withMessage (message (warning key)) issues)
        = count_occ string_dec required key)
  /\ (forall key,
        Js.named key declared = true ->
        withMessage (message (warning key)) issues = []).
Proof.
  intros Hdeclares Hrequires Hplain issues warning.
  destruct (declared_properties _ _ Hdeclares) as [Ho Hin].
  destruct (required_keys _ _ Hrequires) as [Hi Hreq].
  assert (Hmissing : missingKeys outputSchema inputSchema
                     = List.filter (fun key => negb (Js.named key declared))
                         required).
  { unfold missingKeys. rewrite Hreq. apply filter_ext_in_list.
    intros key Hkey. f_equal. apply Hin.
    rewrite List.Forall_forall in Hplain. now apply Hplain. }
  unfold issues. rewrite (object_pair_issues _ _ p mode Ho Hi), Hmissing.
  set (missing := List.filter (fun key => negb (Js.named key declared)) required).
  assert (Hfilter : forall f : SchemaIssue -> bool,
    f (nullableIssue p) = false -> f (enumIssue p mode) = false ->
    f (constraintIssue p) = false ->
    List.filter f
      ((if isNullable inputSchema && negb (isNullable outputSchema)
        then [nullableIssue p] else [])
       ++ (if negb (isEnumCompatible outputSchema inputSchema)
           then [enumIssue p mode] else [])
       ++ (if (0 <? length (getScalarConstraints inputSchema))%nat
              && (length (getScalarConstraints outputSchema) =? 0)%nat
           then [constraintIssue p] else [])
       ++ map (missingKeyIssue p) missing)
    = List.filter f (map (missingKeyIssue p) missing)).
  { intros f H1 H2 H3. rewrite !filter_app_list.
    destruct (_ && _); destruct (negb _); destruct (_ && _); simpl;
      rewrite ?H1, ?H2, ?H3; reflexivity. }
  split; [|split; [|split]].
  - rewrite Hfilter by reflexivity. apply filter_all.
    intros x Hx. apply in_map_iff in Hx as (key & <- & _).
    apply isMissingKey_missingKeyIssue.
  - intros issue Hin' Hmk.
    assert (Hin'' : In issue (List.filter isMissingKey
      ((if isNullable inputSchema && negb (isNullable outputSchema)
        then [nullableIssue p] else [])
       ++ (if negb (isEnumCompatible outputSchema inputSchema)
           then [enumIssue p mode] else [])
       ++ (if (0 <? length (getScalarConstraints inputSchema))%nat
              && (length (getScalarConstraints outputSchema) =? 0)%nat
           then [constraintIssue p] else [])
       ++ map (missingKeyIssue p) missing)))
      by (apply filter_In; split; assumption).
    rewrite Hfilter in Hin'' by reflexivity.
    apply filter_In in Hin'' as [Hin'' _].
    apply in_map_iff in Hin'' as (key & <- & _). reflexivity.
  - intros key Hkey. unfold withMessage. rewrite Hfilter by reflexivity.
    apply (withMessage_listings p key
             (fun key => negb (Js.named key declared)) required).
    now rewrite Hkey.
  - intros key Hkey. unfold withMessage. rewrite Hfilter by reflexivity.
    apply (withMessage_declared p key
             (fun key => negb (Js.named key declared)) required).
    now rewrite Hkey.
Qed.

Lemma missing_required_keys_witness :
  List.filter isMissingKey
    (validateSchemaCompatibility (Some resultSchema) (Some valueSchema)
       "wf.steps.1" Strict)
  = [{| path := "wf.steps.1"; severity := Warning;
        message := "Output schema missing required key 'value' expected by next step input." |}].
Proof.
  assert (Hd : DeclaresProperties resultSchema ["result"]).
  { apply (declares_properties _ [("result", JObj [("type", JStr "number")])]);
      reflexivity. }
  assert (Hr : RequiresKeys valueSchema ["value"]).
  { apply (requires_keys _ ["value"]); reflexivity. }
  assert (Hp : Forall (fun key => Js.named key Js.objectMembers = false)
                 ["value"]).
  { apply List.Forall_cons; [reflexivity | apply List.Forall_nil]. }
  apply (proj1 (missing_required_keys resultSchema valueSchema
                  ["result"] ["value"] "wf.steps.1" Strict Hd Hr Hp)).
Defined.

(** C9, as stated, fails: a key that the consumer lists twice and the
    producer does not declare yields two warnings, not exactly one, in
    either mode. *)
Lemma required_key_listed_twice :
  DeclaresProperties resultSchema ["result"]
  /\ RequiresKeys twiceRequired ["value"; "value"]
  /\ validateSchemaCompatibility (Some resultSchema) (Some twiceRequired)
       "wf.steps.1" Strict
     = [{| path := "wf.steps.1"; severity := Warning;
           message := "Output schema missing required key 'value' expected by next step input." |};
        {| path := "wf.steps.1"; severity := Warning;
           message := "Output schema missing required key 'value' expected by next step input." |}]
  /\ validateSchemaCompatibility (Some resultSchema) (Some twiceRequired)
       "wf.steps.1" Warn
     = validateSchemaCompatibility (Some resultSchema) (Some twiceRequired)
         "wf.steps.1" Strict
  /\ length (List.filter isMissingKey
               (validateSchemaCompatibility (Some resultSchema)
                  (Some twiceRequired) "wf.steps.1" Strict)) <> 1%nat.
Proof.
  split.
  { apply (declares_properties _ [("result", JObj [("type", JStr "number")])]);
      reflexivity. }
  split; [apply (requires_keys _ ["value"; "value"]); reflexivity|].
  split; [reflexivity|]. split; [reflexivity|]. vm_compute. discriminate.
Qed.

(** A required key that names a member every object inherits is found by
    the [in] test whatever the producer declares: the pair yields no
    issue for it. *)
Example inherited_key_not_reported :
  validateSchemaCompatibility (Some resultSchema) (Some inheritedRequired)
    "wf.steps.1" Strict = [].
Proof. reflexivity. Qed.

(** ** The structure of steps *)

Section StepSpec_induction.

Variable P : StepSpec -> Prop.

Hypothesis P_leaf : forall l, P (SLeaf l).
Hypothesis P_sleep : forall ms id, P (SSleep ms id).
Hypothesis P_sleepUntil : forall date id, P (SSleepUntil date id).
Hypothesis P_humanInput : forall prompt inputType options timeout id,
  P (SHumanInput prompt inputType options timeout id).
Hypothesis P_bail : forall when payload id, P (SBail when payload id).
Hypothesis P_map : forall mappings id, P (SMap mappings id).
Hypothesis P_foreach : forall concurrency body,
  P body -> P (SForeach concurrency body).
Hypothesis P_branch : forall branches,
  Forall (fun branch => Forall P (snd branch)) branches -> P (SBranch branches).
Hypothesis P_parallel : forall members, Forall P members -> P (SParallel members).
Hypothesis P_dowhile : forall body condition,
  P body -> P (SDoWhile body condition).
Hypothesis P_dountil : forall body condition,
  P body -> P (SDoUntil body condition).
Hypothesis P_workflow : forall workflowId inputMapping,
  P (SWorkflow workflowId inputMapping).
Hypothesis P_suspend : forall id prompt waitFor timeout resumeSchema,
  P (SSuspend id prompt waitFor timeout resumeSchema).
Hypothesis P_resume : forall id data, P (SResume id data).

Lemma StepSpec_nested_ind (s : StepSpec) : P s.
Proof.
  revert s. fix IH 1. intros [l|ms id|date id|pr it op ti id|w pl id|m id
                             |conc body|branches|members|body c|body c|w im
                             |id pr wa ti rs|id d].
  - apply P_leaf.
  - apply P_sleep.
  - apply P_sleepUntil.
  - apply P_humanInput.
  - apply P_bail.
  - apply P_map.
  - apply P_foreach, IH.
  - apply P_branch. induction branches as [|[c arm] rest IHrest].
    + constructor.
    + constructor; [|exact IHrest]. cbn [snd].
      induction arm as [|x arm IHarm]; constructor; [apply IH | exact IHarm].
  - apply P_parallel.
    induction members as [|x members IHm]; constructor; [apply IH | exact IHm].
  - apply P_dowhile, IH.
  - apply P_dountil, IH.
  - apply P_workflow.
  - apply P_suspend.
  - apply P_resume.
Qed.

End StepSpec_induction.

(** ** The sequence walk *)

Lemma validateStep_branch (branches : list (Condition * list StepSpec))
  (avail : gset string) (p : string) (mode : SchemaCompatibility)
  (index : nat) (prev : option JValue) :
  validateStep (SBranch branches) avail p mode index prev
  = (branchIssues prev p index mode O branches, None).
Proof.
  cbn [validateStep]. f_equal. generalize O at 2 3.
  induction branches as [|[c arm] rest IH]; intros bi; [reflexivity|].
  cbn [branchIssues snd]. f_equal. f_equal; [|apply IH].
  unfold validateSequence. generalize (collectIds arm) as ids.
  generalize O as i. generalize prev as q.
  induction arm as [|s arm IHarm]; intros q i ids; [reflexivity|].
  cbn [sequenceLoop]. f_equal. apply IHarm.
Qed.

Lemma validateStep_carry (step : StepSpec) (avail : gset string) (p : string)
  (mode : SchemaCompatibility) (index : nat) (prev : option JValue) :
  snd (validateStep step avail p mode index prev) = carry step prev.
Proof. destruct step; reflexivity. Qed.

Lemma sequenceLoop_app (avail : gset string) (p : string)
  (mode : SchemaCompatibility) (pre post : list StepSpec) (index : nat)
  (prev : option JValue) :
  sequenceLoop avail p mode (pre ++ post) index prev
  = sequenceLoop avail p mode pre index prev
    ++ sequenceLoop avail p mode post (index + length pre)
         (carriedShape pre prev).
Proof.
  revert index prev. induction pre as [|s pre IH]; intros index prev.
  - simpl. now rewrite Nat.add_0_r.
  - simpl. rewrite IH, validateStep_carry, <- app_assoc.
    now rewrite Nat.add_succ_r.
Qed.

(** The issues of a sequence, around one of its steps: those of the steps
    before it, those of its own round, those of the steps after it. *)
Lemma validateSequence_at (pre post : list StepSpec) (step : StepSpec)
  (p : string) (mode : SchemaCompatibility) (inputSchema : option JValue) :
  let steps := pre ++ step :: post in
  let prev := carriedShape pre inputSchema in
  validateSequence steps p mode inputSchema
  = sequenceLoop (collectIds steps) p mode pre O inputSchema
    ++ fst (validateStep step (collectIds steps) p mode (length pre) prev)
    ++ sequenceLoop (collectIds steps) p mode post (S (length pre))
         (carry step prev).
Proof.
  intros steps prev. unfold validateSequence, steps.
  rewrite sequenceLoop_app. simpl. now rewrite validateStep_carry.
Qed.

(** ** Mapping references *)

Lemma collectIds_spec (steps : list StepSpec) (s : string) :
  s ∈ collectIds steps <-> exists step, In step steps /\ stepId step = Some s.
Proof.
  unfold collectIds.
  assert (H : forall acc : gset string,
    s ∈ foldl (fun acc step =>
                 match stepId step with
                 | Some id => acc ∪ {[id]}
                 | None => acc
                 end) acc steps
    <-> s ∈ acc \/ exists step, In step steps /\ stepId step = Some s).
  { induction steps as [|x steps IH]; intros acc; simpl.
    - split; [now left | intros [H|(step & [] & _)]; assumption].
    - rewrite IH. destruct (stepId x) as [id|] eqn:Hid.
      + rewrite elem_of_union, elem_of_singleton. split.
        * intros [[H| ->]|(step & Hin & Hs)].
          -- now left.
          -- right. exists x. split; [now left | assumption].
          -- right. exists step. split; [now right | assumption].
        * intros [H|(step & [<-|Hin] & Hs)].
          -- left. now left.
          -- left. right. congruence.
          -- right. now exists step.
      + split.
        * intros [H|(step & Hin & Hs)]; [now left|].
          right. exists step. split; [now right | assumption].
        * intros [H|(step & [<-|Hin] & Hs)]; [now left | congruence |].
          right. now exists step. }
  rewrite H. split; [intros [Hempty|Hex] | now right]; [|assumption].
  now apply not_elem_of_empty in Hempty.
Qed.





(** ** The tree walk *)

Lemma visitStep_branch (branches : list (Condition * list StepSpec))
  (sp : string) :
  visitStep (SBranch branches) sp
  = (SBranch branches, sp) :: visitBranches branches sp O.
Proof.
  cbn [visitStep]. f_equal. generalize O at 2 3.
  induction branches as [|[c arm] rest IH]; intros bi; [reflexivity|].
  cbn [visitBranches snd]. f_equal; [|apply IH].
  unfold visitSteps. generalize O as i.
  induction arm as [|s arm IHarm]; intros i; [reflexivity|].
  cbn [visitFrom]. f_equal. apply IHarm.
Qed.

Lemma visitStep_parallel (members : list StepSpec) (sp : string) :
  visitStep (SParallel members) sp
  = (SParallel members, sp) :: visitSteps members (sp +:+ ".steps").
Proof.
  cbn [visitStep]. f_equal. unfold visitSteps. generalize O as i.
  induction members as [|s members IH]; intros i; [reflexivity|].
  cbn [visitFrom]. f_equal. apply IH.
Qed.

Lemma visitStep_body (step body : StepSpec) (sp : string) :
  (exists c, step = SForeach c body) \/ (exists c, step = SDoWhile body c)
  \/ (exists c, step = SDoUntil body c) ->
  visitStep step sp = (step, sp) :: visitSteps [body] (sp +:+ ".step").
Proof.
  intros [[c ->]|[[c ->]|[c ->]]]; cbn [visitStep]; f_equal;
    unfold visitSteps; cbn [visitFrom]; now rewrite app_nil_r.
Qed.

Lemma visitStep_head (step : StepSpec) (sp : string) :
  In (step, sp) (visitStep step sp).
Proof. destruct step; left; reflexivity. Qed.

Lemma visitFrom_member (steps : list StepSpec) (base : string) (index : nat)
  (step : StepSpec) :
  In step steps -> exists sp, In (step, sp) (visitFrom steps base index).
Proof.
  revert index. induction steps as [|s steps IH]; intros index; [contradiction|].
  intros [->|Hin].
  - exists (base +:+ "." +:+ pretty index). cbn [visitFrom].
    apply in_or_app. left. apply visitStep_head.
  - destruct (IH (S index) Hin) as [sp Hsp]. exists sp. cbn [visitFrom].
    apply in_or_app. now right.
Qed.

Lemma visitBranches_member (branches : list (Condition * list StepSpec))
  (sp : string) (bi : nat) (c : Condition) (arm : list StepSpec)
  (step : StepSpec) :
  In (c, arm) branches -> In step arm ->
  exists cp, In (step, cp) (visitBranches branches sp bi).
Proof.
  revert bi. induction branches as [|b rest IH]; intros bi; [contradiction|].
  intros [->|Hin] Hstep; cbn [visitBranches snd].
  - destruct (visitFrom_member arm
                (sp +:+ ".branches." +:+ pretty bi +:+ ".steps") O step Hstep)
      as [cp Hcp].
    exists cp. apply in_or_app. now left.
  - destruct (IH (S bi) Hin Hstep) as [cp Hcp]. exists cp.
    apply in_or_app. now right.
Qed.

(** The walk enters every directly nested step. *)
Lemma visitStep_child (parent child : StepSpec) (sp : string) :
  Child child parent -> exists cp, In (child, cp) (visitStep parent sp).
Proof.
  intros [branches c arm Hb Hs|members Hm|conc|c|c].
  - rewrite visitStep_branch.
    destruct (visitBranches_member branches sp O c arm child Hb Hs) as [cp Hcp].
    exists cp. now right.
  - rewrite visitStep_parallel.
    destruct (visitFrom_member members (sp +:+ ".steps") O child Hm) as [cp Hcp].
    exists cp. now right.
  - rewrite (visitStep_body _ child sp) by (left; now exists conc).
    exists ((sp +:+ ".step") +:+ "." +:+ pretty O). right.
    unfold visitSteps. cbn [visitFrom]. rewrite app_nil_r. apply visitStep_head.
  - rewrite (visitStep_body _ child sp) by (right; left; now exists c).
    exists ((sp +:+ ".step") +:+ "." +:+ pretty O). right.
    unfold visitSteps. cbn [visitFrom]. rewrite app_nil_r. apply visitStep_head.
  - rewrite (visitStep_body _ child sp) by (right; right; now exists c).
    exists ((sp +:+ ".step") +:+ "." +:+ pretty O). right.
    unfold visitSteps. cbn [visitFrom]. rewrite app_nil_r. apply visitStep_head.
Qed.

Lemma visitFrom_subtree (steps : list StepSpec) (base : string) (index : nat)
  (q : StepSpec) (qp : string) :
  Forall (fun step => forall sp q qp,
            In (q, qp) (visitStep step sp) ->
            incl (visitStep q qp) (visitStep step sp)) steps ->
  In (q, qp) (visitFrom steps base index) ->
  incl (visitStep q qp) (visitFrom steps base index).
Proof.
  intros Hall. revert index.
  induction Hall as [|s steps Hs _ IH]; intros index; [contradiction|].
  cbn [visitFrom]. intros Hin. apply in_app_or in Hin as [Hin|Hin].
  - apply incl_appl. now apply Hs.
  - apply incl_appr. now apply IH.
Qed.

(** With a visited step, the walk holds the whole walk of its subtree. *)
Lemma visitStep_subtree (step : StepSpec) :
  forall sp q qp,
    In (q, qp) (visitStep step sp) -> incl (visitStep q qp) (visitStep step sp).
Proof.
  induction step as [l|ms id|date id|pr it op ti id|w pl id|m id|conc body IH
                    |branches IH|members IH|body c IH|body c IH|w im
                    |id pr wa ti rs|id d] using StepSpec_nested_ind;
    intros sp q qp Hin;
    try (destruct Hin as [Hin|[]]; injection Hin as <- <-; apply incl_refl).
  - rewrite (visitStep_body _ body sp) in * by (left; now exists conc).
    destruct Hin as [Hin|Hin]; [injection Hin as <- <-|].
    + rewrite (visitStep_body _ body sp) by (left; now exists conc).
      apply incl_refl.
    + apply incl_tl. apply visitFrom_subtree; [|assumption].
      constructor; [exact IH | constructor].
  - rewrite visitStep_branch in *.
    destruct Hin as [Hin|Hin]; [injection Hin as <- <-|].
    + rewrite visitStep_branch. apply incl_refl.
    + apply incl_tl. revert Hin. generalize O as bi.
      induction IH as [|b rest Hb _ IHrest]; intros bi Hin; [contradiction|].
      cbn [visitBranches] in *. apply in_app_or in Hin as [Hin|Hin].
      * apply incl_appl. now apply visitFrom_subtree.
      * apply incl_appr. now apply IHrest.
  - rewrite visitStep_parallel in *.
    destruct Hin as [Hin|Hin]; [injection Hin as <- <-|].
    + rewrite visitStep_parallel. apply incl_refl.
    + apply incl_tl. now apply visitFrom_subtree.
  - rewrite (visitStep_body _ body sp) in * by (right; left; now exists c).
    destruct Hin as [Hin|Hin]; [injection Hin as <- <-|].
    + rewrite (visitStep_body _ body sp) by (right; left; now exists c).
      apply incl_refl.
    + apply incl_tl. apply visitFrom_subtree; [|assumption].
      constructor; [exact IH | constructor].
  - rewrite (visitStep_body _ body sp) in * by (right; right; now exists c).
    destruct Hin as [Hin|Hin]; [injection Hin as <- <-|].
    + rewrite (visitStep_body _ body sp) by (right; right; now exists c).
      apply incl_refl.
    + apply incl_tl. apply visitFrom_subtree; [|assumption].
      constructor; [exact IH | constructor].
Qed.

(** The walk reaches every step of the tree. *)
Lemma visitSteps_reaches (steps : list StepSpec) (base : string)
  (step : StepSpec) :
  Within steps step -> exists sp, In (step, sp) (visitSteps steps base).
Proof.
  induction 1 as [step Hin|step parent _ [pp Hpp] Hchild].
  - now apply visitFrom_member.
  - destruct (visitStep_child parent step pp Hchild) as [cp Hcp].
    exists cp. unfold visitSteps in *.
    apply (visitFrom_subtree steps base O parent pp); [|assumption|assumption].
    apply Forall_forall. intros s _. apply visitStep_subtree.
Qed.






(** ** Unique step ids *)

Lemma firstOccurrence_app (id : string) (earlier more : list (string * string)) :
  firstOccurrence id (earlier ++ more) =
  match firstOccurrence id earlier with
  | Some p => Some p
  | None => firstOccurrence id more
  end.
Proof.
  induction earlier as [|[id' p] earlier IH]; [reflexivity|]. simpl.
  now destruct (String.eqb id' id).
Qed.

Lemma location_not_empty (p : string) : String.eqb (p +:+ ".id") "" = false.
Proof. apply String.eqb_neq. destruct p; discriminate. Qed.

Lemma seenAgrees_insert (seen : gmap string string)
  (earlier : list (string * string)) (id p : string) :
  seenAgrees seen earlier -> firstOccurrence id earlier = None ->
  seenAgrees (<[id := p +:+ ".id"]> seen) (earlier ++ [(id, p)]).
Proof.
  intros Hagree Hnone id'. rewrite firstOccurrence_app. simpl.
  destruct (String.eqb_spec id id') as [->|Hne].
  - rewrite lookup_insert_eq, Hnone. reflexivity.
  - rewrite lookup_insert_ne by assumption. rewrite Hagree.
    now destruct (firstOccurrence id' earlier).
Qed.

Lemma seenAgrees_again (seen : gmap string string)
  (earlier : list (string * string)) (id p first : string) :
  seenAgrees seen earlier -> firstOccurrence id earlier = Some first ->
  seenAgrees seen (earlier ++ [(id, p)]).
Proof.
  intros Hagree Hsome id'. rewrite firstOccurrence_app, Hagree. simpl.
  destruct (firstOccurrence id' earlier) eqn:E; [reflexivity|].
  destruct (String.eqb_spec id id') as [->|Hne]; [congruence | reflexivity].
Qed.

Lemma duplicateIssue_cites (id later first : string) :
  duplicateIssue later id (first +:+ ".id") = duplicateError id later first.
Proof.
  unfold duplicateIssue, duplicateError. f_equal.
  do 3 (apply (f_equal (String.append _))).
  now rewrite string_app_assoc.
Qed.

Lemma visitUnique_fold (visits : list (StepSpec * string))
  (seen : gmap string string) (issues : list SchemaIssue)
  (earlier : list (string * string)) :
  seenAgrees seen earlier ->
  snd (foldl visitUnique (seen, issues) visits)
  = issues ++ duplicateErrors earlier (idOccurrences visits).
Proof.
  revert seen issues earlier.
  induction visits as [|[step sp] visits IH]; intros seen issues earlier Hagree.
  - simpl. now rewrite app_nil_r.
  - cbn [foldl idOccurrences]. unfold visitUnique at 2.
    destruct (stepId step) as [id|] eqn:Hid.
    + cbn [duplicateErrors]. rewrite (Hagree id).
      destruct (firstOccurrence id earlier) as [first|] eqn:Hfirst.
      * rewrite location_not_empty. cbn [negb].
        rewrite duplicateIssue_cites.
        rewrite (IH seen _ (earlier ++ [(id, sp)])).
        -- rewrite <- app_assoc. reflexivity.
        -- now apply seenAgrees_again with (first := first).
      * rewrite (IH _ issues (earlier ++ [(id, sp)])); [reflexivity|].
        now apply seenAgrees_insert.
    + now apply IH.
Qed.

Lemma validateUniqueStepIds_spec (steps : list StepSpec) (base : string) :
  validateUniqueStepIds steps base
  = duplicateErrors [] (idOccurrences (visitSteps steps base)).
Proof.
  unfold validateUniqueStepIds.
  rewrite (visitUnique_fold _ ∅ [] []); [reflexivity|].
  intros id. now rewrite lookup_empty.
Qed.

(** Counting: an occurrence is either the first of its id or yields one
    error. *)
Lemma firstOccurrence_ids (id : string) (earlier : list (string * string)) :
  firstOccurrence id earlier = None
  <-> id ∉ (list_to_set (map fst earlier) : gset string).
Proof.
  induction earlier as [|[id' p] earlier IH]; simpl.
  - split; [intros _; apply not_elem_of_empty | reflexivity].
  - rewrite elem_of_union, elem_of_singleton.
    destruct (String.eqb_spec id' id) as [->|Hne].
    + split; [discriminate | intros H; exfalso; apply H; now left].
    + rewrite IH. split.
      * intros H [E|E]; [congruence | contradiction].
      * intros H E. apply H. now right.
Qed.



Lemma duplicateErrors_kind (earlier occurrences : list (string * string))
  (issue : SchemaIssue) :
  In issue (duplicateErrors earlier occurrences) ->
  severity issue = Error /\ isDuplicateIssue issue = true.
Proof.
  revert earlier.
  induction occurrences as [|[id p] rest IH]; intros earlier; [contradiction|].
  cbn [duplicateErrors].
  destruct (firstOccurrence id earlier) as [first|]; [|apply IH].
  intros [<-|Hin]; [|now apply (IH _ Hin)].
  split; [reflexivity|].
  apply prefix_app with (p := "Duplicate step id '")
                        (s := id +:+ "' previously defined at "
                              +:+ first +:+ ".id.").
Qed.



(** ** Issues of a sequence, by kind *)

Section SequenceIssues.

(** A property of an issue relative to the path of the sequence that
    reports it, which the three sources of issues establish and which
    holds at a path when it holds below it. *)
Variable Q : string -> SchemaIssue -> Prop.

Hypothesis Q_compatibility : forall o i q mode issue,
  In issue (validateSchemaCompatibility o i q mode) -> Q q issue.
Hypothesis Q_mapping : forall avail q entry issue,
  In issue (mappingIssues avail q entry) -> Q q issue.
Hypothesis Q_foreach : forall p index mode,
  Q (p +:+ ".steps." +:+ pretty index) (foreachIssue p index mode).
Hypothesis Q_below : forall p segment issue,
  Q (p +:+ segment) issue -> Q p issue.

Lemma sequenceLoop_have (steps : list StepSpec) :
  Forall (fun step =>
            forall avail p mode index prev issue,
              In issue (fst (validateStep step avail p mode index prev)) ->
              Q p issue) steps ->
  forall avail p mode index prev issue,
    In issue (sequenceLoop avail p mode steps index prev) -> Q p issue.
Proof.
  induction 1 as [|s steps Hs _ IH]; intros avail p mode index prev issue;
    [contradiction|].
  cbn [sequenceLoop]. intros Hin. apply in_app_or in Hin as [Hin|Hin].
  - now apply (Hs avail p mode index prev).
  - exact (IH avail p mode (S index) _ issue Hin).
Qed.

Lemma compatibility_at_have (o i : option JValue) (p segment : string)
  (mode : SchemaCompatibility) (issue : SchemaIssue) :
  In issue (validateSchemaCompatibility o i (p +:+ segment) mode) -> Q p issue.
Proof. intros H. apply (Q_below p segment). now apply Q_compatibility in H. Qed.

Lemma mappings_at_have (m : list (string * JValue)) (avail : gset string)
  (p segment : string) (issue : SchemaIssue) :
  In issue (validateMappings m avail (p +:+ segment)) -> Q p issue.
Proof.
  unfold validateMappings. intros H. apply in_flat_map in H as (entry & _ & H).
  apply (Q_below p segment). now apply Q_mapping in H.
Qed.

Lemma validateStep_have (step : StepSpec) :
  forall avail p mode index prev issue,
    In issue (fst (validateStep step avail p mode index prev)) -> Q p issue.
Proof.
  induction step as [l|ms id|date id|pr it op ti id|w pl id|m id|conc body IH
                    |branches IH|members IH|body c IH|body c IH|w im
                    |id pr wa ti rs|id d] using StepSpec_nested_ind;
    intros avail p mode index prev issue Hin;
    try (now apply compatibility_at_have in Hin);
    try contradiction.
  - now apply mappings_at_have in Hin.
  - cbn [validateStep fst] in Hin. apply in_app_or in Hin as [Hin|Hin].
    + destruct (_ && _); [|contradiction]. destruct Hin as [<-|[]].
      apply (Q_below p (".steps." +:+ pretty index)). apply Q_foreach.
    + now apply compatibility_at_have in Hin.
  - rewrite validateStep_branch in Hin. cbn [fst] in Hin.
    revert Hin. generalize O as bi.
    induction IH as [|b rest Hb _ IHrest]; intros bi Hin; [contradiction|].
    cbn [branchIssues] in Hin.
    apply in_app_or in Hin as [Hin|Hin];
      [|apply in_app_or in Hin as [Hin|Hin]].
    + now apply compatibility_at_have in Hin.
    + unfold validateSequence in Hin.
      apply (sequenceLoop_have _ Hb) in Hin.
      apply Q_below in Hin. now apply Q_below in Hin.
    + now apply (IHrest (S bi)).
  - cbn [validateStep fst] in Hin. revert Hin. generalize O as pi.
    induction members as [|s members IHm]; intros pi Hin; [contradiction|].
    cbn [parallelIssues] in Hin. apply in_app_or in Hin as [Hin|Hin].
    + now apply compatibility_at_have in Hin.
    + inversion IH; subst. now apply (IHm ltac:(assumption) (S pi)).
  - destruct im as [m|]; [|contradiction].
    now apply mappings_at_have in Hin.
Qed.

Lemma validateSequence_have (steps : list StepSpec) (p : string)
  (mode : SchemaCompatibility) (inputSchema : option JValue)
  (issue : SchemaIssue) :
  In issue (validateSequence steps p mode inputSchema) -> Q p issue.
Proof.
  apply sequenceLoop_have. apply Forall_forall. intros s _.
  apply validateStep_have.
Qed.

End SequenceIssues.

Lemma compatibilityFuel_kinds (fuel : nat) (o i : option JValue) (p : string)
  (mode : SchemaCompatibility) (issue : SchemaIssue) :
  In issue (compatibilityFuel fuel o i p mode) -> compatibilityIssue mode issue.
Proof.
  revert o i p.
  induction fuel as [|fuel IH]; intros o i p H; [simpl in H; contradiction|].
  simpl in H. unfold compatibilityBody in H.
  destruct o as [o'|]; [|contradiction]. destruct i as [i'|]; [|contradiction].
  destruct (negb (Js.truthy o') || negb (Js.truthy i')); [contradiction|].
  destruct (negb (typeIncludes _ _)).
  { destruct H as [<-|[]]. exists p. left. eauto. }
  repeat (apply in_app_or in H as [H|H]).
  - destruct (_ && _); [|contradiction]. destruct H as [<-|[]].
    exists p. right. now left.
  - destruct (negb _); [|contradiction]. destruct H as [<-|[]].
    exists p. right. right. now left.
  - destruct (_ && _); [|contradiction]. destruct H as [<-|[]].
    exists p. right. right. right. now left.
  - destruct (_ && _); [|contradiction].
    apply in_map_iff in H as (key & <- & _).
    exists p. right. right. right. right. now exists key.
  - destruct (_ && _); [|contradiction].
    destruct (getArrayItems _) as [oi|]; [|contradiction].
    destruct (getArrayItems _) as [ii|]; [|contradiction].
    now apply IH in H.
Qed.

Lemma compatibility_kinds (o i : option JValue) (p : string)
  (mode : SchemaCompatibility) (issue : SchemaIssue) :
  In issue (validateSchemaCompatibility o i p mode) ->
  compatibilityIssue mode issue.
Proof. apply compatibilityFuel_kinds. Qed.

Lemma mappingIssues_kinds (avail : gset string) (q : string)
  (entry : string * JValue) (issue : SchemaIssue) :
  In issue (mappingIssues avail q entry) ->
  exists msg sev, issue = entryIssue q (fst entry) sev msg
                  /\ String.prefix "Mapping " msg = true.
Proof.
  destruct entry as [key mapping]. unfold mappingIssues.
  destruct (negb (Js.truthy mapping) || negb (Js.typeofObject mapping)).
  { intros [<-|[]]. eexists _, _. split; reflexivity. }
  destruct (Js.hasProp "value" mapping); [contradiction|].
  intros H. repeat (apply in_app_or in H as [H|H]).
  - destruct (_ && _); [|contradiction]. destruct H as [<-|[]].
    eexists _, _. split; [reflexivity|].
    apply prefix_app with (p := "Mapping ")
      (s := "references unknown step '"
            +:+ Js.toStringOpt (Js.getProp mapping "stepId") +:+ "'.").
  - destruct (_ && _); [|contradiction]. destruct H as [<-|[]].
    eexists _, _. split; reflexivity.
  - destruct (_ && _); [|contradiction]. destruct H as [<-|[]].
    eexists _, _. split; reflexivity.
Qed.

(** ** Foreach after a shape that is no array *)

(** Every issue of a sequence lies at the path of the sequence or below. *)
Lemma validateSequence_paths (steps : list StepSpec) (p : string)
  (mode : SchemaCompatibility) (inputSchema : option JValue)
  (issue : SchemaIssue) :
  In issue (validateSequence steps p mode inputSchema) ->
  exists suffix, path issue = p +:+ suffix.
Proof.
  apply (validateSequence_have
           (fun q x => exists suffix, path x = q +:+ suffix)).
  - intros o i q m x. apply compatibility_paths.
  - intros avail q entry x H.
    apply mappingIssues_kinds in H as (msg & sev & -> & _).
    now exists ("." +:+ fst entry).
  - intros q index m. exists "". now rewrite string_app_nil_r.
  - intros q segment x [suffix H]. exists (segment +:+ suffix).
    now rewrite H, string_app_assoc.
Qed.












(** ** Handler existence *)

Lemma validateHandlers_visit (steps : list StepSpec) (base : string)
  (registry : HandlerRegistry) (step : StepSpec) (sp : string)
  (issue : SchemaIssue) :
  In (step, sp) (visitSteps steps base) ->
  In issue (visitHandlers registry (step, sp)) ->
  In issue (validateHandlers steps base registry).
Proof.
  intros Hv Hi. unfold validateHandlers. apply in_flat_map.
  now exists (step, sp).
Qed.

Lemma branchHandlerIssues_at (registry : HandlerRegistry) (sp : string)
  (branches : list (Condition * list StepSpec)) (start offset : nat)
  (c : Condition) (arm : list StepSpec) :
  nth_error branches offset = Some (c, arm) ->
  handlerExists registry (handler c) = false ->
  In (missingIssue sp
        (".branches." +:+ pretty (start + offset)%nat +:+ ".when.handler")
        "handler" (handler c))
     (branchHandlerIssues registry sp start branches).
Proof.
  revert start offset.
  induction branches as [|b rest IH]; intros start offset Hnth Habsent.
  - destruct offset; discriminate.
  - cbn [branchHandlerIssues]. destruct offset as [|offset].
    + injection Hnth as ->. cbn [fst]. rewrite Habsent, Nat.add_0_r.
      now left.
    + apply in_or_app. right. rewrite Nat.add_succ_r.
      now apply (IH (S start) offset).
Qed.

(** ** Compilation *)

Lemma applyStep_branch (branches : list (Condition * list StepSpec))
  (workflow current : Workflow) (registry : HandlerRegistry) :
  applyStep (SBranch branches) workflow registry current
  = match buildBranches workflow registry O branches with
    | Err m => Err m
    | Ok entries => Ok (addOp current (OpBranch entries))
    end.
Proof.
  cbn [applyStep].
  assert (H : forall index,
    (fix eachBranch (bs : list (Condition * list StepSpec)) (index : nat)
       : Result (list (CondFn * Step)) :=
       match bs with
       | [] => Ok []
       | branch :: rest =>
           match buildCondFn registry (fst branch) with
           | Err m => Err m
           | Ok condFn =>
               let schemas := deriveWorkflowSchemas (snd branch) in
               let fresh :=
                 createWorkflow
                   (wf_id workflow +:+ ".branch." +:+ pretty index)
                   (toZod (fst schemas)) (toZod (snd schemas))
                   None None None in
               match (fix eachStep (l : list StepSpec) (cur : Workflow)
                        : Result Workflow :=
                        match l with
                        | [] => Ok cur
                        | s :: l' =>
                            match applyStep s fresh registry cur with
                            | Err m => Err m
                            | Ok cur' => eachStep l' cur'
                            end
                        end) (snd branch) fresh with
               | Err m => Err m
               | Ok built =>
                   match eachBranch rest (S index) with
                   | Err m => Err m
                   | Ok entries =>
                       Ok ((condFn, asStep (commit built)) :: entries)
                   end
               end
           end
       end) branches index
    = buildBranches workflow registry index branches).
  { induction branches as [|[c arm] rest IH]; intros index; [reflexivity|].
    cbn [buildBranches fst snd].
    destruct (buildCondFn registry c) as [condFn|m]; [|reflexivity].
    unfold buildBranchWorkflow, applySteps. cbv zeta.
    set (fresh := createWorkflow _ _ _ None None None). clearbody fresh.
    assert (Hloop : forall cur,
      (fix eachStep (l : list StepSpec) (cur : Workflow) : Result Workflow :=
         match l with
         | [] => Ok cur
         | s :: l' =>
             match applyStep s fresh registry cur with
             | Err m => Err m
             | Ok cur' => eachStep l' cur'
             end
         end) arm cur = applyLoop fresh registry arm cur).
    { induction arm as [|s arm IHarm]; intros cur; [reflexivity|].
      cbn [applyLoop]. destruct (applyStep s fresh registry cur); [|reflexivity].
      apply IHarm. }
    rewrite Hloop. destruct (applyLoop fresh registry arm fresh); [|reflexivity].
    rewrite IH. reflexivity. }
  now rewrite H.
Qed.

(** No failure of the graph build reads as a schema validation failure. *)
Lemma resolveHandler_failure (registry : HandlerRegistry) (handlerId m : string) :
  resolveHandler registry handlerId = Err m -> isSchemaFailure m = false.
Proof.
  unfold resolveHandler.
  destruct (splitHandlerId handlerId) as [namespace [name|]].
  - repeat match goal with
           | |- context [if ?b then _ else _] => destruct b
           | |- context [match ?l with [] => _ | _ :: _ => _ end] => destruct l
           end;
      intros H; inversion H; reflexivity.
  - intros H; inversion H; reflexivity.
Qed.

Lemma buildCondFn_failure (registry : HandlerRegistry) (c : Condition)
  (m : string) :
  buildCondFn registry c = Err m -> isSchemaFailure m = false.
Proof.
  unfold buildCondFn.
  destruct (resolveHandler registry (handler c)) eqn:E; [discriminate|].
  intros H. injection H as <-. now apply resolveHandler_failure in E.
Qed.

Lemma buildStep_failure (spec : StepSpec) (registry : HandlerRegistry)
  (m : string) :
  buildStep spec registry = Err m -> isSchemaFailure m = false.
Proof.
  destruct spec; cbn [buildStep]; try (intros H; inversion H; reflexivity).
  - unfold deriveHandlerId. destruct (leaf_kind leaf) eqn:Hk;
      try (destruct (String.eqb action ""); [intros H; inversion H; reflexivity|]);
      match goal with
      | |- context [resolveHandler ?r ?i] =>
          destruct (resolveHandler r i) eqn:E; [discriminate|];
          intros H; injection H as <-; now apply resolveHandler_failure in E
      end.
  - destruct (workflows registry) as [ws|]; [|intros H; inversion H; reflexivity].
    destruct (ws !! workflowId); [discriminate|].
    intros H; inversion H; reflexivity.
Qed.

Lemma mapR_failure {A B} (f : A -> Result B) (l : list A) (m : string) :
  mapR f l = Err m -> exists x, In x l /\ f x = Err m.
Proof.
  induction l as [|x l IH]; simpl; [discriminate|].
  destruct (f x) eqn:E.
  - destruct (mapR f l); [discriminate|]. intros H. injection H as <-.
    destruct (IH eq_refl) as (y & Hy & Ey). exists y. split; [now right|assumption].
  - intros H. injection H as <-. exists x. split; [now left|assumption].
Qed.

Lemma buildMapping_failure (mappings : list (string * JValue)) (m : string) :
  buildMapping mappings = Err m -> isSchemaFailure m = false.
Proof.
  intros H. apply mapR_failure in H as ([key mapping] & _ & H).
  unfold buildMappingEntry in H.
  destruct mapping; try (inversion H; reflexivity);
    repeat match type of H with
           | context [if ?b then _ else _] => destruct b
           end; discriminate.
Qed.

Lemma applyLoop_failure (steps : list StepSpec) :
  Forall buildFailsCleanly steps ->
  forall workflow registry current m,
    applyLoop workflow registry steps current = Err m ->
    isSchemaFailure m = false.
Proof.
  induction 1 as [|s steps Hs _ IH]; intros workflow registry current m;
    [discriminate|].
  cbn [applyLoop].
  destruct (applyStep s workflow registry current) as [next|e] eqn:E.
  - apply IH.
  - intros H. injection H as <-. now apply Hs in E.
Qed.

Lemma applyStep_failure (step : StepSpec) : buildFailsCleanly step.
Proof.
  induction step as [l|ms id|date id|pr it op ti id|w pl id|mp id|conc body IH
                    |branches IH|members IH|body c IH|body c IH|w im
                    |id pr wa ti rs|id d] using StepSpec_nested_ind;
    intros workflow registry current m; try discriminate.
  - cbn [applyStep]. destruct (appliedAsLeaf (leaf_kind l)).
    + destruct (buildStep (SLeaf l) registry) eqn:E; [discriminate|].
      intros H. injection H as <-. now apply buildStep_failure in E.
    + intros H. inversion H. reflexivity.
  - cbn [applyStep]. destruct (buildMapping mp) eqn:E; [discriminate|].
    intros H. injection H as <-. now apply buildMapping_failure in E.
  - cbn [applyStep]. destruct (buildStep body registry) eqn:E; [discriminate|].
    intros H. injection H as <-. now apply buildStep_failure in E.
  - rewrite applyStep_branch.
    destruct (buildBranches workflow registry O branches) eqn:E; [discriminate|].
    intros H. injection H as <-. revert E. generalize O as index.
    induction IH as [|b rest Hb _ IHrest]; intros index; [discriminate|].
    cbn [buildBranches].
    destruct (buildCondFn registry (fst b)) eqn:Ec;
      [|intros H; injection H as <-; now apply buildCondFn_failure in Ec].
    unfold buildBranchWorkflow, applySteps. cbv zeta.
    destruct (applyLoop _ registry (snd b) _) eqn:El;
      [|intros H; injection H as <-; now apply (applyLoop_failure _ Hb) in El].
    destruct (buildBranches workflow registry (S index) rest) eqn:Er;
      [discriminate|].
    intros H. injection H as <-. now apply (IHrest (S index)).
  - cbn [applyStep].
    destruct (mapR (fun s => buildStep s registry) members) eqn:E; [discriminate|].
    intros H. injection H as <-. apply mapR_failure in E as (x & _ & E).
    now apply buildStep_failure in E.
  - cbn [applyStep]. destruct (buildStep body registry) eqn:E;
      [|intros H; injection H as <-; now apply buildStep_failure in E].
    destruct (buildCondFn registry c) eqn:Ec; [discriminate|].
    intros H. injection H as <-. now apply buildCondFn_failure in Ec.
  - cbn [applyStep]. destruct (buildStep body registry) eqn:E;
      [|intros H; injection H as <-; now apply buildStep_failure in E].
    destruct (buildCondFn registry c) eqn:Ec; [discriminate|].
    intros H. injection H as <-. now apply buildCondFn_failure in Ec.
  - cbn [applyStep].
    destruct (match workflows registry with
              | Some ws => ws !! w
              | None => None
              end); [|intros H; inversion H; reflexivity].
    destruct im as [mp|]; [|discriminate].
    destruct (buildMapping mp) eqn:E; [discriminate|].
    intros H. injection H as <-. now apply buildMapping_failure in E.
Qed.

Lemma applySteps_failure (workflow : Workflow) (steps : list StepSpec)
  (registry : HandlerRegistry) (m : string) :
  applySteps workflow steps registry = Err m -> isSchemaFailure m = false.
Proof.
  apply applyLoop_failure. apply Forall_forall. intros s _.
  apply applyStep_failure.
Qed.

Lemma compileWorkflow_cases (spec : WorkflowSpec) (registry : HandlerRegistry) :
  compileWorkflow spec registry =
  match validationErrors spec registry with
  | _ :: _ => Err (validationFailure (validationErrors spec registry))
  | [] =>
      match applySteps (initialWorkflow spec) (spec_steps spec) registry with
      | Err m => Err m
      | Ok built =>
          Ok {| workflow := commit built;
                warnings := List.filter isWarning
                              (validateWorkflowSchemas spec (Some registry)) |}
      end
  end.
Proof.
  unfold compileWorkflow, validationErrors. cbv zeta.
  destruct (List.filter isError _); reflexivity.
Qed.

Lemma validationFailure_is_schema_failure (errors : list SchemaIssue) :
  isSchemaFailure (validationFailure errors) = true.
Proof.
  apply prefix_app with (p := "Schema validation failed:")
                        (s := newline +:+ Js.join newline (map formatIssue errors)).
Qed.

(** C1 (as amended).  For every specification and registry: compileWorkflow
    raises the schema validation failure if and only if validation, run
    with the registry, reports at least one error; the message of that
    failure is the line [Schema validation failed:] followed by the
    newline-joined error issues, each as its path, a colon and its
    message; when validation reports no error the graph is built, a
    failure of the build (a missing handler or sub-workflow, a step the
    builder does not handle) is raised as it is, and otherwise the result
    carries the committed graph and exactly the warnings of the
    validator. *)
Theorem compile_contract (spec : WorkflowSpec) (registry : HandlerRegistry) :
  let issues := validateWorkflowSchemas spec (Some registry) in
  let errors := List.filter isError issues in
  ((exists m, compileWorkflow spec registry = Err m /\ isSchemaFailure m = true)
   <-> errors <> [])
  /\ (errors <> [] ->
      compileWorkflow spec registry
      = Err ("Schema validation failed:" +:+ newline
             +:+ Js.join newline
                   (map (fun issue => path issue +:+ ": " +:+ message issue)
                      errors)))
  /\ (errors = [] ->
      compileWorkflow spec registry
      = match applySteps (initialWorkflow spec) (spec_steps spec) registry with
        | Err m => Err m
        | Ok built =>
            Ok {| workflow := commit built;
                  warnings := List.filter isWarning issues |}
        end)
  /\ (forall result,
        compileWorkflow spec registry = Ok result ->
        errors = []
        /\ warnings result = List.filter isWarning issues
        /\ exists built,
             applySteps (initialWorkflow spec) (spec_steps spec) registry
             = Ok built
             /\ workflow result = commit built).
Proof.
  intros issues errors.
  pose proof (compileWorkflow_cases spec registry) as Hc.
  unfold validationErrors in Hc. fold issues in Hc. fold errors in Hc.
  split; [|split; [|split]].
  - split.
    + intros (m & Hm & Hs) Hnil. rewrite Hm, Hnil in Hc.
      destruct (applySteps (initialWorkflow spec) (spec_steps spec) registry)
        eqn:E; [discriminate|].
      injection Hc as ->. apply applySteps_failure in E. congruence.
    + intros Hne. exists (validationFailure errors). split.
      * rewrite Hc. destruct errors; [contradiction | reflexivity].
      * apply validationFailure_is_schema_failure.
  - intros Hne. rewrite Hc. destruct errors; [contradiction | reflexivity].
  - intros Hnil. rewrite Hc, Hnil. reflexivity.
  - intros result Hok. rewrite Hok in Hc. destruct errors; [|discriminate].
    split; [reflexivity|].
    destruct (applySteps (initialWorkflow spec) (spec_steps spec) registry)
      as [built|]; [|discriminate].
    injection Hc as ->. split; [reflexivity|]. now exists built.
Qed.

Lemma compile_contract_witness :
  compileWorkflow (specOf repeatedIds None) itemRegistry
  = Err ("Schema validation failed:" +:+ newline
         +:+ Js.join newline
               (map (fun issue => path issue +:+ ": " +:+ message issue)
                  (validationErrors (specOf repeatedIds None) itemRegistry)))
  /\ exists result,
       compileWorkflow (specOf [SForeach (Some 2%Z) itemStep] None) itemRegistry
       = Ok result
       /\ warnings result
          = List.filter isWarning
              (validateWorkflowSchemas (specOf [SForeach (Some 2%Z) itemStep] None)
                 (Some itemRegistry)).
Proof.
  split.
  - apply (proj1 (proj2 (compile_contract (specOf repeatedIds None)
                           itemRegistry))).
    vm_compute. discriminate.
  - pose proof (proj1 (proj2 (proj2
        (compile_contract (specOf [SForeach (Some 2%Z) itemStep] None)
           itemRegistry))) eq_refl) as H.
    eexists. split; [exact H | reflexivity].
Defined.

(** C1, as stated, fails: validation reports no issue for a specification
    whose only step targets a handler of the [memory] bucket, and
    compileWorkflow raises a failure all the same, when the graph is
    built. *)
Lemma compile_fails_without_validation_error :
  validateWorkflowSchemas (specOf [memoryStep] None) (Some emptyRegistry) = []
  /\ compileWorkflow (specOf [memoryStep] None) emptyRegistry
     = Err "Missing handler: memory.recall".
Proof. split; vm_compute; reflexivity. Qed.

(** ** Foreach concurrency *)

Lemma applyStep_appends (step : StepSpec) (workflow current next : Workflow)
  (registry : HandlerRegistry) :
  applyStep step workflow registry current = Ok next ->
  exists op, next = addOp current op.
Proof.
  destruct step; try rewrite applyStep_branch; cbn [applyStep];
    repeat match goal with
           | |- context [match ?x with _ => _ end] => destruct x
           end;
    intros H; try discriminate; injection H as <-; eauto.
Qed.

Lemma applyLoop_graph (steps : list StepSpec) (workflow current final : Workflow)
  (registry : HandlerRegistry) :
  applyLoop workflow registry steps current = Ok final ->
  exists ops, wf_graph final = wf_graph current ++ ops
              /\ length ops = length steps.
Proof.
  revert current. induction steps as [|s steps IH]; intros current.
  - intros H. injection H as <-. exists []. now rewrite app_nil_r.
  - cbn [applyLoop].
    destruct (applyStep s workflow registry current) as [next|] eqn:E;
      [|discriminate].
    intros H. destruct (applyStep_appends _ _ _ _ _ E) as [op ->].
    destruct (IH _ H) as (ops & Hg & Hl). exists (op :: ops).
    rewrite Hg. cbn [addOp wf_graph]. rewrite <- app_assoc. split; [reflexivity|].
    simpl. now rewrite Hl.
Qed.

Lemma applyLoop_split (pre post : list StepSpec) (step : StepSpec)
  (workflow current final : Workflow) (registry : HandlerRegistry) :
  applyLoop workflow registry (pre ++ step :: post) current = Ok final ->
  exists before after,
    applyLoop workflow registry pre current = Ok before
    /\ applyStep step workflow registry before = Ok after
    /\ applyLoop workflow registry post after = Ok final.
Proof.
  revert current. induction pre as [|s pre IH]; intros current; cbn [app applyLoop].
  - destruct (applyStep step workflow registry current) as [after|] eqn:E;
      [|discriminate].
    intros H. now exists current, after.
  - destruct (applyStep s workflow registry current) as [next|]; [|discriminate].
    apply IH.
Qed.

(** C10.  A [foreach] step is handed to the runtime's foreach primitive
    with a concurrency of exactly 1 when it declares none, and with the
    declared bound, unchanged, when it declares one: this is the call the
    step's round makes, and in a built graph it is the entry at the step's
    position. *)
Theorem foreach_concurrency (pre post : list StepSpec)
  (concurrency : option Z) (body : StepSpec) (workflow final : Workflow)
  (registry : HandlerRegistry) :
  applySteps workflow (pre ++ SForeach concurrency body :: post) registry
  = Ok final ->
  exists built,
    buildStep body registry = Ok built
    /\ (forall current,
          applyStep (SForeach concurrency body) workflow registry current
          = Ok (addOp current
                  (OpForeach built
                     (match concurrency with Some n => n | None => 1%Z end))))
    /\ nth_error (wf_graph final) (length (wf_graph workflow) + length pre)
       = Some (OpForeach built
                 (match concurrency with Some n => n | None => 1%Z end)).
Proof.
  unfold applySteps. intros H.
  apply applyLoop_split in H as (before & after & Hpre & Hstep & Hpost).
  cbn [applyStep] in Hstep.
  destruct (buildStep body registry) as [built|] eqn:Hb; [|discriminate].
  exists built. split; [reflexivity|]. split.
  - intros current. cbn [applyStep]. now rewrite Hb.
  - injection Hstep as <-.
    apply applyLoop_graph in Hpre as (ops1 & Hg1 & Hl1).
    apply applyLoop_graph in Hpost as (ops2 & Hg2 & Hl2).
    rewrite Hg2. cbn [addOp wf_graph]. rewrite Hg1, <- !app_assoc.
    rewrite nth_error_app2 by lia.
    replace (length (wf_graph workflow) + length pre - length (wf_graph workflow))%nat
      with (length ops1) by lia.
    rewrite nth_error_app2 by lia. rewrite Nat.sub_diag. reflexivity.
Qed.

Lemma foreach_concurrency_witness :
  (exists final,
     applySteps emptyWorkflow [SForeach None itemStep] itemRegistry = Ok final
     /\ exists built, wf_graph final = [OpForeach built 1%Z])
  /\ (exists final,
        applySteps emptyWorkflow [SForeach (Some 2%Z) itemStep] itemRegistry
        = Ok final
        /\ exists built, nth_error (wf_graph final) 0 = Some (OpForeach built 2%Z)).
Proof.
  split.
  - eexists. split; [reflexivity|]. eexists. reflexivity.
  - eexists. split; [reflexivity|].
    destruct (foreach_concurrency [] [] (Some 2%Z) itemStep emptyWorkflow _
                itemRegistry eq_refl) as (built & _ & _ & Hnth).
    exists built. exact Hnth.
Defined.

(** ** What existence in the registry means for the three checked fields *)

Lemma split_first (s : string) :
  exists rest, Js.split "." s = firstSegment s :: rest.
Proof.
  unfold firstSegment. destruct (Js.split "." s) as [|first rest] eqn:E.
  - destruct s as [|c s]; simpl in E; [discriminate|].
    destruct (Ascii.eqb c "."); [discriminate|].
    destruct (Js.split "." s); discriminate.
  - now exists rest.
Qed.

(** An action is looked up in the [handlers] bucket, an agent in the
    [agents] bucket and a tool in the [tools] bucket, each by its first
    segment. *)
Lemma handlerExists_checked_fields (registry : HandlerRegistry) (name : string) :
  handlerExists registry ("handlers." +:+ name)
  = present (Some (handlers registry)) (firstSegment name)
  /\ handlerExists registry ("agent." +:+ name)
     = present (agents registry) (firstSegment name)
  /\ handlerExists registry ("tool." +:+ name)
     = present (tools registry) (firstSegment name).
Proof.
  destruct (split_first name) as [rest Hs].
  unfold handlerExists, splitHandlerId.
  repeat split; cbn [Js.includes Js.split String.append Ascii.eqb Bool.eqb orb];
    rewrite Hs; reflexivity.
Qed.

Lemma split_dotfree (s : string) :
  Js.includes "." s = false -> Js.split "." s = [s].
Proof.
  induction s as [|c s IH]; simpl; [reflexivity|].
  destruct (Ascii.eqb c "."); simpl; [discriminate|].
  intros H. now rewrite (IH H).
Qed.

Lemma lacks_present {V} (bucket : option (gmap string V)) (name : string) :
  lacks bucket name -> present bucket name = false.
Proof.
  destruct bucket as [entries|]; [|reflexivity]. cbn [lacks present].
  intros H. apply bool_decide_eq_false. rewrite H. now intros [x Hx].
Qed.

Lemma firstSegment_plain (name : string) :
  plainName name -> firstSegment name = name.
Proof. intros [Hd _]. unfold firstSegment. now rewrite (split_dotfree name Hd). Qed.

(** The validator finds no handler under an id that is not registered. *)
Lemma unregistered_absent (registry : HandlerRegistry) (handlerId : string) :
  Unregistered registry handlerId -> handlerExists registry handlerId = false.
Proof.
  intros [name Hp Hl | name Hp Hl | name Hp Hl | name Hp Hl].
  - unfold handlerExists, splitHandlerId. rewrite (proj1 Hp). cbn [String.eqb].
    now apply (lacks_present (Some (handlers registry))).
  - rewrite (proj1 (handlerExists_checked_fields registry name)).
    rewrite (firstSegment_plain name Hp).
    now apply (lacks_present (Some (handlers registry))).
  - rewrite (proj1 (proj2 (handlerExists_checked_fields registry name))).
    rewrite (firstSegment_plain name Hp). now apply lacks_present.
  - rewrite (proj2 (proj2 (handlerExists_checked_fields registry name))).
    rewrite (firstSegment_plain name Hp). now apply lacks_present.
Qed.

(** C7 (as amended).  When a registry is supplied, for every step of the
    tree, at any depth and whatever the compatibility mode: a [step] whose
    action the [handlers] bucket lacks, an [agent] step whose agent the
    [agents] lack, a [tool] step whose tool the [tools] lack, a branch
    condition or a loop condition whose handler is not registered, and a
    [workflow] step whose [workflowId] the registry's workflows lack, each
    yields an error at that field, with the message that names the kind
    and the missing name.  The names are single segments (for a
    [workflowId], any text) other than the names of the members every
    object inherits.  For a leaf step that names its target by another
    field than [action], [agent] or [tool] (a [network], voice, document,
    GraphRAG, [evals], [memory], [vectorStore], [rag], [http], [logger] or
    [requestContext] step) the handler check reports nothing, whatever the
    registry holds. *)
Theorem handler_existence (spec : WorkflowSpec) (registry : HandlerRegistry)
  (step : StepSpec) :
  Within (spec_steps spec) step ->
  exists sp,
    In (step, sp) (visitSteps (spec_steps spec) (spec_id spec +:+ ".steps"))
    /\ (forall l action,
          step = SLeaf l -> leaf_kind l = KStep action ->
          plainName action -> handlers registry !! action = None ->
          In {| path := sp +:+ ".action"; severity := Error;
                message := "Missing handler: " +:+ action +:+ "." |}
            (validateWorkflowSchemas spec (Some registry)))
    /\ (forall l agent,
          step = SLeaf l -> leaf_kind l = KAgent agent ->
          plainName agent -> lacks (agents registry) agent ->
          In {| path := sp +:+ ".agent"; severity := Error;
                message := "Missing agent: " +:+ agent +:+ "." |}
            (validateWorkflowSchemas spec (Some registry)))
    /\ (forall l tool,
          step = SLeaf l -> leaf_kind l = KTool tool ->
          plainName tool -> lacks (tools registry) tool ->
          In {| path := sp +:+ ".tool"; severity := Error;
                message := "Missing tool: " +:+ tool +:+ "." |}
            (validateWorkflowSchemas spec (Some registry)))
    /\ (forall branches index condition arm,
          step = SBranch branches ->
          nth_error branches index = Some (condition, arm) ->
          Unregistered registry (handler condition) ->
          In {| path := sp +:+ ".branches." +:+ pretty index
                        +:+ ".when.handler";
                severity := Error;
                message := "Missing handler: " +:+ handler condition +:+ "." |}
            (validateWorkflowSchemas spec (Some registry)))
    /\ (forall body condition,
          step = SDoWhile body condition \/ step = SDoUntil body condition ->
          Unregistered registry (handler condition) ->
          In {| path := sp +:+ ".condition.handler"; severity := Error;
                message := "Missing handler: " +:+ handler condition +:+ "." |}
            (validateWorkflowSchemas spec (Some registry)))
    /\ (forall workflowId inputMapping,
          step = SWorkflow workflowId inputMapping ->
          Js.named workflowId Js.objectMembers = false ->
          lacks (workflows registry) workflowId ->
          In {| path := sp +:+ ".workflowId"; severity := Error;
                message := "Missing workflow: " +:+ workflowId +:+ "." |}
            (validateWorkflowSchemas spec (Some registry)))
    /\ (forall l,
          step = SLeaf l -> namesTargetOtherwise (leaf_kind l) = true ->
          visitHandlers registry (step, sp) = []).
Proof.
  intros Hwithin.
  destruct (visitSteps_reaches _ (spec_id spec +:+ ".steps") _ Hwithin)
    as [sp Hsp].
  exists sp. split; [exact Hsp|].
  assert (Hall : forall issue,
            In issue (visitHandlers registry (step, sp)) ->
            In issue (validateWorkflowSchemas spec (Some registry))).
  { intros issue Hi. unfold validateWorkflowSchemas.
    apply in_or_app. right. apply in_or_app. right.
    now apply (validateHandlers_visit _ _ _ step sp). }
  repeat split.
  - intros l action -> Hk Hp Hl. apply Hall. unfold visitHandlers.
    cbn [actionOf]. rewrite Hk.
    rewrite (proj1 (handlerExists_checked_fields registry action)).
    rewrite (firstSegment_plain action Hp).
    rewrite (lacks_present (Some (handlers registry)) action Hl). now left.
  - intros l agent -> Hk Hp Hl. apply Hall. unfold visitHandlers.
    cbn [actionOf agentOf]. rewrite Hk.
    rewrite (proj1 (proj2 (handlerExists_checked_fields registry agent))).
    rewrite (firstSegment_plain agent Hp).
    rewrite (lacks_present (agents registry) agent Hl). now left.
  - intros l tool -> Hk Hp Hl. apply Hall. unfold visitHandlers.
    cbn [actionOf agentOf toolOf]. rewrite Hk.
    rewrite (proj2 (proj2 (handlerExists_checked_fields registry tool))).
    rewrite (firstSegment_plain tool Hp).
    rewrite (lacks_present (tools registry) tool Hl). now left.
  - intros branches index condition arm -> Hnth Habsent.
    apply unregistered_absent in Habsent. apply Hall.
    unfold visitHandlers. cbn [actionOf agentOf toolOf app].
    apply in_or_app. left.
    now apply (branchHandlerIssues_at registry sp branches O index condition arm).
  - intros body condition [-> | ->] Habsent;
      apply unregistered_absent in Habsent; apply Hall;
      unfold visitHandlers; cbn [actionOf agentOf toolOf app];
      rewrite Habsent; now left.
  - intros workflowId inputMapping -> _ Hl. apply Hall.
    unfold visitHandlers. cbn [actionOf agentOf toolOf app].
    rewrite (lacks_present (workflows registry) workflowId Hl). now left.
  - intros l -> Hk. unfold visitHandlers. cbn [actionOf agentOf toolOf].
    destruct (leaf_kind l); try discriminate; reflexivity.
Qed.

Lemma handler_existence_witness :
  exists sp,
    In {| path := sp +:+ ".action"; severity := Error;
          message := "Missing handler: send." |}
      (validateWorkflowSchemas (specOf nestedMissing (Some Warn))
         (Some emptyRegistry)).
Proof.
  assert (Hwithin : Within (spec_steps (specOf nestedMissing (Some Warn)))
                      sendStep).
  { apply within_nested with (parent := SParallel [sendStep]).
    - apply within_top. left. reflexivity.
    - apply child_parallel. left. reflexivity. }
  destruct (handler_existence (specOf nestedMissing (Some Warn)) emptyRegistry
              sendStep Hwithin) as (sp & _ & Haction & _).
  exists sp.
  apply (Haction _ "send" eq_refl eq_refl); [split; reflexivity | reflexivity].
Defined.

(** C7, as stated, fails: a leaf step that declares the handler [recall]
    of the [memory] bucket, which the registry does not hold, yields no
    issue at all. *)
Lemma memory_target_unchecked :
  declaredTarget memoryStep = Some "memory.recall"
  /\ lacks (memory emptyRegistry) "recall"
  /\ handlerExists emptyRegistry "memory.recall" = false
  /\ resolveHandler emptyRegistry "memory.recall"
     = Err "Missing handler: memory.recall"
  /\ validateWorkflowSchemas (specOf [memoryStep] (Some Strict))
       (Some emptyRegistry) = []
  /\ validateWorkflowSchemas (specOf [memoryStep] (Some Warn))
       (Some emptyRegistry) = [].
Proof. repeat split; vm_compute; reflexivity. Qed.

(* ===================================================================== *)
(** * Further properties of the resolver                                  *)
(* ===================================================================== *)

Section JValue_induction.

Variable P : JValue -> Prop.

Hypothesis P_null : P JNull.
Hypothesis P_bool : forall b, P (JBool b).
Hypothesis P_num : forall n, P (JNum n).
Hypothesis P_str : forall s, P (JStr s).
Hypothesis P_arr : forall items, Forall P items -> P (JArr items).
Hypothesis P_obj : forall fields,
  Forall (fun field => P (snd field)) fields -> P (JObj fields).

Lemma JValue_nested_ind (v : JValue) : P v.
Proof.
  revert v. fix IH 1. intros [|b|n|s|items|fields].
  - apply P_null.
  - apply P_bool.
  - apply P_num.
  - apply P_str.
  - apply P_arr.
    induction items as [|x items IHitems]; constructor; [apply IH | exact IHitems].
  - apply P_obj.
    induction fields as [|[k x] fields IHfields]; constructor;
      [apply IH | exact IHfields].
Qed.

End JValue_induction.

Lemma scan_plain (s : string) : noOpening s = true -> scan 0 s = literal s.
Proof.
  induction s as [|c s IH]; intros H; [reflexivity|].
  simpl in H. apply andb_true_iff in H as [Hc Hs].
  change (literal (String c s)) with (Lit c :: literal s).
  rewrite <- (IH Hs).
  assert (Hm : matchHere (String c s) = None).
  { destruct s as [|d s]; [reflexivity|]. simpl in *.
    apply negb_true_iff in Hc. now rewrite Hc. }
  change (scan 0 (String c s)) with
    (match matchHere (String c s) with
     | Some e' => Hole e' :: scan (String.length e' + 2) s
     | None => Lit c :: scan 0 s
     end).
  now rewrite Hm.
Qed.

Lemma resolveTemplateString_plain (s : string) (context : TemplateContext) :
  noOpening s = true -> resolveTemplateString s context = Ok s.
Proof.
  intros H. unfold resolveTemplateString.
  now rewrite (scan_plain s H), resolve_literal, concat_chars.
Qed.

Lemma mapR_map {A B} (f : A -> Result B) (g : A -> B) (l : list A) :
  Forall (fun x => f x = Ok (g x)) l -> mapR f l = Ok (map g l).
Proof.
  induction 1 as [|x l Hx _ IH]; [reflexivity|].
  simpl. rewrite Hx. now rewrite IH.
Qed.

(** Resolution of a value that holds no expression only drops the entries
    an assignment cannot create. *)
Lemma resolveTemplates_plain (value : JValue) (context : TemplateContext) :
  plain value = true -> resolveTemplates value context = Ok (withoutProto value).
Proof.
  induction value as [|b|n|s|items IH|fields IH] using JValue_nested_ind;
    intros Hp; try reflexivity.
  - simpl in *. now rewrite (resolveTemplateString_plain s context Hp).
  - cbn [resolveTemplates withoutProto]. cbn [plain] in Hp.
    rewrite (mapR_map (fun item => resolveTemplates item context) withoutProto
               items); [reflexivity|].
    rewrite forallb_forall in Hp. rewrite List.Forall_forall in IH |- *.
    intros x Hx. apply (IH x Hx), Hp, Hx.
  - cbn [resolveTemplates withoutProto]. cbn [plain] in Hp.
    apply andb_true_iff in Hp as [Hpe Hp]. apply negb_true_iff in Hpe.
    rewrite Hpe.
    rewrite (mapR_map (fun entry =>
                         match resolveTemplates (snd entry) context with
                         | Err m => Err m
                         | Ok r => Ok (fst entry, r)
                         end)
               (fun kv => (fst kv, withoutProto (snd kv))) fields).
    + reflexivity.
    + rewrite forallb_forall in Hp. rewrite List.Forall_forall in IH |- *.
      intros [k x] Hx. pose proof (IH (k, x) Hx (Hp _ Hx)) as E.
      cbn [fst snd] in E |- *. now rewrite E.
Qed.

Lemma withoutProto_protoFree (value : JValue) :
  protoFree value = true -> withoutProto value = value.
Proof.
  induction value as [|b|n|s|items IH|fields IH] using JValue_nested_ind;
    intros Hp; try reflexivity.
  - cbn [withoutProto]. cbn [protoFree] in Hp. f_equal.
    rewrite forallb_forall in Hp. rewrite List.Forall_forall in IH.
    induction items as [|x items IHl]; [reflexivity|].
    cbn [map]. rewrite (IH x (or_introl eq_refl) (Hp x (or_introl eq_refl))).
    f_equal. apply IHl; intros y Hy; [apply IH | apply Hp]; now right.
  - cbn [withoutProto]. cbn [protoFree] in Hp. f_equal.
    rewrite forallb_forall in Hp. rewrite List.Forall_forall in IH.
    induction fields as [|[k x] fields IHl]; [reflexivity|].
    pose proof (Hp (k, x) (or_introl eq_refl)) as Hkx.
    cbn [fst snd] in Hkx. apply andb_true_iff in Hkx as [Hk Hx].
    pose proof (IH (k, x) (or_introl eq_refl) Hx) as Ex. cbn [snd] in Ex.
    cbn [map List.filter fst snd]. rewrite Hk, Ex.
    f_equal. apply IHl; intros y Hy; [apply IH | apply Hp]; now right.
Qed.

(** X1.  A value that holds no expression (no string with the opening of a
    placeholder, no path expression object) is returned, whatever the
    context holds, as it is but for the entries keyed [__proto__], which
    the copy does not receive: the result is the value without them at
    every depth, and it is the value itself when no object in it has such
    an entry. *)
Theorem plain_value_unchanged (value : JValue) (context : TemplateContext) :
  plain value = true ->
  resolveTemplates value context = Ok (withoutProto value)
  /\ (protoFree value = true -> resolveTemplates value context = Ok value).
Proof.
  intros Hp. split; [now apply resolveTemplates_plain|].
  intros Hf. rewrite (resolveTemplates_plain value context Hp).
  now rewrite (withoutProto_protoFree value Hf).
Qed.

Lemma plain_value_unchanged_witness :
  resolveTemplates
    (JObj [("note", JStr "costs $5 {net}"); ("__proto__", JObj [("b", JNum 1)]);
           ("tags", JArr [JNum 1; JNull])])
    listContext
  = Ok (JObj [("note", JStr "costs $5 {net}"); ("tags", JArr [JNum 1; JNull])])
  /\ resolveTemplates
       (JObj [("note", JStr "costs $5 {net}"); ("tags", JArr [JNum 1; JNull])])
       listContext
     = Ok (JObj [("note", JStr "costs $5 {net}"); ("tags", JArr [JNum 1; JNull])]).
Proof.
  split.
  - apply (plain_value_unchanged
             (JObj [("note", JStr "costs $5 {net}");
                    ("__proto__", JObj [("b", JNum 1)]);
                    ("tags", JArr [JNum 1; JNull])])). reflexivity.
  - apply plain_value_unchanged; reflexivity.
Defined.

Lemma mapR_Ok {A B} (f : A -> Result B) (l : list A) (rs : list B) :
  mapR f l = Ok rs <-> Forall2 (fun x y => f x = Ok y) l rs.
Proof.
  revert rs. induction l as [|x l IH]; intros rs; simpl.
  - split; [intros H; injection H as <-; constructor|].
    intros H. inversion H. reflexivity.
  - destruct (f x) as [y|m] eqn:Ex.
    + fold (mapR f l). destruct (mapR f l) as [ys|m] eqn:El.
      * split.
        -- intros H. injection H as <-. constructor; [exact Ex|]. now apply IH.
        -- intros H. inversion H as [|? y' ? ys' Hy Hys]; subst.
           apply IH in Hys. injection Hys as ->.
           rewrite Ex in Hy. now injection Hy as ->.
      * split; [discriminate|]. intros H.
        inversion H as [|? y' ? ys' Hy Hys]; subst.
        apply IH in Hys. discriminate.
    + split; [discriminate|]. intros H.
      inversion H as [|? y' ? ys' Hy Hys]; subst. rewrite Ex in Hy. discriminate.
Qed.

Lemma mapR_cons {A B} (f : A -> Result B) (x : A) (l : list A) :
  mapR f (x :: l)
  = match f x with
    | Err m => Err m
    | Ok y => match mapR f l with Err m => Err m | Ok ys => Ok (y :: ys) end
    end.
Proof. reflexivity. Qed.

Lemma mapR_first_failure {A B} (f : A -> Result B) (pre post : list A) (x : A)
  (m : string) :
  Forall (fun y => isOk (f y) = true) pre -> f x = Err m ->
  mapR f (pre ++ x :: post) = Err m.
Proof.
  intros Hpre Hx. induction Hpre as [|y pre Hy _ IH]; simpl.
  - now rewrite Hx.
  - destruct (f y); [|discriminate]. fold (mapR f (pre ++ x :: post)).
    now rewrite IH.
Qed.

(** X2.  Resolution keeps the shape of its argument: a string yields a
    string; an array yields the array of the resolutions of its elements,
    one for one; an object that is no path expression has every entry
    resolved, in order, and yields an object with the keys other than
    [__proto__], in the same order, each holding the resolution of its
    entry; [null], booleans and numbers are returned as they are. *)
Theorem resolution_keeps_shape (value resolved : JValue)
  (context : TemplateContext) :
  resolveTemplates value context = Ok resolved ->
  resolvedMemberwise context value resolved.
Proof.
  destruct value as [|b|n|s|items|fields]; cbn [resolveTemplates resolvedMemberwise];
    try (intros H; now injection H as <-).
  - destruct (resolveTemplateString s context) as [text|]; [|discriminate].
    intros H. injection H as <-. now exists text.
  - destruct (mapR _ items) as [rs|] eqn:E; [|discriminate].
    intros H. injection H as <-. exists rs. split; [reflexivity|].
    now apply mapR_Ok in E.
  - intros H Hpe. rewrite Hpe in H.
    destruct (mapR _ fields) as [rs|] eqn:E; [|discriminate].
    injection H as <-. exists rs. split; [reflexivity|].
    apply mapR_Ok in E. unfold Js.keys. clear Hpe.
    induction E as [|[k x] [k' y] fields rs Hxy _ IH]; [split; constructor|].
    cbn [fst snd] in Hxy.
    destruct (resolveTemplates x context) as [r|] eqn:Er; [|discriminate].
    injection Hxy as <- <-. destruct IH as [IHk IHf]. split.
    + simpl. now rewrite IHk.
    + constructor; [exact Er | exact IHf].
Qed.

Lemma resolution_keeps_shape_witness :
  resolvedMemberwise listContext
    (JObj [("first", JStr "${input.items.0}"); ("__proto__", JStr "x");
           ("count", JNum 2)])
    (JObj [("first", JStr "a"); ("count", JNum 2)]).
Proof. apply resolution_keeps_shape. reflexivity. Defined.

(** X3.  The members of an array, and the entries of an object that is no
    path expression, are resolved in order and the first failure is the
    failure of the whole: when the members before one resolve and that one
    fails, the array or object fails with its message, whatever follows. *)
Theorem first_failure_wins (context : TemplateContext) (m : string) :
  (forall pre post item,
     Forall (fun y => isOk (resolveTemplates y context) = true) pre ->
     resolveTemplates item context = Err m ->
     resolveTemplates (JArr (pre ++ item :: post)) context = Err m)
  /\ (forall pre post key entry,
        Forall (fun field => isOk (resolveTemplates (snd field) context) = true)
          pre ->
        resolveTemplates entry context = Err m ->
        isPathExpression (pre ++ (key, entry) :: post) = false ->
        resolveTemplates (JObj (pre ++ (key, entry) :: post)) context = Err m).
Proof.
  split.
  - intros pre post item Hpre Hx. cbn [resolveTemplates].
    now rewrite (mapR_first_failure _ pre post item m Hpre Hx).
  - intros pre post key entry Hpre Hx Hpe. cbn [resolveTemplates].
    rewrite Hpe.
    rewrite (mapR_first_failure _ pre post (key, entry) m); [reflexivity| |].
    + eapply List.Forall_impl; [|exact Hpre]. intros [k x]. cbn [fst snd].
      now destruct (resolveTemplates x context).
    + cbn [snd]. now rewrite Hx.
Qed.

(** ** White space and the spellings of an expression *)














Lemma first_failure_wins_witness :
  resolveTemplates
    (JArr ([JStr "${input.items.0}"] ++ JStr "${input.none}"
           :: [JStr "${nowhere.x}"])) listContext
  = Err "Template resolution failed for input.none".
Proof.
  apply (proj1 (first_failure_wins listContext
                  "Template resolution failed for input.none")).
  - repeat constructor.
  - reflexivity.
Defined.





Lemma includes_app (c : ascii) (a b : string) :
  Js.includes c (a +:+ b) = Js.includes c a || Js.includes c b.
Proof.
  induction a as [|d a IH]; simpl; [reflexivity|].
  now rewrite IH, orb_assoc.
Qed.




(** X6.  An object whose only key is [$path] or [$jsonPath] is never kept
    as data: when the value under the key is not a string, resolution
    fails with the message for a path expression that is no string. *)
Theorem path_expression_must_be_text (context : TemplateContext)
  (key : string) (expression : JValue) :
  key = "$path" \/ key = "$jsonPath" ->
  (forall text, expression <> JStr text) ->
  resolveTemplates (JObj [(key, expression)]) context
  = Err "Path expression must be a string.".
Proof.
  intros [-> | ->] H; destruct expression as [|b|n|s|items|fields];
    try reflexivity; now contradiction (H s).
Qed.

Lemma path_expression_must_be_text_witness :
  resolveTemplates (JObj [("$path", JNum 5)]) listContext
  = Err "Path expression must be a string.".
Proof.
  apply path_expression_must_be_text; [now left | discriminate].
Defined.

(* ===================================================================== *)
(** * Further properties of the registry                                  *)
(* ===================================================================== *)

Lemma split_dotted (s : string) :
  Js.includes "." s = true ->
  exists first second rest, Js.split "." s = first :: second :: rest.
Proof.
  induction s as [|c s IH]; simpl; [discriminate|].
  destruct (Ascii.eqb c ".") eqn:Ec; simpl.
  - intros _. destruct (split_first s) as [rest Hs]. rewrite Hs. eauto.
  - intros H. destruct (IH H) as (first & second & rest & ->). eauto.
Qed.

Lemma join_split (s : string) : Js.join "." (Js.split "." s) = s.
Proof.
  unfold Js.join. induction s as [|c s IH]; [reflexivity|].
  cbn [Js.split]. destruct (split_first s) as [rest Hs]. rewrite Hs in IH |- *.
  destruct (Ascii.eqb c ".") eqn:Ec.
  - apply Ascii.eqb_eq in Ec as ->.
    change (String.concat "." ("" :: firstSegment s :: rest))
      with ("." +:+ String.concat "." (firstSegment s :: rest)).
    now rewrite IH.
  - destruct rest as [|second rest]; simpl in IH |- *; now rewrite IH.
Qed.

Lemma splitHandlerId_prefixed (namespace name : string) :
  Js.includes "." namespace = false ->
  splitHandlerId (namespace +:+ "." +:+ name)
  = (namespace, Some (firstSegment name)).
Proof.
  intros Hn. unfold splitHandlerId.
  rewrite includes_app. cbn [Js.includes String.append Ascii.eqb Bool.eqb orb].
  rewrite orb_true_r.
  assert (Hs : Js.split "." (namespace +:+ String "." name)
               = namespace :: Js.split "." name).
  { clear -Hn. induction namespace as [|c n IH]; [reflexivity|].
    simpl in Hn |- *. destruct (Ascii.eqb c "."); [discriminate|].
    simpl in Hn. now rewrite (IH Hn). }
  rewrite Hs. destruct (split_first name) as [rest ->]. reflexivity.
Qed.

Lemma inb_false_cons (x y : string) (l : list string) :
  inb x (y :: l) = false -> String.eqb x y = false /\ inb x l = false.
Proof. unfold inb. simpl. apply orb_false_iff. Qed.

Lemma resolveHandler_handlerExists (registry : HandlerRegistry)
  (handlerId : string) :
  inb (namespaceOf handlerId) divergentNamespaces = false ->
  isOk (resolveHandler registry handlerId) = handlerExists registry handlerId.
Proof.
  unfold namespaceOf, resolveHandler, handlerExists, divergentNamespaces.
  destruct (splitHandlerId handlerId) as [namespace [name|]]; [|reflexivity].
  cbn [fst]. intros H.
  repeat (apply inb_false_cons in H as [?E H]).
  rewrite E, E0, E1, E2, E3, E4, E5, E6. cbn [orb].
  destruct (String.eqb namespace "handlers");
    [now destruct (present _ _)|].
  destruct (String.eqb namespace "agent"); [now destruct (present _ _)|].
  destruct (String.eqb namespace "tool"); [now destruct (present _ _)|].
  destruct (String.eqb namespace "graphRag") eqn:Eg.
  { apply String.eqb_eq in Eg as ->. cbn. now destruct (present _ _). }
  destruct (String.eqb namespace "evals") eqn:Ee.
  { apply String.eqb_eq in Ee as ->. cbn. now destruct (present _ _). }
  now destruct (presentIn registry namespace name).
Qed.

(** X7.  Outside eight namespaces ([mcp], [network], [tts], [listen], the
    three [document...] ones and [graphRagQuery]) the validator and the
    resolver agree on every registry: the handler id exists for the
    validator exactly when the resolver returns a handler for it.  This
    covers ids without a dot and the [handlers], [agent] and [tool]
    namespaces. *)
Theorem resolver_agrees_with_validator (registry : HandlerRegistry)
  (handlerId : string) :
  inb (namespaceOf handlerId) divergentNamespaces = false ->
  isOk (resolveHandler registry handlerId) = handlerExists registry handlerId.
Proof. apply resolveHandler_handlerExists. Qed.

Lemma resolver_agrees_with_validator_witness :
  isOk (resolveHandler itemRegistry "processItem")
  = handlerExists itemRegistry "processItem".
Proof. apply resolver_agrees_with_validator. reflexivity. Defined.

Lemma error_blocks_compile (spec : WorkflowSpec) (registry : HandlerRegistry)
  (issue : SchemaIssue) :
  In issue (validateWorkflowSchemas spec (Some registry)) ->
  severity issue = Error ->
  exists m, compileWorkflow spec registry = Err m /\ isSchemaFailure m = true.
Proof.
  intros Hin Hsev. rewrite compileWorkflow_cases.
  destruct (validationErrors spec registry) as [|e errors] eqn:E.
  - exfalso. unfold validationErrors in E.
    assert (Hf : In issue (List.filter isError
                             (validateWorkflowSchemas spec (Some registry)))).
    { apply filter_In. split; [assumption|]. unfold isError. now rewrite Hsev. }
    rewrite E in Hf. contradiction.
  - eexists. split; [reflexivity|]. apply validationFailure_is_schema_failure.
Qed.

Lemma unvalidated_absent (registry : HandlerRegistry) (handlerId : string) :
  inb (namespaceOf handlerId) unvalidatedNamespaces = true ->
  handlerExists registry handlerId = false.
Proof.
  unfold namespaceOf, handlerExists. intros H. apply inb_In in H.
  destruct (splitHandlerId handlerId) as [namespace [name|]]; [|reflexivity].
  cbn [fst] in H. unfold unvalidatedNamespaces in H.
  repeat (destruct H as [<-|H]; [reflexivity|]). contradiction.
Qed.

(** X8.  A branch arm or a loop whose condition handler lies in one of
    the namespaces [network], [tts], [listen], [documentChunk],
    [documentMetadata], [documentTransform] or [graphRagQuery] never
    compiles: wherever the step stands in the tree and whatever the
    registry holds, the validator reports the handler missing and
    compilation fails with the schema validation failure. *)
Theorem unvalidated_condition_never_compiles (spec : WorkflowSpec)
  (registry : HandlerRegistry) (step : StepSpec) (condition : Condition) :
  Within (spec_steps spec) step ->
  In condition (conditionsOf step) ->
  inb (namespaceOf (handler condition)) unvalidatedNamespaces = true ->
  exists m, compileWorkflow spec registry = Err m /\ isSchemaFailure m = true.
Proof.
  intros Hw Hc Hns.
  pose proof (unvalidated_absent registry _ Hns) as Habsent.
  destruct (visitSteps_reaches _ (spec_id spec +:+ ".steps") _ Hw) as [sp Hsp].
  assert (Hissue : exists issue,
    In issue (visitHandlers registry (step, sp)) /\ severity issue = Error).
  { destruct step; try contradiction; cbn [conditionsOf] in Hc.
    - apply in_map_iff in Hc as ([c arm] & <- & Hin).
      apply In_nth_error in Hin as [offset Hnth].
      pose proof (branchHandlerIssues_at registry sp _ O offset c arm Hnth
                    Habsent) as Hb.
      exists (missingIssue sp
                (".branches." +:+ pretty (0 + offset)%nat +:+ ".when.handler")
                "handler" (handler c)).
      split; [|reflexivity]. unfold visitHandlers.
      do 3 (apply in_or_app; right). apply in_or_app. left. exact Hb.
    - destruct Hc as [->|[]].
      exists (missingIssue sp ".condition.handler" "handler" (handler condition)).
      split; [|reflexivity].
      unfold visitHandlers. do 4 (apply in_or_app; right).
      apply in_or_app. left. rewrite Habsent. now left.
    - destruct Hc as [->|[]].
      exists (missingIssue sp ".condition.handler" "handler" (handler condition)).
      split; [|reflexivity].
      unfold visitHandlers. do 4 (apply in_or_app; right).
      apply in_or_app. left. rewrite Habsent. now left. }
  destruct Hissue as (issue & Hin & Hsev).
  apply (error_blocks_compile spec registry issue); [|assumption].
  unfold validateWorkflowSchemas. do 2 (apply in_or_app; right).
  now apply (validateHandlers_visit _ _ registry step sp).
Qed.

Lemma unvalidated_condition_never_compiles_witness :
  isOk (resolveHandler networkRegistry "network.route") = true
  /\ exists m,
       compileWorkflow
         (specOf [SDoWhile itemStep (conditionOn "network.route")] None)
         networkRegistry = Err m
       /\ isSchemaFailure m = true.
Proof.
  split; [reflexivity|].
  apply (unvalidated_condition_never_compiles _ _
           (SDoWhile itemStep (conditionOn "network.route"))
           (conditionOn "network.route")).
  - apply within_top. now left.
  - now left.
  - reflexivity.
Defined.

(** X9.  A handler id without a dot names a generic handler.  When the
    id is not the name of a member every object inherits, it resolves to
    the entry of the [handlers] bucket under that name when the bucket
    owns one, and to nothing otherwise.  In every case the id
    [handlers.<name>] resolves as the bare id does. *)
Theorem bare_id_is_generic_handler (registry : HandlerRegistry)
  (name : string) (h : Resolved) :
  Js.includes "." name = false ->
  (Js.named name Js.objectMembers = false ->
   (resolveHandler registry name = Ok h
    <-> h = RegistryEntry "handlers" name
        /\ is_Some (handlers registry !! name))
   /\ (handlers registry !! name = None ->
       resolveHandler registry name = Err ("Missing handler: " +:+ name)))
  /\ (resolveHandler registry ("handlers." +:+ name) = Ok h
      <-> resolveHandler registry name = Ok h).
Proof.
  intros Hd.
  assert (Hbare : resolveHandler registry name
                  = if present (Some (handlers registry)) name
                    then Ok (RegistryEntry "handlers" name)
                    else Err ("Missing handler: " +:+ name)).
  { unfold resolveHandler, splitHandlerId. now rewrite Hd. }
  assert (Hfull : resolveHandler registry ("handlers." +:+ name)
                  = if present (Some (handlers registry)) name
                    then Ok (RegistryEntry "handlers" name)
                    else Err ("Missing handler: " +:+ "handlers." +:+ name)).
  { unfold resolveHandler.
    change ("handlers." +:+ name) with ("handlers" +:+ "." +:+ name) at 1.
    rewrite (splitHandlerId_prefixed "handlers" name eq_refl).
    unfold firstSegment. now rewrite (split_dotfree name Hd). }
  rewrite Hfull, Hbare. unfold present.
  destruct (bool_decide (is_Some (handlers registry !! name))) eqn:E.
  - apply bool_decide_eq_true in E. split; [|reflexivity].
    intros _. split.
    + split; [intros H; injection H as <-; now split | intros [-> _]; reflexivity].
    + intros Hn. rewrite Hn in E. now destruct E.
  - apply bool_decide_eq_false in E. split.
    + intros _. split; [|reflexivity].
      split; [discriminate | intros [_ H]; contradiction].
    + split; discriminate.
Qed.

Lemma bare_id_is_generic_handler_witness :
  ((resolveHandler itemRegistry "processItem"
    = Ok (RegistryEntry "handlers" "processItem")
    <-> RegistryEntry "handlers" "processItem"
        = RegistryEntry "handlers" "processItem"
        /\ is_Some (handlers itemRegistry !! "processItem"))
   /\ (handlers itemRegistry !! "processItem" = None ->
       resolveHandler itemRegistry "processItem"
       = Err ("Missing handler: " +:+ "processItem")))
  /\ (resolveHandler itemRegistry ("handlers." +:+ "processItem")
      = Ok (RegistryEntry "handlers" "processItem")
      <-> resolveHandler itemRegistry "processItem"
          = Ok (RegistryEntry "handlers" "processItem")).
Proof.
  destruct (bare_id_is_generic_handler itemRegistry "processItem"
              (RegistryEntry "handlers" "processItem") eq_refl) as [Hown Hsame].
  split; [exact (Hown eq_refl) | exact Hsame].
Defined.

(** X10.  An [mcp] step is served from the [mcp] bucket under the key
    [<server>.<tool>], dots in the server or tool name included: the step
    is built around that entry when the bucket holds the key, and
    building fails with the missing MCP handler message when it does
    not. *)
Theorem mcp_step_lookup (registry : HandlerRegistry) (l : LeafStep)
  (server tool : string) :
  leaf_kind l = KMcp server tool ->
  buildStep (SLeaf l) registry
  = if present (mcp registry) (server +:+ "." +:+ tool)
    then Ok (createdLeaf l (RegistryEntry "mcp" (server +:+ "." +:+ tool)))
    else Err ("Missing MCP handler: " +:+ "mcp." +:+ server +:+ "." +:+ tool).
Proof.
  intros Hk. cbn [buildStep]. unfold deriveHandlerId. rewrite Hk.
  set (target := server +:+ "." +:+ tool).
  assert (Hr : resolveHandler registry ("mcp." +:+ target)
               = if present (mcp registry) target
                 then Ok (RegistryEntry "mcp" target)
                 else Err ("Missing MCP handler: " +:+ "mcp." +:+ target)).
  { assert (Hdot : Js.includes "." target = true).
    { unfold target. rewrite includes_app. simpl. apply orb_true_r. }
    destruct (split_dotted target Hdot) as (first & second & rest & Hs).
    assert (Hsplit : Js.split "." ("mcp." +:+ target)
                     = "mcp" :: first :: second :: rest).
    { cbn [String.append Js.split Ascii.eqb Bool.eqb]. now rewrite Hs. }
    unfold resolveHandler, splitHandlerId.
    change (Js.includes "." ("mcp." +:+ target)) with true. cbv iota.
    rewrite Hsplit.
    change (String.eqb "mcp" "handlers") with false.
    change (String.eqb "mcp" "agent") with false.
    change (String.eqb "mcp" "tool") with false.
    change (String.eqb "mcp" "mcp") with true. cbv iota.
    assert (Hkey : first +:+ "." +:+ Js.join "." (second :: rest) = target).
    { rewrite <- (join_split target), Hs. reflexivity. }
    cbv zeta. now rewrite Hkey. }
  rewrite Hr. now destruct (present (mcp registry) target).
Qed.

Lemma mcp_step_lookup_witness :
  isOk (buildStep (schemaLeaf (KMcp "files" "read.text") "load" objectSchema
                     objectSchema) networkRegistry) = true.
Proof.
  unfold schemaLeaf. erewrite mcp_step_lookup by reflexivity. reflexivity.
Defined.

(* ===================================================================== *)
(** * Further properties of mapping tables                                *)
(* ===================================================================== *)


Lemma validated_entry (availableSteps : gset string) (p key : string)
  (mapping : JValue) :
  (forall issue, In issue (mappingIssues availableSteps p (key, mapping)) ->
                 severity issue = Warning) ->
  exists entry, buildMappingEntry (key, mapping) = Ok (key, entry)
                /\ translatedAs availableSteps mapping entry.
Proof.
  unfold mappingIssues, translatedAs. intros H.
  destruct (negb (Js.truthy mapping) || negb (Js.typeofObject mapping)) eqn:Eg.
  { specialize (H _ (or_introl eq_refl)). discriminate. }
  assert (Hb : buildMappingEntry (key, mapping)
               = if Js.hasProp "value" mapping
                 then Ok (key, MapValue (Js.getProp mapping "value"))
                 else if isFrom (Js.getProp mapping "from") "requestContext"
                 then Ok (key, MapRequestContextPath (Js.getProp mapping "path")
                                 (toZod (JObj [])))
                 else if isFrom (Js.getProp mapping "from") "init"
                 then Ok (key, MapInitData (Js.getProp mapping "path"))
                 else Ok (key, MapStep (Js.getProp mapping "stepId")
                                 (Js.getProp mapping "path"))).
  { apply orb_false_iff in Eg as [Et Eo].
    destruct mapping; try reflexivity; discriminate. }
  rewrite Hb. clear Hb.
  destruct (Js.hasProp "value" mapping); [eauto|].
  destruct (isFrom (Js.getProp mapping "from") "requestContext") eqn:Erc.
  { eexists. split; [reflexivity|]. left. now split. }
  destruct (isFrom (Js.getProp mapping "from") "init") eqn:Ei.
  { eexists. split; [reflexivity|]. right. left. now split. }
  destruct (isFrom (Js.getProp mapping "from") "step") eqn:Es.
  - cbn [andb negb app] in H.
    destruct (unknownStep availableSteps (Js.getProp mapping "stepId")) eqn:Eu.
    { specialize (H _ (or_introl eq_refl)). discriminate. }
    unfold unknownStep in Eu.
    destruct (Js.getProp mapping "stepId") as [[| | |stepId| |]|] eqn:Eid;
      try discriminate.
    apply negb_false_iff, bool_decide_eq_true in Eu.
    eexists. split; [reflexivity|]. right. right. split; [reflexivity|].
    now exists stepId.
  - cbn [andb negb app] in H.
    specialize (H _ (or_introl eq_refl)). discriminate.
Qed.

Lemma validated_tables (mappings : list (string * JValue))
  (availableSteps : gset string) (p : string) :
  (forall issue, In issue (validateMappings mappings availableSteps p) ->
                 severity issue = Warning) ->
  exists config,
    buildMapping mappings = Ok config
    /\ Forall2 (fun entry out =>
                  fst out = fst entry
                  /\ translatedAs availableSteps (snd entry) (snd out))
         mappings config.
Proof.
  unfold validateMappings, buildMapping.
  induction mappings as [|[key mapping] mappings IH]; intros H.
  - exists []. split; [reflexivity | constructor].
  - cbn [flat_map] in H.
    destruct (validated_entry availableSteps p key mapping) as (entry & He & Ht).
    { intros issue Hin. apply H. apply in_or_app. now left. }
    destruct IH as (config & Hc & Hf).
    { intros issue Hin. apply H. apply in_or_app. now right. }
    exists ((key, entry) :: config). rewrite mapR_cons, He, Hc.
    split; [reflexivity|]. constructor; [now split | exact Hf].
Qed.



(* ===================================================================== *)
(** * Further properties of the validator                                 *)
(* ===================================================================== *)

Lemma sameButSeverity_refl (l : list SchemaIssue) :
  Forall2 sameButSeverity l l.
Proof. induction l; constructor; [now repeat split | assumption]. Qed.

Lemma sameButSeverity_one (a b : SchemaIssue) (c : bool) :
  sameButSeverity a b ->
  Forall2 sameButSeverity (if c then [a] else []) (if c then [b] else []).
Proof. intros H. destruct c; [|constructor]. constructor; [exact H | constructor]. Qed.

Lemma compatibilityFuel_modes (fuel : nat) (o i : option JValue) (p : string) :
  Forall2 sameButSeverity (compatibilityFuel fuel o i p Strict)
    (compatibilityFuel fuel o i p Warn).
Proof.
  revert o i p. induction fuel as [|fuel IH]; intros o i p; [constructor|].
  simpl. unfold compatibilityBody.
  destruct o as [o'|]; [|constructor]. destruct i as [i'|]; [|constructor].
  destruct (negb (Js.truthy o') || negb (Js.truthy i')); [constructor|].
  destruct (negb (typeIncludes _ _)).
  { repeat constructor. }
  repeat apply Forall2_app; try apply sameButSeverity_refl.
  - apply sameButSeverity_one. now repeat split.
  - destruct (_ && _); [|constructor].
    destruct (getArrayItems _); [|constructor].
    destruct (getArrayItems _); [|constructor]. apply IH.
Qed.

Lemma compatibility_modes (o i : option JValue) (p : string) :
  Forall2 sameButSeverity (validateSchemaCompatibility o i p Strict)
    (validateSchemaCompatibility o i p Warn).
Proof. apply compatibilityFuel_modes. Qed.

Lemma sequenceLoop_modes (steps : list StepSpec) :
  Forall (fun step =>
            forall avail p index prev,
              Forall2 sameButSeverity
                (fst (validateStep step avail p Strict index prev))
                (fst (validateStep step avail p Warn index prev))) steps ->
  forall avail p index prev,
    Forall2 sameButSeverity (sequenceLoop avail p Strict steps index prev)
      (sequenceLoop avail p Warn steps index prev).
Proof.
  induction 1 as [|s steps Hs _ IH]; intros avail p index prev; [constructor|].
  cbn [sequenceLoop]. rewrite !validateStep_carry.
  apply Forall2_app; [apply Hs | apply IH].
Qed.

Lemma validateStep_modes (step : StepSpec) :
  forall avail p index prev,
    Forall2 sameButSeverity
      (fst (validateStep step avail p Strict index prev))
      (fst (validateStep step avail p Warn index prev)).
Proof.
  induction step as [l|ms id|date id|pr it op ti id|w pl id|m id|conc body IH
                    |branches IH|members IH|body c IH|body c IH|w im
                    |id pr wa ti rs|id d] using StepSpec_nested_ind;
    intros avail p index prev;
    try apply compatibility_modes; try apply sameButSeverity_refl.
  - cbn [validateStep fst]. apply Forall2_app; [|apply compatibility_modes].
    apply sameButSeverity_one. now repeat split.
  - rewrite !validateStep_branch. cbn [fst]. generalize O as bi.
    induction IH as [|b rest Hb _ IHrest]; intros bi; [constructor|].
    cbn [branchIssues]. repeat apply Forall2_app.
    + apply compatibility_modes.
    + unfold validateSequence. now apply sequenceLoop_modes.
    + apply IHrest.
  - cbn [validateStep fst]. generalize O as pi.
    induction members as [|s members IHm]; intros pi; [constructor|].
    cbn [parallelIssues]. apply Forall2_app; [apply compatibility_modes|].
    inversion IH; subst. now apply IHm.
Qed.

Lemma validateSequence_modes (steps : list StepSpec) (p : string)
  (inputSchema : option JValue) :
  Forall2 sameButSeverity (validateSequence steps p Strict inputSchema)
    (validateSequence steps p Warn inputSchema).
Proof.
  apply sequenceLoop_modes. apply Forall_forall. intros s _.
  apply validateStep_modes.
Qed.

Lemma validateWorkflowSchemas_modes (spec : WorkflowSpec)
  (registry : option HandlerRegistry) :
  Forall2 sameButSeverity
    (validateWorkflowSchemas (withMode spec Strict) registry)
    (validateWorkflowSchemas (withMode spec Warn) registry).
Proof.
  unfold validateWorkflowSchemas. cbn.
  repeat apply Forall2_app; try apply sameButSeverity_refl.
  apply validateSequence_modes.
Qed.

(** X13.  The compatibility mode decides severities and nothing else: the
    issues of a specification validated in strict mode and in warn mode
    are the same in number and order, with the same messages and paths,
    and every issue that is an error in warn mode is an error in strict
    mode. *)
Theorem mode_changes_severity_only (spec : WorkflowSpec)
  (registry : option HandlerRegistry) :
  Forall2 sameButSeverity
    (validateWorkflowSchemas (withMode spec Strict) registry)
    (validateWorkflowSchemas (withMode spec Warn) registry).
Proof. apply validateWorkflowSchemas_modes. Qed.

Section SequenceIssuesInMode.

(** A property of issues that the three sources of the issues of a
    sequence establish in a given mode. *)
Variable mode : SchemaCompatibility.
Variable Q : SchemaIssue -> Prop.

Hypothesis Q_compatibility : forall o i q issue,
  In issue (validateSchemaCompatibility o i q mode) -> Q issue.
Hypothesis Q_mapping : forall avail q entry issue,
  In issue (mappingIssues avail q entry) -> Q issue.
Hypothesis Q_foreach : forall p index, Q (foreachIssue p index mode).

Lemma sequenceLoop_in_mode (steps : list StepSpec) :
  Forall (fun step =>
            forall avail p index prev issue,
              In issue (fst (validateStep step avail p mode index prev)) ->
              Q issue) steps ->
  forall avail p index prev issue,
    In issue (sequenceLoop avail p mode steps index prev) -> Q issue.
Proof.
  induction 1 as [|s steps Hs _ IH]; intros avail p index prev issue;
    [contradiction|].
  cbn [sequenceLoop]. intros Hin. apply in_app_or in Hin as [Hin|Hin].
  - now apply (Hs avail p index prev).
  - exact (IH avail p (S index) _ issue Hin).
Qed.

Lemma mappings_in_mode (m : list (string * JValue)) (avail : gset string)
  (q : string) (issue : SchemaIssue) :
  In issue (validateMappings m avail q) -> Q issue.
Proof.
  unfold validateMappings. intros H. apply in_flat_map in H as (entry & _ & H).
  now apply Q_mapping in H.
Qed.

Lemma validateStep_in_mode (step : StepSpec) :
  forall avail p index prev issue,
    In issue (fst (validateStep step avail p mode index prev)) -> Q issue.
Proof.
  induction step as [l|ms id|date id|pr it op ti id|w pl id|m id|conc body IH
                    |branches IH|members IH|body c IH|body c IH|w im
                    |id pr wa ti rs|id d] using StepSpec_nested_ind;
    intros avail p index prev issue Hin;
    try (now apply Q_compatibility in Hin);
    try contradiction.
  - now apply mappings_in_mode in Hin.
  - cbn [validateStep fst] in Hin. apply in_app_or in Hin as [Hin|Hin].
    + destruct (_ && _); [|contradiction]. destruct Hin as [<-|[]].
      apply Q_foreach.
    + now apply Q_compatibility in Hin.
  - rewrite validateStep_branch in Hin. cbn [fst] in Hin.
    revert Hin. generalize O as bi.
    induction IH as [|b rest Hb _ IHrest]; intros bi Hin; [contradiction|].
    cbn [branchIssues] in Hin.
    apply in_app_or in Hin as [Hin|Hin];
      [|apply in_app_or in Hin as [Hin|Hin]].
    + now apply Q_compatibility in Hin.
    + unfold validateSequence in Hin.
      now apply (sequenceLoop_in_mode _ Hb) in Hin.
    + now apply (IHrest (S bi)).
  - cbn [validateStep fst] in Hin. revert Hin. generalize O as pi.
    induction members as [|s members IHm]; intros pi Hin; [contradiction|].
    cbn [parallelIssues] in Hin. apply in_app_or in Hin as [Hin|Hin].
    + now apply Q_compatibility in Hin.
    + inversion IH; subst. now apply (IHm ltac:(assumption) (S pi)).
  - destruct im as [m|]; [|contradiction].
    now apply mappings_in_mode in Hin.
Qed.

Lemma validateSequence_in_mode (steps : list StepSpec) (p : string)
  (inputSchema : option JValue) (issue : SchemaIssue) :
  In issue (validateSequence steps p mode inputSchema) -> Q issue.
Proof.
  apply sequenceLoop_in_mode. apply Forall_forall. intros s _.
  apply validateStep_in_mode.
Qed.

End SequenceIssuesInMode.

Lemma mapping_prefix (issue : SchemaIssue) :
  String.prefix "Mapping " (message issue) = true ->
  isStructuralError issue = true.
Proof. unfold isStructuralError. now intros ->. Qed.

Lemma validateHandlers_missing (steps : list StepSpec) (base : string)
  (registry : HandlerRegistry) (issue : SchemaIssue) :
  In issue (validateHandlers steps base registry) ->
  severity issue = Error /\ String.prefix "Missing " (message issue) = true.
Proof.
  unfold validateHandlers. intros H.
  apply in_flat_map in H as ([step sp] & _ & H). unfold visitHandlers in H.
  repeat (apply in_app_or in H as [H|H]).
  - destruct (actionOf step); [|contradiction].
    destruct (negb _); [|contradiction]. destruct H as [<-|[]]. now split.
  - destruct (agentOf step); [|contradiction].
    destruct (negb _); [|contradiction]. destruct H as [<-|[]]. now split.
  - destruct (toolOf step); [|contradiction].
    destruct (negb _); [|contradiction]. destruct H as [<-|[]]. now split.
  - destruct step; try contradiction. revert H. generalize O as bi.
    induction branches as [|b rest IH]; intros bi H; [contradiction|].
    cbn [branchHandlerIssues] in H. apply in_app_or in H as [H|H].
    + destruct (negb _); [|contradiction]. destruct H as [<-|[]]. now split.
    + now apply (IH (S bi)).
  - destruct step; try contradiction;
      (destruct (negb _); [|contradiction]); destruct H as [<-|[]]; now split.
  - destruct step; try contradiction.
    destruct (negb _); [|contradiction]. destruct H as [<-|[]]. now split.
Qed.

(** X14.  In warn mode, which is the mode of a specification that sets
    none, no disagreement between schemas is an error: every error the
    validator reports is a mapping error, a duplicate step id or a
    missing handler, agent, tool or workflow.  Type mismatches, enum
    mismatches and a foreach after a shape that is no array are
    warnings. *)
Theorem warn_mode_errors (spec : WorkflowSpec)
  (registry : option HandlerRegistry) (issue : SchemaIssue) :
  modeOf spec = Warn ->
  In issue (validateWorkflowSchemas spec registry) ->
  severity issue = Error ->
  isStructuralError issue = true.
Proof.
  intros Hmode Hin Hsev. unfold validateWorkflowSchemas in Hin.
  rewrite Hmode in Hin.
  apply in_app_or in Hin as [Hin|Hin]; [|apply in_app_or in Hin as [Hin|Hin]].
  - refine (validateSequence_in_mode Warn
              (fun x => severity x = Error -> isStructuralError x = true)
              _ _ _ _ _ _ issue Hin Hsev).
    + intros o i q x H. apply compatibility_kinds in H
        as (q' & [(to & ti & ->)|[->|[->|[->|(key & ->)]]]]); discriminate.
    + intros avail q entry x H _.
      apply mappingIssues_kinds in H as (msg & sev & -> & Hp).
      now apply mapping_prefix.
    + discriminate.
  - rewrite validateUniqueStepIds_spec in Hin.
    apply duplicateErrors_kind in Hin as [_ Hd].
    unfold isStructuralError. rewrite Hd, orb_true_r. reflexivity.
  - destruct registry as [registry|]; [|contradiction].
    apply validateHandlers_missing in Hin as [_ Hm].
    unfold isStructuralError. rewrite Hm. apply orb_true_r.
Qed.

Lemma warn_mode_errors_witness :
  isStructuralError (unknownStepIssue "wf.map.0" "v" (Some (JStr "missing")))
  = true.
Proof.
  apply (warn_mode_errors (specOf missingReference None) None).
  - reflexivity.
  - vm_compute. left. reflexivity.
  - reflexivity.
Defined.

(* ===================================================================== *)
(** * Further properties of the graph compiler                            *)
(* ===================================================================== *)

Lemma buildBranches_parent (w w' : Workflow) (registry : HandlerRegistry)
  (index : nat) (branches : list (Condition * list StepSpec)) :
  wf_id w = wf_id w' ->
  buildBranches w registry index branches
  = buildBranches w' registry index branches.
Proof.
  intros Hid. revert index.
  induction branches as [|b rest IH]; intros index; [reflexivity|].
  cbn [buildBranches]. now rewrite Hid, IH.
Qed.

(** A round of [applySteps] appends one operation to the workflow built so
    far; the operation depends on the enclosing workflow through its id
    and its input schema only. *)
Lemma applyStep_op (step : StepSpec) (w : Workflow)
  (registry : HandlerRegistry) :
  exists r,
    forall w' current,
      wf_id w' = wf_id w -> wf_inputSchema w' = wf_inputSchema w ->
      applyStep step w' registry current = appendTo current r.
Proof.
  destruct step as [l|ms id|date id|pr it op ti id|wh pl id|m id|conc body
                   |branches|members|body c|body c|wid im
                   |id pr wa ti rs|id d].
  - destruct (appliedAsLeaf (leaf_kind l)) eqn:Ea.
    + destruct (buildStep (SLeaf l) registry) as [built|m] eqn:Eb.
      * exists (Ok (OpThen built)). intros w' current _ _.
        cbn [applyStep]. now rewrite Ea, Eb.
      * exists (Err m). intros w' current _ _. cbn [applyStep].
        now rewrite Ea, Eb.
    + exists (Err ("Unsupported step type: " +:+ stepType (SLeaf l))).
      intros w' current _ _. cbn [applyStep]. now rewrite Ea.
  - eexists (Ok _). intros; reflexivity.
  - eexists (Ok _). intros; reflexivity.
  - eexists (Ok _). intros; reflexivity.
  - eexists (Ok _). intros; reflexivity.
  - destruct (buildMapping m) as [config|e] eqn:Em.
    + exists (Ok (OpMap config (Some id))). intros w' current _ _.
      cbn [applyStep]. now rewrite Em.
    + exists (Err e). intros w' current _ _. cbn [applyStep]. now rewrite Em.
  - destruct (buildStep body registry) as [built|m] eqn:Eb.
    + eexists (Ok _). intros w' current _ _. cbn [applyStep]. rewrite Eb.
      reflexivity.
    + exists (Err m). intros w' current _ _. cbn [applyStep]. now rewrite Eb.
  - destruct (buildBranches w registry O branches) as [entries|m] eqn:Eb.
    + exists (Ok (OpBranch entries)). intros w' current Hid _.
      now rewrite applyStep_branch, (buildBranches_parent w' w _ _ _ Hid), Eb.
    + exists (Err m). intros w' current Hid _.
      now rewrite applyStep_branch, (buildBranches_parent w' w _ _ _ Hid), Eb.
  - destruct (mapR (fun s => buildStep s registry) members) as [built|m] eqn:Eb.
    + exists (Ok (OpParallel built)). intros w' current _ _.
      cbn [applyStep]. now rewrite Eb.
    + exists (Err m). intros w' current _ _. cbn [applyStep]. now rewrite Eb.
  - destruct (buildStep body registry) as [built|m] eqn:Eb;
      [destruct (buildCondFn registry c) as [condFn|m] eqn:Ec|].
    + exists (Ok (OpDoWhile built condFn)). intros w' current _ _.
      cbn [applyStep]. now rewrite Eb, Ec.
    + exists (Err m). intros w' current _ _. cbn [applyStep]. now rewrite Eb, Ec.
    + exists (Err m). intros w' current _ _. cbn [applyStep]. now rewrite Eb.
  - destruct (buildStep body registry) as [built|m] eqn:Eb;
      [destruct (buildCondFn registry c) as [condFn|m] eqn:Ec|].
    + exists (Ok (OpDoUntil built condFn)). intros w' current _ _.
      cbn [applyStep]. now rewrite Eb, Ec.
    + exists (Err m). intros w' current _ _. cbn [applyStep]. now rewrite Eb, Ec.
    + exists (Err m). intros w' current _ _. cbn [applyStep]. now rewrite Eb.
  - destruct (match workflows registry with
              | Some ws => ws !! wid
              | None => None
              end) as [nested|] eqn:En.
    + destruct im as [m|].
      * destruct (buildMapping m) as [config|e] eqn:Em.
        -- eexists (Ok _). intros w' current Hid Hin. cbn [applyStep].
           rewrite En, Em, Hid, Hin. reflexivity.
        -- exists (Err e). intros w' current _ _. cbn [applyStep].
           now rewrite En, Em.
      * eexists (Ok _). intros w' current Hid _. cbn [applyStep].
        rewrite En, Hid. reflexivity.
    + exists (Err ("Missing nested workflow: " +:+ wid)).
      intros w' current _ _. cbn [applyStep]. now rewrite En.
  - eexists (Ok _). intros; reflexivity.
  - eexists (Ok _). intros; reflexivity.
Qed.

(** The operations a sequence of steps appends, or the first failure. *)
Lemma applyLoop_ops (steps : list StepSpec) (w : Workflow)
  (registry : HandlerRegistry) :
  exists r : Result (list Op),
    (forall ops, r = Ok ops -> length ops = length steps)
    /\ forall w' current,
         wf_id w' = wf_id w -> wf_inputSchema w' = wf_inputSchema w ->
         applyLoop w' registry steps current
         = match r with
           | Ok ops => Ok (fold_left addOp ops current)
           | Err m => Err m
           end.
Proof.
  induction steps as [|s steps IH].
  - exists (Ok []). split; [intros ops H; now injection H as <-|].
    intros; reflexivity.
  - destruct (applyStep_op s w registry) as [[op|m] Hs].
    + destruct IH as [[ops|m] [Hl IH]].
      * exists (Ok (op :: ops)). split.
        -- intros ops' H. injection H as <-. simpl. now rewrite (Hl ops).
        -- intros w' current Hid Hin. cbn [applyLoop].
           rewrite (Hs w' current Hid Hin). cbn [appendTo].
           now rewrite (IH w' _ Hid Hin).
      * exists (Err m). split; [discriminate|].
        intros w' current Hid Hin. cbn [applyLoop].
        rewrite (Hs w' current Hid Hin). cbn [appendTo].
        now rewrite (IH w' _ Hid Hin).
    + exists (Err m). split; [discriminate|].
      intros w' current Hid Hin. cbn [applyLoop].
      now rewrite (Hs w' current Hid Hin).
Qed.

Lemma fold_addOp_graph (ops : list Op) (current : Workflow) :
  wf_graph (fold_left addOp ops current) = wf_graph current ++ ops
  /\ wf_id (fold_left addOp ops current) = wf_id current
  /\ wf_inputSchema (fold_left addOp ops current) = wf_inputSchema current
  /\ wf_outputSchema (fold_left addOp ops current) = wf_outputSchema current
  /\ wf_stateSchema (fold_left addOp ops current) = wf_stateSchema current
  /\ wf_requestContextSchema (fold_left addOp ops current)
     = wf_requestContextSchema current
  /\ wf_options (fold_left addOp ops current) = wf_options current
  /\ wf_committed (fold_left addOp ops current) = wf_committed current.
Proof.
  revert current. induction ops as [|op ops IH]; intros current.
  - simpl. rewrite app_nil_r. repeat split.
  - cbn [fold_left]. destruct (IH (addOp current op))
      as (Hg & Hi & Hin & Hout & Hst & Hrc & Hop & Hc).
    rewrite Hg, Hi, Hin, Hout, Hst, Hrc, Hop, Hc. cbn [addOp wf_graph].
    rewrite <- app_assoc. repeat split.
Qed.

Lemma applySteps_ops (steps : list StepSpec) (w : Workflow)
  (registry : HandlerRegistry) (built : Workflow) :
  applySteps w steps registry = Ok built ->
  exists ops,
    length ops = length steps
    /\ built = fold_left addOp ops w
    /\ forall w', wf_id w' = wf_id w -> wf_inputSchema w' = wf_inputSchema w ->
                  applySteps w' steps registry = Ok (fold_left addOp ops w').
Proof.
  unfold applySteps. destruct (applyLoop_ops steps w registry) as [[ops|m] [Hl H]].
  - rewrite (H w w eq_refl eq_refl). intros E. injection E as <-.
    exists ops. split; [now apply Hl|]. split; [reflexivity|].
    intros w' Hid Hin. apply (H w' w' Hid Hin).
  - rewrite (H w w eq_refl eq_refl). discriminate.
Qed.

(** X15.  The workflow of a successful compilation is committed, carries
    the id, the schemas and the options of the specification, and holds
    exactly one operation for each top-level step of the specification;
    the issues returned with it are all warnings. *)
Theorem compiled_workflow_shape (spec : WorkflowSpec)
  (registry : HandlerRegistry) (result : CompileResult) :
  compileWorkflow spec registry = Ok result ->
  wf_committed (workflow result) = true
  /\ wf_id (workflow result) = spec_id spec
  /\ wf_inputSchema (workflow result) = toZod (spec_inputSchema spec)
  /\ wf_outputSchema (workflow result) = toZod (spec_outputSchema spec)
  /\ wf_options (workflow result) = spec_options spec
  /\ length (wf_graph (workflow result)) = length (spec_steps spec)
  /\ Forall (fun issue => severity issue = Warning) (warnings result).
Proof.
  rewrite compileWorkflow_cases.
  destruct (validationErrors spec registry); [|discriminate].
  destruct (applySteps (initialWorkflow spec) (spec_steps spec) registry)
    as [built|] eqn:E; [|discriminate].
  intros H. injection H as <-. cbn [workflow warnings].
  apply applySteps_ops in E as (ops & Hl & -> & _).
  destruct (fold_addOp_graph ops (initialWorkflow spec))
    as (Hg & Hi & Hin & Hout & _ & _ & Hop & _).
  cbn [commit wf_committed wf_id wf_inputSchema wf_outputSchema wf_options
       wf_graph].
  rewrite Hg, Hi, Hin, Hout, Hop. cbn. rewrite Hl.
  repeat split. apply List.Forall_forall. intros issue Hf.
  apply filter_In in Hf as [_ Hf]. unfold isWarning in Hf.
  now destruct (severity issue).
Qed.

Lemma compiled_workflow_shape_witness :
  exists result,
    compileWorkflow (specOf [SForeach (Some 2%Z) itemStep] None) itemRegistry
    = Ok result
    /\ length (wf_graph (workflow result)) = 1%nat.
Proof.
  eexists. split; [reflexivity|].
  apply (compiled_workflow_shape (specOf [SForeach (Some 2%Z) itemStep] None)
           itemRegistry).
  reflexivity.
Defined.

Lemma issues_without_errors (strict warn : list SchemaIssue) :
  Forall2 sameButSeverity strict warn ->
  List.filter isError strict = [] ->
  List.filter isError warn = []
  /\ List.filter isWarning warn = List.filter isWarning strict.
Proof.
  induction 1 as [|a b strict warn (Hm & Hp & Hs) _ IH]; [now split|].
  destruct a as [ma pa sa], b as [mb pb sb].
  cbn [message path severity] in Hm, Hp, Hs. subst mb pb.
  destruct sa; [|discriminate]. destruct sb; [|now discriminate Hs].
  simpl. intros Hf. destruct (IH Hf) as [He Hw]. now rewrite He, Hw.
Qed.

(** X16.  Whatever compiles in strict mode compiles in warn mode, to the
    same graph and with the same warnings: relaxing the mode of a
    specification that compiles changes nothing but the options the
    workflow records. *)
Theorem strict_compile_implies_warn_compile (spec : WorkflowSpec)
  (registry : HandlerRegistry) (result : CompileResult) :
  compileWorkflow (withMode spec Strict) registry = Ok result ->
  exists relaxed,
    compileWorkflow (withMode spec Warn) registry = Ok relaxed
    /\ wf_graph (workflow relaxed) = wf_graph (workflow result)
    /\ warnings relaxed = warnings result.
Proof.
  rewrite !compileWorkflow_cases.
  destruct (validationErrors (withMode spec Strict) registry) eqn:Ev;
    [|discriminate].
  destruct (applySteps (initialWorkflow (withMode spec Strict))
              (spec_steps (withMode spec Strict)) registry)
    as [built|] eqn:E; [|discriminate].
  intros H. injection H as <-.
  destruct (issues_without_errors _ _
              (validateWorkflowSchemas_modes spec (Some registry)) Ev)
    as [He Hw].
  unfold validationErrors. rewrite He.
  apply applySteps_ops in E as (ops & _ & -> & Hany).
  change (spec_steps (withMode spec Warn)) with (spec_steps (withMode spec Strict)).
  rewrite (Hany (initialWorkflow (withMode spec Warn)) eq_refl eq_refl).
  eexists. split; [reflexivity|]. cbn [workflow warnings commit wf_graph].
  split; [|exact Hw].
  destruct (fold_addOp_graph ops (initialWorkflow (withMode spec Warn)))
    as [-> _].
  destruct (fold_addOp_graph ops (initialWorkflow (withMode spec Strict)))
    as [-> _].
  reflexivity.
Qed.

Lemma strict_compile_implies_warn_compile_witness :
  isOk (compileWorkflow (withMode (specOf [itemStep] None) Warn) itemRegistry)
  = true.
Proof.
  destruct (strict_compile_implies_warn_compile (specOf [itemStep] None)
              itemRegistry _ eq_refl) as (relaxed & H & _).
  now rewrite H.
Defined.

Lemma buildStep_member (step : StepSpec) (registry : HandlerRegistry) :
  isOk (buildStep step registry) = true -> isMemberStep step = true.
Proof. destruct step; try reflexivity; discriminate. Qed.

Lemma mapR_all_Ok {A B} (f : A -> Result B) (l : list A) (rs : list B) :
  mapR f l = Ok rs -> Forall (fun x => isOk (f x) = true) l.
Proof.
  intros H. apply mapR_Ok in H.
  induction H as [|x y l rs Hxy _ IH]; constructor; [|exact IH].
  now rewrite Hxy.
Qed.

Lemma applyStep_members (step : StepSpec) (w current next : Workflow)
  (registry : HandlerRegistry) :
  applyStep step w registry current = Ok next ->
  isMcpStep step = false
  /\ Forall (fun member => isMemberStep member = true) (membersOf step).
Proof.
  destruct step as [l|ms id|date id|pr it op ti id|wh pl id|m id|conc body
                   |branches|members|body c|body c|wid im
                   |id pr wa ti rs|id d];
    cbn [isMcpStep membersOf]; intros H;
    try (split; [reflexivity | apply List.Forall_nil]).
  - cbn [applyStep] in H. destruct (appliedAsLeaf (leaf_kind l));
      [split; [reflexivity | apply List.Forall_nil] | discriminate].
  - cbn [applyStep] in H.
    destruct (buildStep body registry) eqn:E; [|discriminate].
    split; [reflexivity|]. constructor; [|constructor].
    apply (buildStep_member body registry). now rewrite E.
  - cbn [applyStep] in H.
    destruct (mapR (fun s => buildStep s registry) members) as [built|] eqn:E;
      [|discriminate].
    split; [reflexivity|]. apply mapR_all_Ok in E.
    eapply List.Forall_impl; [|exact E]. intros s. apply buildStep_member.
  - cbn [applyStep] in H.
    destruct (buildStep body registry) eqn:E; [|discriminate].
    split; [reflexivity|]. constructor; [|constructor].
    apply (buildStep_member body registry). now rewrite E.
  - cbn [applyStep] in H.
    destruct (buildStep body registry) eqn:E; [|discriminate].
    split; [reflexivity|]. constructor; [|constructor].
    apply (buildStep_member body registry). now rewrite E.
Qed.

Lemma buildBranches_arm (w : Workflow) (registry : HandlerRegistry)
  (index : nat) (branches : list (Condition * list StepSpec))
  (entries : list (CondFn * Step)) (condition : Condition)
  (arm : list StepSpec) :
  buildBranches w registry index branches = Ok entries ->
  In (condition, arm) branches ->
  exists fresh built, applySteps fresh arm registry = Ok built.
Proof.
  revert index entries.
  induction branches as [|b rest IH]; intros index entries H Hin;
    [contradiction|].
  cbn [buildBranches] in H.
  destruct (buildCondFn registry (fst b)); [|discriminate].
  destruct (buildBranchWorkflow (wf_id w) index (snd b) registry) eqn:Eb;
    [|discriminate].
  destruct (buildBranches w registry (S index) rest) as [more|] eqn:Er;
    [|discriminate].
  destruct Hin as [->|Hin].
  - unfold buildBranchWorkflow in Eb. cbn [snd] in Eb. cbv zeta in Eb.
    destruct (applySteps _ arm registry) as [built|] eqn:Ea; [|discriminate].
    eauto.
  - now apply (IH (S index) more).
Qed.

Lemma sequenced_applied (steps : list StepSpec) (w current final : Workflow)
  (registry : HandlerRegistry) (step : StepSpec) :
  applyLoop w registry steps current = Ok final ->
  Sequenced steps step ->
  exists w' current' next, applyStep step w' registry current' = Ok next.
Proof.
  intros Hloop Hs.
  induction Hs as [step Hin|step branches c arm _ IH Hc Hin].
  - apply in_split in Hin as (pre & post & ->).
    apply applyLoop_split in Hloop as (before & after & _ & H & _). eauto.
  - destruct IH as (w' & current' & next & H).
    rewrite applyStep_branch in H.
    destruct (buildBranches w' registry O branches) as [entries|] eqn:Eb;
      [|discriminate].
    destruct (buildBranches_arm _ _ _ _ _ c arm Eb Hc) as (fresh & built & Ha).
    unfold applySteps in Ha. apply in_split in Hin as (pre & post & ->).
    apply applyLoop_split in Ha as (before & after & _ & Hstep & _). eauto.
Qed.

(** X17.  What a compiled specification never holds.  In every sequence
    the compiler applies (the top-level one and, at any depth, the arms
    of its branches) no step is an [mcp] step; and every member of a
    parallel group and every body of a foreach or of a loop is a leaf
    step or a reference to a workflow, never a control step, a branch or
    another group. *)
Theorem nesting_restrictions (spec : WorkflowSpec) (registry : HandlerRegistry)
  (result : CompileResult) (step : StepSpec) :
  compileWorkflow spec registry = Ok result ->
  Sequenced (spec_steps spec) step ->
  isMcpStep step = false
  /\ Forall (fun member => isMemberStep member = true) (membersOf step).
Proof.
  rewrite compileWorkflow_cases.
  destruct (validationErrors spec registry); [|discriminate].
  destruct (applySteps (initialWorkflow spec) (spec_steps spec) registry)
    as [built|] eqn:E; [|discriminate].
  intros _ Hs. unfold applySteps in E.
  destruct (sequenced_applied _ _ _ _ _ step E Hs) as (w & current & next & H).
  now apply applyStep_members in H.
Qed.

Lemma nesting_restrictions_witness :
  isMcpStep (SForeach (Some 2%Z) itemStep) = false
  /\ Forall (fun member => isMemberStep member = true)
       (membersOf (SForeach (Some 2%Z) itemStep)).
Proof.
  apply (nesting_restrictions (specOf [SForeach (Some 2%Z) itemStep] None)
           itemRegistry _ _ eq_refl).
  apply sequenced_top. now left.
Defined.

Lemma NoDup_snoc {A} (l : list A) (x : A) :
  List.NoDup l -> ~ In x l -> List.NoDup (l ++ [x]).
Proof.
  induction 1 as [|y l Hy Hnd IH]; intros Hx; simpl.
  - constructor; [intros [] | constructor].
  - constructor.
    + rewrite in_app_iff. intros [H|[H|[]]]; [now apply Hy|].
      apply Hx. now left.
    + apply IH. intros H. apply Hx. now right.
Qed.

Lemma duplicateErrors_none (earlier occurrences : list (string * string)) :
  duplicateErrors earlier occurrences = [] ->
  List.NoDup (map fst earlier) ->
  List.NoDup (map fst (earlier ++ occurrences)).
Proof.
  revert earlier.
  induction occurrences as [|[id p] rest IH]; intros earlier H Hnd.
  - now rewrite app_nil_r.
  - cbn [duplicateErrors] in H.
    destruct (firstOccurrence id earlier) eqn:Hf; [discriminate|].
    apply firstOccurrence_ids in Hf. rewrite elem_of_list_to_set in Hf.
    replace (earlier ++ (id, p) :: rest) with ((earlier ++ [(id, p)]) ++ rest)
      by now rewrite <- app_assoc.
    apply IH; [assumption|].
    rewrite map_app. cbn [map fst].
    apply NoDup_snoc; [assumption|].
    intros Hin. apply Hf. now apply list_elem_of_In.
Qed.

(** X18.  In a specification that compiles no two steps share an id: the
    string ids met by the walk of the whole tree (branch arms, parallel
    members, bodies of foreach and of loops included) are pairwise
    distinct. *)
Theorem compiled_ids_distinct (spec : WorkflowSpec)
  (registry : HandlerRegistry) (result : CompileResult) :
  compileWorkflow spec registry = Ok result ->
  List.NoDup
    (map fst (idOccurrences
                (visitSteps (spec_steps spec) (spec_id spec +:+ ".steps")))).
Proof.
  rewrite compileWorkflow_cases.
  destruct (validationErrors spec registry) eqn:Ev; [|discriminate].
  intros _. apply (duplicateErrors_none []); [|constructor].
  rewrite <- validateUniqueStepIds_spec.
  destruct (validateUniqueStepIds (spec_steps spec) (spec_id spec +:+ ".steps"))
    as [|issue issues] eqn:Eu; [reflexivity|].
  exfalso.
  assert (Hin : In issue (validationErrors spec registry)).
  { unfold validationErrors. apply filter_In. split.
    - unfold validateWorkflowSchemas. apply in_or_app. right.
      apply in_or_app. left. rewrite Eu. now left.
    - assert (Hi : In issue (validateUniqueStepIds (spec_steps spec)
                               (spec_id spec +:+ ".steps")))
        by (rewrite Eu; now left).
      rewrite validateUniqueStepIds_spec in Hi.
      apply duplicateErrors_kind in Hi as [Hs _]. unfold isError.
      now rewrite Hs. }
  rewrite Ev in Hin. contradiction.
Qed.

Lemma compiled_ids_distinct_witness :
  List.NoDup
    (map fst (idOccurrences
                (visitSteps (spec_steps (specOf [SForeach (Some 2%Z) itemStep] None))
                   (spec_id (specOf [SForeach (Some 2%Z) itemStep] None)
                    +:+ ".steps")))).
Proof.
  apply (compiled_ids_distinct (specOf [SForeach (Some 2%Z) itemStep] None)
           itemRegistry _ eq_refl).
Defined.

Lemma compatibility_arrayOf (x y : JValue) (p : string)
  (mode : SchemaCompatibility) :
  isContainer x = true -> isContainer y = true ->
  validateSchemaCompatibility (Some (arrayOf x)) (Some (arrayOf y)) p mode
  = validateSchemaCompatibility (Some x) (Some y) (p +:+ ".items") mode.
Proof.
  intros Hx Hy. rewrite validateSchemaCompatibility_unfold at 1.
  unfold compatibilityBody. rewrite !normalizeSchema_id.
  assert (Hgx : getArrayItems (arrayOf x) = Some x).
  { unfold getArrayItems, arrayOf. cbn. rewrite container_guard, Hx.
    reflexivity. }
  assert (Hgy : getArrayItems (arrayOf y) = Some y).
  { unfold getArrayItems, arrayOf. cbn. rewrite container_guard, Hy.
    reflexivity. }
  rewrite Hgx, Hgy. reflexivity.
Qed.

(** X19.  The output of a [foreach] over a leaf whose output schema is an
    object or an array is the schema of the arrays of that output: a
    foreach that follows it is never reported, and a step that follows it
    and takes arrays of some item schema is checked item against item,
    its issues being those of the two item schemas at [.items] below the
    step. *)
Theorem foreach_output_feeds_items (body next : LeafStep)
  (concurrency : option Z) (itemInput : JValue) (avail : gset string)
  (p : string) (mode : SchemaCompatibility) (index : nat) :
  isContainer (leaf_outputSchema body) = true ->
  isContainer itemInput = true ->
  leaf_inputSchema next = arrayOf itemInput ->
  let produced := computeForeachOutput (SForeach concurrency (SLeaf body)) in
  produced = Some (arrayOf (leaf_outputSchema body))
  /\ isArraySchema produced = true
  /\ fst (validateStep (SLeaf next) avail p mode index produced)
     = validateSchemaCompatibility (Some (leaf_outputSchema body))
         (Some itemInput) (p +:+ ".steps." +:+ pretty index +:+ ".items") mode.
Proof.
  intros Hb Hi Hn produced.
  assert (Hp : produced = Some (arrayOf (leaf_outputSchema body))).
  { unfold produced. cbn [computeForeachOutput schemaFromStep].
    destruct (leaf_outputSchema body); try discriminate; reflexivity. }
  split; [exact Hp|]. rewrite Hp. split; [reflexivity|].
  cbn [validateStep fst inputSchemaFromStep]. rewrite Hn.
  rewrite (compatibility_arrayOf _ _ _ mode Hb Hi).
  now rewrite !string_app_assoc.
Qed.

Lemma foreach_output_feeds_items_witness :
  fst (validateStep
         (schemaLeaf (KStep "collect") "collect" (arrayOf stringSchema)
            objectSchema)
         ∅ "wf" Warn 1 (computeForeachOutput (SForeach None itemStep)))
  = validateSchemaCompatibility (Some objectSchema) (Some stringSchema)
      ("wf" +:+ ".steps." +:+ pretty 1%nat +:+ ".items") Warn.
Proof.
  apply (foreach_output_feeds_items
           {| leaf_kind := KStep "processItem"; leaf_id := "item";
              leaf_inputSchema := objectSchema;
              leaf_outputSchema := objectSchema; leaf_description := None;
              leaf_params := None; leaf_retries := None |}
           {| leaf_kind := KStep "collect"; leaf_id := "collect";
              leaf_inputSchema := arrayOf stringSchema;
              leaf_outputSchema := objectSchema; leaf_description := None;
              leaf_params := None; leaf_retries := None |}
           None stringSchema ∅ "wf" Warn 1 eq_refl eq_refl eq_refl).
Defined.

Lemma branchIssues_arm (prev : option JValue) (p : string) (index : nat)
  (mode : SchemaCompatibility) (branches : list (Condition * list StepSpec))
  (start offset : nat) (c : Condition) (arm : list StepSpec)
  (issue : SchemaIssue) :
  nth_error branches offset = Some (c, arm) ->
  In issue (validateSequence arm
              (armPath p index (start + offset) +:+ ".steps") mode prev) ->
  In issue (branchIssues prev p index mode start branches).
Proof.
  revert start offset.
  induction branches as [|b rest IH]; intros start offset Hnth Hin.
  - destruct offset; discriminate.
  - cbn [branchIssues]. destruct offset as [|offset].
    + injection Hnth as ->. rewrite Nat.add_0_r in Hin. cbn [snd].
      apply in_or_app. right. apply in_or_app. left. exact Hin.
    + apply in_or_app. right. apply in_or_app. right.
      apply (IH (S start) offset); [assumption|].
      now rewrite Nat.add_succ_r in Hin.
Qed.

(** X20.  A mapping in an arm of a branch sees the steps of its own arm
    only.  When an entry of a [map] step of an arm refers, with
    [fromStep], to an id that no step of that arm carries, the branch
    reports the unknown-step error for it, at the entry's path below the
    arm, whatever ids the enclosing sequence makes available. *)
Theorem arm_mapping_scope (branches : list (Condition * list StepSpec))
  (branchIndex : nat) (condition : Condition) (pre post : list StepSpec)
  (mappings : list (string * JValue)) (id : option string)
  (key stepId path p : string) (avail : gset string)
  (mode : SchemaCompatibility) (index : nat) (prev : option JValue) :
  nth_error branches branchIndex
  = Some (condition, pre ++ SMap mappings id :: post) ->
  In (key, Mappings.fromStep stepId path) mappings ->
  (forall step, In step (pre ++ SMap mappings id :: post) ->
                Spec.stepId step <> Some stepId) ->
  In (unknownStepIssue
        (armPath p index branchIndex +:+ ".steps" +:+ ".map."
         +:+ pretty (length pre))
        key (Some (JStr stepId)))
     (fst (validateStep (SBranch branches) avail p mode index prev)).
Proof.
  intros Hnth Hentry Hfresh. rewrite validateStep_branch. cbn [fst].
  apply (branchIssues_arm prev p index mode branches O branchIndex condition
           _ _ Hnth).
  cbn [Nat.add]. rewrite validateSequence_at. cbv zeta.
  apply in_or_app. right. apply in_or_app. left.
  cbn [validateStep fst]. unfold validateMappings. apply in_flat_map.
  exists (key, Mappings.fromStep stepId path). split; [assumption|].
  unfold mappingIssues, Mappings.fromStep. cbn.
  assert (Hout : bool_decide
                   (stepId ∈ collectIds (pre ++ SMap mappings id :: post))
                 = false).
  { apply bool_decide_eq_false. rewrite collectIds_spec.
    intros (step & Hin & Hid). now apply (Hfresh step Hin). }
  rewrite Hout. cbn. left. unfold unknownStepIssue.
  now rewrite !string_app_assoc.
Qed.

Lemma arm_mapping_scope_witness :
  In (unknownStepIssue
        (armPath "wf" 1 0 +:+ ".steps" +:+ ".map." +:+ pretty (length (@nil StepSpec)))
        "v" (Some (JStr "first")))
     (fst (validateStep
             (SBranch [(conditionOn "check",
                        [] ++ SMap [("v", Mappings.fromStep "first" "value")]
                                (Some "reshape") :: [])])
             {["first"]} "wf" Warn 1 None)).
Proof.
  apply (arm_mapping_scope _ 0 (conditionOn "check") [] []
           [("v", Mappings.fromStep "first" "value")] (Some "reshape")
           "v" "first" "value").
  - reflexivity.
  - now left.
  - intros step [<-|[]]. discriminate.
Defined.

Lemma find_skip {A} (f : A -> bool) (pre rest : list A) (x : A) :
  Forall (fun y => f y = false) pre -> f x = true ->
  List.find f (pre ++ x :: rest) = Some x.
Proof.
  intros Hpre Hx. induction Hpre as [|y pre Hy _ IH]; simpl.
  - now rewrite Hx.
  - now rewrite Hy.
Qed.

Lemma find_none {A} (f : A -> bool) (l : list A) :
  Forall (fun y => f y = false) l -> List.find f l = None.
Proof.
  induction 1 as [|y l Hy _ IH]; simpl; [reflexivity|]. now rewrite Hy.
Qed.

Lemma Forall_rev_list {A} (P : A -> Prop) (l : list A) :
  Forall P l -> Forall P (rev l).
Proof.
  intros H. apply List.Forall_forall. intros x Hx. apply in_rev in Hx.
  rewrite List.Forall_forall in H. now apply H.
Qed.

(** X21.  The schemas of the workflow an arm is compiled to come from the
    arm's leaf steps: the input schema of the first leaf and the output
    schema of the last, the control steps before, between and after them
    being passed over ([null] counting as no schema); an arm without a
    leaf step gets the empty schema on both sides. *)
Theorem arm_schemas (steps : list StepSpec) :
  (noSchemaStep steps -> deriveWorkflowSchemas steps = (JObj [], JObj []))
  /\ (forall pre mid mid' post first last,
        steps = pre ++ SLeaf first :: mid ->
        steps = mid' ++ SLeaf last :: post ->
        noSchemaStep pre -> noSchemaStep post ->
        deriveWorkflowSchemas steps
        = (orEmpty (Some (leaf_inputSchema first)),
           orEmpty (Some (leaf_outputSchema last)))).
Proof.
  unfold deriveWorkflowSchemas, noSchemaStep. split.
  - intros H. rewrite (find_none _ _ H), (find_none _ _ (Forall_rev_list _ _ H)).
    reflexivity.
  - intros pre mid mid' post first last Hfirst Hlast Hpre Hpost.
    rewrite Hfirst at 1. rewrite (find_skip _ pre mid (SLeaf first) Hpre eq_refl).
    rewrite Hlast, List.rev_app_distr. cbn [rev]. rewrite <- app_assoc. cbn [app].
    rewrite (find_skip _ (rev post) (rev mid') (SLeaf last)
               (Forall_rev_list _ _ Hpost) eq_refl).
    reflexivity.
Qed.

Lemma arm_schemas_witness :
  deriveWorkflowSchemas
    [SSleep 5 None; schemaLeaf (KStep "a") "a" stringSchema objectSchema;
     schemaLeaf (KStep "b") "b" objectSchema JNull; SSleep 5 None]
  = (stringSchema, JObj []).
Proof.
  apply (proj2 (arm_schemas _) [SSleep 5 None]
           [schemaLeaf (KStep "b") "b" objectSchema JNull; SSleep 5 None]
           [SSleep 5 None; schemaLeaf (KStep "a") "a" stringSchema objectSchema]
           [SSleep 5 None]
           {| leaf_kind := KStep "a"; leaf_id := "a";
              leaf_inputSchema := stringSchema;
              leaf_outputSchema := objectSchema; leaf_description := None;
              leaf_params := None; leaf_retries := None |}
           {| leaf_kind := KStep "b"; leaf_id := "b";
              leaf_inputSchema := objectSchema;
              leaf_outputSchema := JNull; leaf_description := None;
              leaf_params := None; leaf_retries := None |});
    try reflexivity; repeat constructor.
Defined.

Lemma buildBranchWorkflow_shape (parentId : string) (index : nat)
  (arm : list StepSpec) (registry : HandlerRegistry) (built : Workflow) :
  buildBranchWorkflow parentId index arm registry = Ok built ->
  isArmWorkflow parentId index arm (asStep built).
Proof.
  unfold buildBranchWorkflow. cbv zeta.
  destruct (applySteps _ arm registry) as [w|] eqn:E; [|discriminate].
  intros H. injection H as <-.
  apply applySteps_ops in E as (ops & Hl & -> & _).
  match goal with
  | |- context [fold_left addOp ops ?w0] =>
      destruct (fold_addOp_graph ops w0)
        as (Hg & Hi & Hin & Hout & Hst & Hrc & Hop & _)
  end.
  exists ops. unfold asStep. cbn [commit wf_id wf_inputSchema wf_outputSchema
    wf_stateSchema wf_requestContextSchema wf_options wf_graph wf_committed].
  rewrite Hg, Hi, Hin, Hout, Hst, Hrc, Hop. split; [reflexivity | exact Hl].
Qed.

Lemma buildBranches_entries (w : Workflow) (registry : HandlerRegistry)
  (start : nat) (branches : list (Condition * list StepSpec))
  (entries : list (CondFn * Step)) :
  buildBranches w registry start branches = Ok entries ->
  length entries = length branches
  /\ forall offset condition arm,
       nth_error branches offset = Some (condition, arm) ->
       exists h step,
         nth_error entries offset
         = Some ({| cond_handler := h; cond_fn_params := cond_params condition |},
                 step)
         /\ resolveHandler registry (handler condition) = Ok h
         /\ isArmWorkflow (wf_id w) (start + offset) arm step.
Proof.
  revert start entries.
  induction branches as [|b rest IH]; intros start entries H.
  - injection H as <-. split; [reflexivity|]. intros [|offset]; discriminate.
  - cbn [buildBranches] in H. unfold buildCondFn in H.
    destruct (resolveHandler registry (handler (fst b))) as [h|] eqn:Eh;
      [|discriminate].
    destruct (buildBranchWorkflow (wf_id w) start (snd b) registry)
      as [built|] eqn:Eb; [|discriminate].
    destruct (buildBranches w registry (S start) rest) as [more|] eqn:Em;
      [|discriminate].
    injection H as <-. destruct (IH _ _ Em) as [Hl Hn]. split.
    + simpl. now rewrite Hl.
    + intros [|offset] condition arm Hnth.
      * injection Hnth as ->. cbn [fst snd] in *. exists h, (asStep built).
        split; [reflexivity|]. split; [exact Eh|]. rewrite Nat.add_0_r.
        now apply buildBranchWorkflow_shape with (registry := registry).
      * cbn [nth_error] in Hnth |- *. rewrite Nat.add_succ_r.
        apply (Hn offset condition arm Hnth).
Qed.

(** X22.  A branch that is applied becomes one operation holding one
    entry for each arm, in order: the condition runs the handler the
    arm's [when] resolves to, with the parameters declared there, and
    the arm itself is a committed workflow named
    [<parent>.branch.<position>], with the schemas derived from the arm
    and one operation for each step of the arm. *)
Theorem branch_entries (branches : list (Condition * list StepSpec))
  (w current next : Workflow) (registry : HandlerRegistry) :
  applyStep (SBranch branches) w registry current = Ok next ->
  exists entries,
    next = addOp current (OpBranch entries)
    /\ length entries = length branches
    /\ forall position condition arm,
         nth_error branches position = Some (condition, arm) ->
         exists h step,
           nth_error entries position
           = Some ({| cond_handler := h;
                      cond_fn_params := cond_params condition |}, step)
           /\ resolveHandler registry (handler condition) = Ok h
           /\ isArmWorkflow (wf_id w) position arm step.
Proof.
  rewrite applyStep_branch.
  destruct (buildBranches w registry O branches) as [entries|] eqn:E;
    [|discriminate].
  intros H. injection H as <-. exists entries. split; [reflexivity|].
  apply (buildBranches_entries w registry O branches entries E).
Qed.

Lemma branch_entries_witness :
  exists entries : list (CondFn * Step),
    applyStep (SBranch [(conditionOn "processItem", [itemStep])])
      emptyWorkflow itemRegistry emptyWorkflow
    = Ok (addOp emptyWorkflow (OpBranch entries))
    /\ length entries = 1%nat.
Proof.
  destruct (branch_entries [(conditionOn "processItem", [itemStep])]
              emptyWorkflow emptyWorkflow _ itemRegistry eq_refl)
    as (entries & Hn & Hl & _).
  exists entries. split; [now rewrite <- Hn | exact Hl].
Defined.

(* ===================================================================== *)
(** * The steps that pause                                                *)
(* ===================================================================== *)

(** X23.  A [humanInput] or [suspend] step returns without suspending
    exactly when it is run with resume data that is truthy.  It then hands
    that data on: as the answer, with the [requestId] of the data when
    that is truthy and a fresh identifier otherwise, or as the data of a
    result marked resumed.  With resume data that is absent or falsy
    ([false], [0], the empty string, [null]) the step suspends, so no
    falsy answer is ever delivered: the request announces the step's own
    prompt, type, options, time limit and a status, with the identifier
    that the result returned afterwards carries, and that result holds no
    answer.  A [resume] step always reports itself resumed, with the
    [data] of its input when that is truthy and the declared data when it
    is absent or falsy. *)
Theorem pause_steps (prompt inputType waitFor uuid timestamp : string)
  (options : option (list string)) (timeout : option Z)
  (resumeSchema : option JValue) (declared : JValue)
  (inputData resumeData : option JValue) :
  let human := Pause.executeHumanInput prompt inputType options timeout uuid
                 resumeData in
  let pause := Pause.executeSuspend prompt waitFor timeout resumeSchema uuid
                 timestamp resumeData in
  let resume := Pause.executeResume declared inputData in
  (is_Some (returned human) <-> Js.truthyOpt resumeData = true)
  /\ (is_Some (returned pause) <-> Js.truthyOpt resumeData = true)
  /\ (Js.truthyOpt resumeData = true ->
      human
      = Pause.Returns
          {| Pause.answer := resumeData;
             Pause.requestId :=
               match Js.getPropOpt resumeData "requestId" with
               | Some given => if Js.truthy given then given else JStr uuid
               | None => JStr uuid
               end |}
      /\ pause
         = Pause.Returns
             {| Pause.resumed := true; Pause.data := resumeData;
                Pause.suspendId := uuid |})
  /\ (Js.truthyOpt resumeData = false ->
      human
      = Pause.Suspends
          {| Pause.request_requestId := uuid;
             Pause.request_prompt := prompt;
             Pause.request_inputType := inputType;
             Pause.request_options := options;
             Pause.request_timeout := timeout;
             Pause.request_status := "waiting_for_human_input" |}
          {| Pause.answer := None; Pause.requestId := JStr uuid |}
      /\ pause
         = Pause.Suspends
             {| Pause.suspend_suspendId := uuid;
                Pause.suspend_prompt := prompt;
                Pause.suspend_waitFor := waitFor;
                Pause.suspend_timeout := timeout;
                Pause.suspend_resumeSchema := resumeSchema;
                Pause.suspend_status := "suspended";
                Pause.suspend_timestamp := timestamp |}
             {| Pause.resumed := false; Pause.data := None;
                Pause.suspendId := uuid |})
  /\ (forall out, returned human = Some out ->
                  Pause.answer out = resumeData
                  /\ Js.truthyOpt (Pause.answer out) = true)
  /\ (forall out, returned pause = Some out ->
                  Pause.resumed out = true /\ Pause.data out = resumeData
                  /\ Js.truthyOpt (Pause.data out) = true)
  /\ Pause.resume_resumed resume = true
  /\ (forall given, Js.getPropOpt inputData "data" = Some given ->
                    Js.truthy given = true ->
                    Pause.resume_data resume = given)
  /\ (Js.truthyOpt (Js.getPropOpt inputData "data") = false ->
      Pause.resume_data resume = declared).
Proof.
  cbv zeta. unfold Pause.executeHumanInput, Pause.executeSuspend,
    Pause.executeResume, Pause.orElse.
  assert (Hresume :
    (forall given, Js.getPropOpt inputData "data" = Some given ->
                   Js.truthy given = true ->
                   match Js.getPropOpt inputData "data" with
                   | Some v => if Js.truthy v then v else declared
                   | None => declared
                   end = given)
    /\ (Js.truthyOpt (Js.getPropOpt inputData "data") = false ->
        match Js.getPropOpt inputData "data" with
        | Some v => if Js.truthy v then v else declared
        | None => declared
        end = declared)).
  { split.
    - intros given -> Hg. now rewrite Hg.
    - destruct (Js.getPropOpt inputData "data") as [v|]; [|reflexivity].
      cbn [Js.truthyOpt]. now intros ->. }
  destruct Hresume as [Hgiven Hdeclared].
  destruct (Js.truthyOpt resumeData) eqn:Et; cbn [returned suspended].
  - split; [split; [reflexivity | intros _; now eexists]|].
    split; [split; [reflexivity | intros _; now eexists]|].
    split; [intros _; now split|]. split; [discriminate|].
    split; [intros out H; injection H as <-; now split|].
    split; [intros out H; injection H as <-; now repeat split|].
    split; [reflexivity|]. split; [exact Hgiven | exact Hdeclared].
  - split; [split; [intros [x Hx]; discriminate | discriminate]|].
    split; [split; [intros [x Hx]; discriminate | discriminate]|].
    split; [discriminate|]. split; [intros _; now split|].
    split; [discriminate|]. split; [discriminate|].
    split; [reflexivity|]. split; [exact Hgiven | exact Hdeclared].
Qed.

(* ===================================================================== *)
(** * Validation and the build                                            *)
(* ===================================================================== *)

Lemma prefixed_lookup (registry : HandlerRegistry) (name : string) :
  resolveHandler registry ("handlers." +:+ name)
  = (if present (Some (handlers registry)) (firstSegment name)
     then Ok (RegistryEntry "handlers" (firstSegment name))
     else Err ("Missing handler: " +:+ "handlers." +:+ name))
  /\ resolveHandler registry ("agent." +:+ name)
     = (if present (agents registry) (firstSegment name)
        then Ok (AgentWrapper (firstSegment name) ("agent." +:+ name))
        else Err ("Missing agent: " +:+ "agent." +:+ name))
  /\ resolveHandler registry ("tool." +:+ name)
     = (if present (tools registry) (firstSegment name)
        then Ok (ToolWrapper (firstSegment name) ("tool." +:+ name))
        else Err ("Missing tool: " +:+ "tool." +:+ name))
  /\ handlerExists registry ("handlers." +:+ name)
     = present (Some (handlers registry)) (firstSegment name)
  /\ handlerExists registry ("agent." +:+ name)
     = present (agents registry) (firstSegment name)
  /\ handlerExists registry ("tool." +:+ name)
     = present (tools registry) (firstSegment name).
Proof.
  unfold resolveHandler, handlerExists.
  change ("handlers." +:+ name) with ("handlers" +:+ "." +:+ name).
  change ("agent." +:+ name) with ("agent" +:+ "." +:+ name).
  change ("tool." +:+ name) with ("tool" +:+ "." +:+ name).
  rewrite (splitHandlerId_prefixed "handlers" name eq_refl),
    (splitHandlerId_prefixed "agent" name eq_refl),
    (splitHandlerId_prefixed "tool" name eq_refl).
  repeat split.
Qed.


Lemma Within_incl (l l' : list StepSpec) (step : StepSpec) :
  incl l l' -> Within l step -> Within l' step.
Proof.
  intros Hincl. induction 1 as [step Hin|step parent _ IH Hchild].
  - apply within_top. now apply Hincl.
  - now apply (within_nested l' step parent).
Qed.

Lemma Within_arm (branches : list (Condition * list StepSpec))
  (condition : Condition) (arm : list StepSpec) (step : StepSpec) :
  In (condition, arm) branches -> Within arm step ->
  Within [SBranch branches] step.
Proof.
  intros Hb. induction 1 as [step Hin|step parent _ IH Hchild].
  - apply (within_nested _ step (SBranch branches)).
    + apply within_top. now left.
    + now apply (child_branch step branches condition arm).
  - now apply (within_nested _ step parent).
Qed.

Lemma Within_child (parent child : StepSpec) :
  Child child parent -> Within [parent] child.
Proof.
  intros H. apply (within_nested _ child parent); [|exact H].
  apply within_top. now left.
Qed.

Lemma app_nil_both {A} (l1 l2 : list A) : l1 ++ l2 = [] -> l1 = [] /\ l2 = [].
Proof. destruct l1; [now split | discriminate]. Qed.

Lemma one_if_nil {A} (c : bool) (x : A) :
  (if negb c then [x] else []) = [] -> c = true.
Proof. destruct c; [reflexivity | discriminate]. Qed.

(** What it means for the targets of a step to be found. *)
Lemma targetsFound_spec (registry : HandlerRegistry) (step : StepSpec) :
  targetsFound registry step ->
  (forall action, actionOf step = Some action ->
                  handlerExists registry ("handlers." +:+ action) = true)
  /\ (forall agent, agentOf step = Some agent ->
                    handlerExists registry ("agent." +:+ agent) = true)
  /\ (forall tool, toolOf step = Some tool ->
                   handlerExists registry ("tool." +:+ tool) = true)
  /\ (forall condition, In condition (conditionsOf step) ->
                        handlerExists registry (handler condition) = true)
  /\ (forall workflowId inputMapping,
        step = SWorkflow workflowId inputMapping ->
        present (workflows registry) workflowId = true).
Proof.
  intros [sp H]. unfold visitHandlers in H.
  apply app_nil_both in H as [Ha H]. apply app_nil_both in H as [Hg H].
  apply app_nil_both in H as [Ht H]. apply app_nil_both in H as [Hb H].
  apply app_nil_both in H as [Hl Hw].
  split; [|split; [|split; [|split]]].
  - intros action E. rewrite E in Ha. now apply one_if_nil in Ha.
  - intros agent E. rewrite E in Hg. now apply one_if_nil in Hg.
  - intros tool E. rewrite E in Ht. now apply one_if_nil in Ht.
  - intros condition Hin. destruct step; try contradiction;
      cbn [conditionsOf] in Hin.
    + clear -Hb Hin. revert Hb. generalize O as bi.
      induction branches as [|b rest IH]; intros bi Hb; [contradiction|].
      cbn [branchHandlerIssues] in Hb. apply app_nil_both in Hb as [Hh Hr].
      destruct Hin as [<-|Hin]; [now apply one_if_nil in Hh|].
      now apply (IH Hin (S bi)).
    + destruct Hin as [<-|[]]. now apply one_if_nil in Hl.
    + destruct Hin as [<-|[]]. now apply one_if_nil in Hl.
  - intros workflowId inputMapping ->. now apply one_if_nil in Hw.
Qed.

Lemma checked_leaf_builds (registry : HandlerRegistry) (l : LeafStep) :
  isCheckedLeaf l = true -> targetsFound registry (SLeaf l) ->
  isOk (buildStep (SLeaf l) registry) = true.
Proof.
  intros Hc Hf. apply targetsFound_spec in Hf as (Ha & Hg & Ht & _).
  unfold isCheckedLeaf in Hc. cbn [buildStep]. unfold deriveHandlerId.
  cbn [actionOf agentOf toolOf] in Ha, Hg, Ht.
  destruct (leaf_kind l) as [action|agent|tool| | | | | | | | | | | | | | | |];
    try discriminate.
  - apply negb_true_iff in Hc. rewrite Hc.
    specialize (Ha action eq_refl).
    destruct (prefixed_lookup registry action) as (Hr & _ & _ & He & _).
    rewrite He in Ha. rewrite Hr, Ha. reflexivity.
  - specialize (Hg agent eq_refl).
    destruct (prefixed_lookup registry agent) as (_ & Hr & _ & _ & He & _).
    rewrite He in Hg. rewrite Hr, Hg. reflexivity.
  - specialize (Ht tool eq_refl).
    destruct (prefixed_lookup registry tool) as (_ & _ & Hr & _ & _ & He).
    rewrite He in Ht. rewrite Hr, Ht. reflexivity.
Qed.

Lemma present_lookup {V} (bucket : option (gmap string V)) (name : string) :
  present bucket name = true ->
  exists b v, bucket = Some b /\ b !! name = Some v.
Proof.
  unfold present. destruct bucket as [b|]; [|discriminate].
  intros H. apply bool_decide_eq_true in H as [v Hv]. eauto.
Qed.

Lemma checked_member_builds (registry : HandlerRegistry) (step : StepSpec) :
  isCheckedMember step = true -> targetsFound registry step ->
  isOk (buildStep step registry) = true.
Proof.
  destruct step; try discriminate; cbn [isCheckedMember].
  - apply checked_leaf_builds.
  - intros _ Hf. apply targetsFound_spec in Hf as (_ & _ & _ & _ & Hw).
    destruct (present_lookup _ _ (Hw _ _ eq_refl)) as (ws & nested & Hs & Hn).
    cbn [buildStep]. now rewrite Hs, Hn.
Qed.

Lemma checked_condition_builds (registry : HandlerRegistry) (c : Condition) :
  isCheckedCondition c = true ->
  handlerExists registry (handler c) = true ->
  isOk (buildCondFn registry c) = true.
Proof.
  unfold isCheckedCondition, buildCondFn. intros Hc He.
  apply negb_true_iff in Hc.
  pose proof (resolveHandler_handlerExists registry (handler c) Hc) as H.
  rewrite He in H. now destruct (resolveHandler registry (handler c)).
Qed.

Lemma warnings_build (mappings : list (string * JValue))
  (avail : gset string) (p : string) :
  (forall issue, In issue (validateMappings mappings avail p) ->
                 severity issue = Warning) ->
  isOk (buildMapping mappings) = true.
Proof.
  intros H. destruct (validated_tables mappings avail p H) as (config & -> & _).
  reflexivity.
Qed.

Lemma mapR_all {A B} (f : A -> Result B) (l : list A) :
  Forall (fun x => isOk (f x) = true) l -> isOk (mapR f l) = true.
Proof.
  induction 1 as [|x l Hx _ IH]; [reflexivity|].
  rewrite mapR_cons. destruct (f x); [|discriminate].
  now destruct (mapR f l).
Qed.

Lemma applyLoop_succeeds (registry : HandlerRegistry) (steps : list StepSpec) :
  Forall (roundSucceeds registry) steps ->
  forallb isChecked steps = true ->
  (forall nested, Within steps nested -> targetsFound registry nested) ->
  forall avail p mode index prev,
    (forall issue, In issue (sequenceLoop avail p mode steps index prev) ->
                   severity issue = Warning) ->
    forall w current, isOk (applyLoop w registry steps current) = true.
Proof.
  induction 1 as [|s steps Hs _ IH]; intros Hc Hf avail p mode index prev Hi w
    current; [reflexivity|].
  cbn [forallb] in Hc. apply andb_true_iff in Hc as [Hcs Hcr].
  cbn [applyLoop sequenceLoop] in *.
  assert (Hround : isOk (applyStep s w registry current) = true).
  { apply (Hs Hcs) with (avail := avail) (p := p) (mode := mode)
      (index := index) (prev := prev).
    - intros nested Hn. apply Hf. revert Hn. apply Within_incl.
      intros x [<-|[]]. now left.
    - intros issue Hin. apply Hi. apply in_or_app. now left. }
  destruct (applyStep s w registry current) as [next|]; [|discriminate].
  apply (IH Hcr) with (avail := avail) (p := p) (mode := mode)
    (index := S index)
    (prev := snd (validateStep s avail p mode index prev)).
  - intros nested Hn. apply Hf. revert Hn. apply Within_incl.
    intros x Hx. now right.
  - intros issue Hin. apply Hi. apply in_or_app. now right.
Qed.

Lemma buildBranches_succeeds (registry : HandlerRegistry)
  (branches : list (Condition * list StepSpec)) :
  (forall condition arm,
     In (condition, arm) branches ->
     isOk (buildCondFn registry condition) = true
     /\ forall fresh, isOk (applySteps fresh arm registry) = true) ->
  forall w index, isOk (buildBranches w registry index branches) = true.
Proof.
  induction branches as [|[c arm] rest IH]; intros H w index; [reflexivity|].
  cbn [buildBranches fst snd].
  destruct (H c arm (or_introl eq_refl)) as [Hc Ha].
  destruct (buildCondFn registry c); [|discriminate].
  unfold buildBranchWorkflow. cbv zeta.
  match goal with
  | |- context [applySteps ?fresh arm registry] => specialize (Ha fresh);
      destruct (applySteps fresh arm registry); [|discriminate]
  end.
  assert (Hr : isOk (buildBranches w registry (S index) rest) = true).
  { apply IH. intros condition arm' Hin. apply H. now right. }
  now destruct (buildBranches w registry (S index) rest).
Qed.

Lemma checked_round_succeeds (registry : HandlerRegistry) (step : StepSpec) :
  roundSucceeds registry step.
Proof.
  induction step as [l|ms id|date id|pr it op ti id|wh pl id|m id|conc body IH
                    |branches IH|members IH|body c IH|body c IH|wid im
                    |id pr wa ti rs|id d] using StepSpec_nested_ind;
    intros Hc Hf avail p mode index prev Hi w current; try reflexivity.
  - cbn [isChecked] in Hc. cbn [applyStep].
    assert (Ha : appliedAsLeaf (leaf_kind l) = true).
    { unfold isCheckedLeaf in Hc. now destruct (leaf_kind l). }
    rewrite Ha.
    assert (Hb : isOk (buildStep (SLeaf l) registry) = true).
    { apply checked_leaf_builds; [assumption|]. apply Hf, within_top. now left. }
    now destruct (buildStep (SLeaf l) registry).
  - cbn [applyStep]. cbn [validateStep fst] in Hi.
    pose proof (warnings_build _ _ _ Hi) as Hb.
    now destruct (buildMapping m).
  - cbn [applyStep]. cbn [isChecked] in Hc.
    assert (Hb : isOk (buildStep body registry) = true).
    { apply checked_member_builds; [assumption|].
      apply Hf, Within_child. constructor. }
    now destruct (buildStep body registry).
  - rewrite applyStep_branch.
    assert (Hb : isOk (buildBranches w registry O branches) = true);
      [|now destruct (buildBranches w registry O branches)].
    cbn [isChecked] in Hc. rewrite forallb_forall in Hc.
    assert (Hself : targetsFound registry (SBranch branches))
      by (apply Hf, within_top; now left).
    apply targetsFound_spec in Hself as (_ & _ & _ & Hconds & _).
    apply buildBranches_succeeds. intros condition arm Hin.
    specialize (Hc _ Hin). cbn [fst snd] in Hc.
    apply andb_true_iff in Hc as [Hcc Hca].
    split.
    + apply checked_condition_builds; [assumption|].
      apply Hconds. cbn [conditionsOf]. apply in_map_iff.
      now exists (condition, arm).
    + intros fresh. unfold applySteps.
      destruct (In_nth_error _ _ Hin) as [offset Hnth].
      apply (applyLoop_succeeds registry arm) with
        (avail := collectIds arm)
        (p := armPath p index (0 + offset) +:+ ".steps") (mode := mode)
        (index := O) (prev := prev).
      * rewrite List.Forall_forall in IH. apply (IH _ Hin).
      * exact Hca.
      * intros nested Hn. apply Hf. now apply (Within_arm _ condition arm).
      * intros issue Hissue. apply Hi. rewrite validateStep_branch. cbn [fst].
        now apply (branchIssues_arm prev p index mode branches O offset
                     condition arm).
  - cbn [applyStep]. cbn [isChecked] in Hc. rewrite forallb_forall in Hc.
    assert (Hb : isOk (mapR (fun s => buildStep s registry) members) = true).
    { apply mapR_all. apply List.Forall_forall. intros member Hin.
      apply checked_member_builds; [now apply Hc|].
      apply Hf, Within_child. now constructor. }
    now destruct (mapR (fun s => buildStep s registry) members).
  - cbn [applyStep]. cbn [isChecked] in Hc.
    apply andb_true_iff in Hc as [Hcb Hcc].
    assert (Hb : isOk (buildStep body registry) = true).
    { apply checked_member_builds; [assumption|].
      apply Hf, Within_child. constructor. }
    assert (Hk : isOk (buildCondFn registry c) = true).
    { apply checked_condition_builds; [assumption|].
      assert (Hself : targetsFound registry (SDoWhile body c))
        by (apply Hf, within_top; now left).
      apply targetsFound_spec in Hself as (_ & _ & _ & Hconds & _).
      apply Hconds. now left. }
    destruct (buildStep body registry); [|discriminate].
    now destruct (buildCondFn registry c).
  - cbn [applyStep]. cbn [isChecked] in Hc.
    apply andb_true_iff in Hc as [Hcb Hcc].
    assert (Hb : isOk (buildStep body registry) = true).
    { apply checked_member_builds; [assumption|].
      apply Hf, Within_child. constructor. }
    assert (Hk : isOk (buildCondFn registry c) = true).
    { apply checked_condition_builds; [assumption|].
      assert (Hself : targetsFound registry (SDoUntil body c))
        by (apply Hf, within_top; now left).
      apply targetsFound_spec in Hself as (_ & _ & _ & Hconds & _).
      apply Hconds. now left. }
    destruct (buildStep body registry); [|discriminate].
    now destruct (buildCondFn registry c).
  - cbn [applyStep].
    assert (Hself : targetsFound registry (SWorkflow wid im))
      by (apply Hf, within_top; now left).
    apply targetsFound_spec in Hself as (_ & _ & _ & _ & Hw).
    destruct (present_lookup _ _ (Hw _ _ eq_refl)) as (ws & nested & Hs & Hn).
    rewrite Hs, Hn. destruct im as [m|]; [|reflexivity].
    cbn [validateStep fst] in Hi.
    pose proof (warnings_build _ _ _ Hi) as Hb.
    now destruct (buildMapping m).
Qed.

(** X25.  For the steps the validator answers for, validation is all
    that can fail.  When every top-level step is checked (leaves that
    name a non-empty action, an agent or a tool; control, [map] and
    [workflow] steps; groups, foreach and loops over such leaves or
    workflow references; branches over such sequences; conditions
    outside the namespaces on which validator and resolver differ) and
    the validator, run with the registry, reports nothing but warnings,
    then compilation succeeds: no handler, agent, tool, workflow or
    mapping is found missing while the graph is built. *)
Theorem validation_suffices (spec : WorkflowSpec) (registry : HandlerRegistry) :
  forallb isChecked (spec_steps spec) = true ->
  (forall issue, In issue (validateWorkflowSchemas spec (Some registry)) ->
                 severity issue = Warning) ->
  exists result, compileWorkflow spec registry = Ok result.
Proof.
  intros Hc Hw. rewrite compileWorkflow_cases.
  assert (Hnone : validationErrors spec registry = []).
  { unfold validationErrors. apply filter_none. intros issue Hin.
    unfold isError. now rewrite (Hw issue Hin). }
  rewrite Hnone.
  assert (Hb : isOk (applySteps (initialWorkflow spec) (spec_steps spec)
                       registry) = true);
    [|destruct (applySteps (initialWorkflow spec) (spec_steps spec) registry);
      [eauto | discriminate]].
  unfold applySteps.
  apply (applyLoop_succeeds registry (spec_steps spec)) with
    (avail := collectIds (spec_steps spec)) (p := spec_id spec)
    (mode := modeOf spec) (index := O) (prev := Some (spec_inputSchema spec)).
  - apply List.Forall_forall. intros step _. apply checked_round_succeeds.
  - exact Hc.
  - intros nested Hn.
    destruct (visitSteps_reaches _ (spec_id spec +:+ ".steps") _ Hn) as [sp Hsp].
    exists sp.
    destruct (visitHandlers registry (nested, sp)) as [|issue issues] eqn:E;
      [reflexivity|]. exfalso.
    assert (Hin : In issue (validateHandlers (spec_steps spec)
                              (spec_id spec +:+ ".steps") registry)).
    { apply (validateHandlers_visit _ _ registry nested sp); [assumption|].
      rewrite E. now left. }
    pose proof (validateHandlers_missing _ _ _ _ Hin) as [Hs _].
    rewrite Hw in Hs; [discriminate|].
    unfold validateWorkflowSchemas. do 2 (apply in_or_app; right). exact Hin.
  - intros issue Hin. apply Hw. unfold validateWorkflowSchemas.
    apply in_or_app. now left.
Qed.

Lemma validation_suffices_witness :
  exists result,
    compileWorkflow
      (specOf [SBranch [(conditionOn "processItem",
                         [itemStep; SMap [("v", Mappings.fromStep "item" "x")]
                                      None])]]
         None)
      itemRegistry
    = Ok result.
Proof.
  apply validation_suffices.
  - reflexivity.
  - intros issue Hin. vm_compute in Hin. contradiction.
Defined.

(** ** Where issues are reported *)

Lemma below_refl (p : string) : exists suffix, p = p +:+ suffix.
Proof. exists "". now rewrite string_app_nil_r. Qed.

Lemma below_trans (p segment q : string) :
  (exists suffix, q = (p +:+ segment) +:+ suffix) ->
  exists suffix, q = p +:+ suffix.
Proof.
  intros [suffix ->]. exists (segment +:+ suffix). apply string_app_assoc.
Qed.

Lemma visitFrom_paths (steps : list StepSpec) :
  Forall (fun step => forall sp v, In v (visitStep step sp) ->
                                   exists suffix, snd v = sp +:+ suffix) steps ->
  forall base index v,
    In v (visitFrom steps base index) -> exists suffix, snd v = base +:+ suffix.
Proof.
  induction 1 as [|s steps Hs _ IH]; intros base index v Hin; [contradiction|].
  cbn [visitFrom] in Hin. apply in_app_or in Hin as [Hin|Hin].
  - apply (below_trans base ("." +:+ pretty index)). now apply Hs.
  - now apply (IH base (S index)).
Qed.

Lemma visitStep_paths (step : StepSpec) :
  forall sp v, In v (visitStep step sp) -> exists suffix, snd v = sp +:+ suffix.
Proof.
  induction step as [l|ms id|date id|pr it op ti id|wh pl id|m id|conc body IH
                    |branches IH|members IH|body c IH|body c IH|wid im
                    |id pr wa ti rs|id d] using StepSpec_nested_ind;
    intros sp v Hin;
    try (destruct Hin as [<-|[]]; apply below_refl).
  - rewrite (visitStep_body _ body) in Hin by (left; eauto).
    destruct Hin as [<-|Hin]; [apply below_refl|].
    apply (below_trans sp ".step").
    apply (visitFrom_paths [body]) with (index := O); [|exact Hin].
    constructor; [exact IH | constructor].
  - rewrite visitStep_branch in Hin.
    destruct Hin as [<-|Hin]; [apply below_refl|].
    revert Hin. generalize O as bi.
    induction IH as [|b rest Hb _ IHrest]; intros bi Hin; [contradiction|].
    cbn [visitBranches] in Hin. apply in_app_or in Hin as [Hin|Hin].
    + apply (below_trans sp (".branches." +:+ pretty bi +:+ ".steps")).
      rewrite <- !string_app_assoc.
      rewrite <- !string_app_assoc in Hin.
      now apply (visitFrom_paths (snd b) Hb) with (index := O).
    + now apply (IHrest (S bi)).
  - rewrite visitStep_parallel in Hin.
    destruct Hin as [<-|Hin]; [apply below_refl|].
    apply (below_trans sp ".steps").
    now apply (visitFrom_paths members IH) with (index := O).
  - rewrite (visitStep_body _ body) in Hin by (right; left; eauto).
    destruct Hin as [<-|Hin]; [apply below_refl|].
    apply (below_trans sp ".step").
    apply (visitFrom_paths [body]) with (index := O); [|exact Hin].
    constructor; [exact IH | constructor].
  - rewrite (visitStep_body _ body) in Hin by (right; right; eauto).
    destruct Hin as [<-|Hin]; [apply below_refl|].
    apply (below_trans sp ".step").
    apply (visitFrom_paths [body]) with (index := O); [|exact Hin].
    constructor; [exact IH | constructor].
Qed.

Lemma visitSteps_paths (steps : list StepSpec) (base : string)
  (v : StepSpec * string) :
  In v (visitSteps steps base) -> exists suffix, snd v = base +:+ suffix.
Proof.
  apply visitFrom_paths. apply List.Forall_forall. intros s _.
  apply visitStep_paths.
Qed.

Lemma idOccurrences_visits (visits : list (StepSpec * string))
  (id p : string) :
  In (id, p) (idOccurrences visits) -> exists step, In (step, p) visits.
Proof.
  induction visits as [|[s sp] visits IH]; [contradiction|].
  cbn [idOccurrences]. destruct (stepId s).
  - intros [E|Hin]; [injection E as <- <-; exists s; now left|].
    destruct (IH Hin) as [step Hs]. exists step. now right.
  - intros Hin. destruct (IH Hin) as [step Hs]. exists step. now right.
Qed.

Lemma duplicateErrors_paths (earlier occurrences : list (string * string))
  (issue : SchemaIssue) :
  In issue (duplicateErrors earlier occurrences) ->
  exists id p, In (id, p) occurrences /\ path issue = p +:+ ".id".
Proof.
  revert earlier.
  induction occurrences as [|[id p] rest IH]; intros earlier; [contradiction|].
  cbn [duplicateErrors].
  assert (Hrest : In issue (duplicateErrors (earlier ++ [(id, p)]) rest) ->
                  exists id' p', In (id', p') ((id, p) :: rest)
                                 /\ path issue = p' +:+ ".id").
  { intros Hin. destruct (IH _ Hin) as (id' & p' & Hin' & Hp).
    exists id', p'. split; [now right | assumption]. }
  destruct (firstOccurrence id earlier); [|exact Hrest].
  intros [<-|Hin]; [|now apply Hrest].
  exists id, p. split; [now left | reflexivity].
Qed.

Lemma visitHandlers_paths (registry : HandlerRegistry) (step : StepSpec)
  (sp : string) (issue : SchemaIssue) :
  In issue (visitHandlers registry (step, sp)) ->
  exists suffix, path issue = sp +:+ suffix.
Proof.
  unfold visitHandlers. intros H.
  repeat (apply in_app_or in H as [H|H]).
  - destruct (actionOf step); [|contradiction].
    destruct (negb _); [|contradiction]. destruct H as [<-|[]]. eexists.
    reflexivity.
  - destruct (agentOf step); [|contradiction].
    destruct (negb _); [|contradiction]. destruct H as [<-|[]]. eexists.
    reflexivity.
  - destruct (toolOf step); [|contradiction].
    destruct (negb _); [|contradiction]. destruct H as [<-|[]]. eexists.
    reflexivity.
  - destruct step; try contradiction. revert H. generalize O as bi.
    induction branches as [|b rest IH]; intros bi H; [contradiction|].
    cbn [branchHandlerIssues] in H. apply in_app_or in H as [H|H].
    + destruct (negb _); [|contradiction]. destruct H as [<-|[]]. eexists.
      reflexivity.
    + now apply (IH (S bi)).
  - destruct step; try contradiction;
      (destruct (negb _); [|contradiction]); destruct H as [<-|[]]; eexists;
      reflexivity.
  - destruct step; try contradiction.
    destruct (negb _); [|contradiction]. destruct H as [<-|[]]. eexists.
    reflexivity.
Qed.

(** X26.  Every issue the validator reports, whatever its kind, is
    located at the workflow: its path is the id of the specification
    followed by the place of the step, entry or field it is about. *)
Theorem issues_below_workflow (spec : WorkflowSpec)
  (registry : option HandlerRegistry) (issue : SchemaIssue) :
  In issue (validateWorkflowSchemas spec registry) ->
  exists suffix, path issue = spec_id spec +:+ suffix.
Proof.
  unfold validateWorkflowSchemas. intros Hin.
  apply in_app_or in Hin as [Hin|Hin]; [|apply in_app_or in Hin as [Hin|Hin]].
  - now apply validateSequence_paths in Hin.
  - rewrite validateUniqueStepIds_spec in Hin.
    apply duplicateErrors_paths in Hin as (id & p & Hocc & ->).
    apply idOccurrences_visits in Hocc as [step Hv].
    apply visitSteps_paths in Hv as [suffix Hs]. cbn [snd] in Hs. subst p.
    exists (".steps" +:+ suffix +:+ ".id"). now rewrite !string_app_assoc.
  - destruct registry as [registry|]; [|contradiction].
    unfold validateHandlers in Hin.
    apply in_flat_map in Hin as ([step sp] & Hv & Hin).
    apply visitHandlers_paths in Hin as [suffix ->].
    apply visitSteps_paths in Hv as [suffix' Hs]. cbn [snd] in Hs. subst sp.
    exists (".steps" +:+ suffix' +:+ suffix). now rewrite !string_app_assoc.
Qed.

Lemma issues_below_workflow_witness :
  exists suffix,
    path (unknownStepIssue "wf.map.0" "v" (Some (JStr "missing")))
    = spec_id (specOf missingReference None) +:+ suffix.
Proof.
  apply (issues_below_workflow (specOf missingReference None) None).
  vm_compute. left. reflexivity.
Defined.

(** ** A schema against itself *)

Lemma typeIncludes_refl (t : option SchemaType) : typeIncludes t t = true.
Proof.
  unfold typeIncludes. destruct (typeFalsy t); [reflexivity|]. cbn [orb].
  destruct t as [t|]; [|reflexivity].
  apply forallb_forall. intros x Hx. now apply inb_In.
Qed.

Lemma sameValueZero_refl (v : JValue) :
  isPrimitive v = true -> sameValueZero v v = true.
Proof.
  destruct v as [|b|n|s| |]; try discriminate; intros _; simpl.
  - reflexivity.
  - now destruct b.
  - apply Z.eqb_refl.
  - apply String.eqb_refl.
Qed.

Lemma isEnumCompatible_refl (schema : JValue) :
  (forall values, Js.getProp schema "enum" = Some (JArr values) ->
                  forallb isPrimitive values = true) ->
  isEnumCompatible schema schema = true.
Proof.
  intros H. unfold isEnumCompatible.
  destruct (notRecord schema || notRecord schema); [reflexivity|].
  destruct (Js.getProp schema "enum") as [[| | | |values|]|]; try reflexivity.
  specialize (H values eq_refl). rewrite forallb_forall in H.
  apply forallb_forall. intros v Hv. apply existsb_exists. exists v.
  split; [assumption|]. now apply sameValueZero_refl, H.
Qed.

Lemma compatibilityFuel_self (fuel : nat) (schema : JValue) (p : string)
  (mode : SchemaCompatibility) (issue : SchemaIssue) :
  PrimitiveEnums schema ->
  In issue (compatibilityFuel fuel (Some schema) (Some schema) p mode) ->
  severity issue = Warning /\ isMissingKey issue = true.
Proof.
  revert schema p.
  induction fuel as [|fuel IH]; intros schema p Hp H; [contradiction|].
  simpl in H. unfold compatibilityBody in H.
  rewrite !normalizeSchema_id in H.
  destruct (negb (Js.truthy schema) || negb (Js.truthy schema));
    [contradiction|].
  rewrite typeIncludes_refl in H. cbn [negb] in H.
  destruct Hp as [schema Henum Hitems].
  rewrite (isEnumCompatible_refl schema Henum) in H. cbn [negb app] in H.
  repeat (apply in_app_or in H as [H|H]).
  - destruct (isNullable schema); contradiction.
  - destruct (length (getScalarConstraints schema)); contradiction.
  - destruct (_ && _); [|contradiction].
    apply in_map_iff in H as (key & <- & _). split; [reflexivity|].
    apply isMissingKey_missingKeyIssue.
  - destruct (_ && _); [|contradiction].
    destruct (getArrayItems schema) as [items|] eqn:Ei; [|contradiction].
    apply (IH items (p +:+ ".items")); [|exact H]. now apply Hitems.
Qed.

(** X27.  A schema agrees with itself.  When the members of its [enum]s
    are primitive values, a schema checked against itself as producer
    and consumer yields no error in either mode, and no warning but for
    the keys it requires without declaring them among its properties:
    no type mismatch, no nullability, enum or constraint issue, at any
    depth of its item schemas. *)
Theorem schema_agrees_with_itself (schema : JValue) (p : string)
  (mode : SchemaCompatibility) (issue : SchemaIssue) :
  PrimitiveEnums schema ->
  In issue (validateSchemaCompatibility (Some schema) (Some schema) p mode) ->
  severity issue = Warning /\ isMissingKey issue = true.
Proof. apply compatibilityFuel_self. Qed.

Lemma schema_agrees_with_itself_witness :
  severity (missingKeyIssue "wf.steps.1" "value") = Warning
  /\ isMissingKey (missingKeyIssue "wf.steps.1" "value") = true.
Proof.
  apply (schema_agrees_with_itself requiringSchema "wf.steps.1" Strict).
  - constructor; intros x H; vm_compute in H; discriminate.
  - vm_compute. left. reflexivity.
Defined.
